(** * kluctl: the Kubernetes resource-access layer (pkg/k8s/k8s_cluster.go)

    A shallow embedding of the cluster handle [K8sCluster]: the single-object
    calls, the two fan-out queries, the pre-patch fixups and the delete
    protocol, with the properties the design document states about them. *)

From stdpp Require Import gmap strings list fin_maps pretty.
From Stdlib Require Import ZArith QArith.
Local Close Scope Q_scope.
Local Open Scope string_scope.
Local Open Scope list_scope.
Local Open Scope nat_scope.
Set Warnings "-register-all,-clear-no-such-hyp".

(** ** Errors

    Go [error] values.  A nil error is [None : option error]. *)

Inductive error : Type :=
| StatusNotFound (msg : string)        (* apierrors StatusError, reason NotFound *)
| NoKindMatch (msg : string)           (* meta.NoKindMatchError *)
| ContextCanceled                      (* context.Canceled *)
| DeadlineExceeded                     (* context.DeadlineExceeded *)
| OtherError (msg : string)            (* transport, auth, conflict, ... *)
| Errorf (fmt : string) (arg : string) (e : error).
                                       (* fmt.Errorf(fmt, arg..., e) with a %w verb *)

(** [errors.IsNotFound] and [meta.IsNoMatchError] of k8s.io/apimachinery:
    both look through [%w] wrapping. *)
Fixpoint IsNotFound (e : error) : bool :=
  match e with
  | StatusNotFound _ => true
  | Errorf _ _ e' => IsNotFound e'
  | _ => false
  end.

Fixpoint IsNoMatchError (e : error) : bool :=
  match e with
  | NoKindMatch _ => true
  | Errorf _ _ e' => IsNoMatchError e'
  | _ => false
  end.

(** The errors a cancelled or expired context reports ([ctx.Err()]). *)
Definition is_ctx_err (e : error) : bool :=
  match e with
  | ContextCanceled | DeadlineExceeded => true
  | _ => false
  end.

(** ** Identities *)

Record ApiWarning := mkApiWarning { Code : Z; Agent : string; Text : string }.

Record GroupVersionKind := mkGVK { Group : string; Version : string; Kind : string }.

Record GroupVersionResource :=
  mkGVR { RGroup : string; RVersion : string; Resource : string }.

Record ObjectRef := mkRef { GVK : GroupVersionKind; Namespace : string; Name : string }.

#[global] Instance GroupVersionKind_eq_dec : EqDecision GroupVersionKind.
Proof. solve_decision. Defined.

#[global] Instance GroupVersionKind_countable : Countable GroupVersionKind.
Proof.
  apply (inj_countable' (fun g => (Group g, Version g, Kind g))
                        (fun t => mkGVK t.1.1 t.1.2 t.2)).
  by intros [].
Defined.

#[global] Instance ObjectRef_eq_dec : EqDecision ObjectRef.
Proof. solve_decision. Defined.

#[global] Instance ObjectRef_countable : Countable ObjectRef.
Proof.
  apply (inj_countable' (fun r => (GVK r, Namespace r, Name r))
                        (fun t => mkRef t.1.1 t.1.2 t.2)).
  by intros [].
Defined.

(** Modelled from the spec: [ref.String()] (pkg/types/k8s, not under src/);
    it is only used inside error messages. *)
Definition ObjectRef_String (r : ObjectRef) : string :=
  Group (GVK r) +:+ "/" +:+ Kind (GVK r) +:+ "/" +:+ Namespace r +:+ "/" +:+ Name r.

(** ** The untyped attribute tree ([uo.UnstructuredObject])

    Maps keep their entries in order; a key is looked up at its first entry. *)

Inductive value : Type :=
| VNull
| VBool (b : bool)
| VInt (n : Z)
| VFloat (q : Q)
| VStr (s : string)
| VList (l : list value)
| VMap (m : list (string * value)).

Definition attrs := list (string * value).

Fixpoint map_get (k : string) (m : attrs) : option value :=
  match m with
  | [] => None
  | (k', v) :: m' => if decide (k' = k) then Some v else map_get k m'
  end.

(** [m[k] = v]: overwrite the entry of [k], or add one. *)
Fixpoint map_set (k : string) (v : value) (m : attrs) : attrs :=
  match m with
  | [] => [(k, v)]
  | (k', v') :: m' =>
      if decide (k' = k) then (k, v) :: m' else (k', v') :: map_set k v m'
  end.

(** ** Resource resolver *)

Record APIResource := mkAPIResource {
  ar_gvk : GroupVersionKind;
  ar_name : string;
  ar_namespaced : bool;
  ar_preferred : bool;
  ar_verbs : list string }.

(** Modelled from the spec: the Resource Resolver ([k8sResources], not under
    src/).  It holds the discovery snapshot; resolving a kind that is not in
    it is the structured "no such kind" error. *)
Record k8sResources := mkResources { discovered : list APIResource }.

Definition deprecatedResources : list (string * string) := [("extensions", "Ingress")].

Definition is_deprecated (g : GroupVersionKind) : bool :=
  bool_decide ((Group g, Kind g) ∈ deprecatedResources).

(** Modelled from the spec: [GetGVRForGVK], the plural resource and the
    scoping of a kind, or the "no such kind" error. *)
Definition GetGVRForGVK (r : k8sResources) (gvk : GroupVersionKind)
  : (GroupVersionResource * bool) + error :=
  match List.find (fun ar => bool_decide (ar_gvk ar = gvk)) (discovered r) with
  | Some ar => inl (mkGVR (Group gvk) (Version gvk) (ar_name ar), ar_namespaced ar)
  | None => inr (NoKindMatch (Kind gvk))
  end.

(** Modelled from the spec: [GetFilteredPreferredGVKs], the preferred kinds
    that pass the filter, the deprecated ones left out. *)
Definition GetFilteredPreferredGVKs (r : k8sResources) (filter : APIResource → bool)
  : list GroupVersionKind :=
  ar_gvk <$> List.filter
    (fun ar => ar_preferred ar && negb (is_deprecated (ar_gvk ar)) && filter ar)
    (discovered r).

(** Modelled from the spec: [utils.FindStrInSlice] (pkg/utils, not under
    src/), the index of the first occurrence, or -1. *)
Fixpoint FindStrInSlice (a : list string) (s : string) : Z :=
  match a with
  | [] => -1
  | x :: a' =>
      if decide (x = s) then 0
      else let i := FindStrInSlice a' s in if decide (i = -1)%Z then (-1)%Z else (i + 1)%Z
  end.

(** ** Requests, replies and the world of one goroutine *)

(** [p.dynamicClient.Resource(gvr)], optionally narrowed by [.Namespace(ns)]. *)
Record Target := mkTarget { tgt_resource : GroupVersionResource; tgt_namespace : option string }.

Record v1DeleteOptions :=
  mkDeleteOpts { del_PropagationPolicy : option string; del_DryRun : list string }.
Record v1PatchOptions :=
  mkPatchOpts { po_FieldManager : string; po_DryRun : list string; po_Force : option bool }.
Record v1UpdateOptions :=
  mkUpdateOpts { up_FieldManager : string; up_DryRun : list string }.

Inductive Request : Type :=
| GetReq (t : Target) (name : string)
| ListReq (t : Target) (labelSelector : string)
| MetadataListReq (t : Target) (labelSelector : string)
| DeleteReq (t : Target) (name : string) (o : v1DeleteOptions)
| PatchReq (t : Target) (name : string) (patchType : string) (data : string)
           (po : v1PatchOptions)
| UpdateReq (t : Target) (obj : value) (o : v1UpdateOptions)
| ProxyGetReq (scheme namespace name port path : string) (params : list (string * string)).

(** What the server answers: warning headers, an error or a body. *)
Record Reply := mkReply {
  reply_warnings : list ApiWarning;
  reply_err : option error;
  reply_object : value;
  reply_items : list value }.

Inductive ctx_err := Canceled | Deadline.

Definition ctx_Err (c : ctx_err) : error :=
  match c with Canceled => ContextCanceled | Deadline => DeadlineExceeded end.

(** The two [select] statements of the file. *)
Inductive Checkout := ClientReady | ClientCtxDone (c : ctx_err).
Inductive WaitEvent := TimerFired | WaitCtxDone (c : ctx_err).

Inductive Event := Sent (r : Request) | After (ms : Z).

(** The environment of a call: what each select observes and what the server
    replies at each moment, the moment reached, the requests made so far, and
    what each resolver (shared, refreshed by others) holds at each moment. *)
Record World := mkWorld {
  clock : nat;
  trace : list Event;
  checkout_at : nat → Checkout;
  reply_at : nat → Request → Reply;
  wait_at : nat → WaitEvent;
  resources_at : nat → nat → k8sResources }.

Definition advance (ev : list Event) (w : World) : World :=
  mkWorld (S (clock w)) (trace w ++ ev) (checkout_at w) (reply_at w) (wait_at w)
          (resources_at w).

Definition M (A : Type) : Type := World → A * World.
Definition mret {A} (a : A) : M A := fun w => (a, w).
Definition mbind {A B} (m : M A) (f : A → M B) : M B :=
  fun w => let (a, w') := m w in f a w'.
Notation "'do' x <- m ; k" := (mbind m (fun x => k))
  (at level 10, x pattern, m at level 100, k at level 200).

(** ** The cluster handle *)

(** [goversion.Version]: the release segments, compared left to right. *)
Definition GoVersion := list Z.

Definition allZero (l : list Z) : bool := forallb (Z.eqb 0) l.

Fixpoint version_Compare (a b : GoVersion) {struct a} : comparison :=
  match a, b with
  | [], _ => if allZero b then Eq else Lt
  | x :: a', [] => if allZero a then Eq else Gt
  | x :: a', y :: b' => if decide (x = y) then version_Compare a' b' else (x ?= y)%Z
  end.

Definition LessThan (a b : GoVersion) : bool :=
  match version_Compare a b with Lt => true | _ => false end.

Definition v1_21 : GoVersion := [1; 21; 0]%Z.
Definition v1_1000 : GoVersion := [1; 1000; 0]%Z.

Record K8sCluster := mkCluster {
  DryRun : bool;
  clientPool : nat;                 (* the channel the handle points at *)
  ServerVersion : GoVersion;
  Resources : nat }.                (* the resolver the handle points at *)

(** What the handle's resolver holds now. *)
Definition resolver (k : K8sCluster) (w : World) : k8sResources :=
  resources_at w (clock w) (Resources k).

Record parallelClientEntry := mkEntry { warnings : list ApiWarning }.

Definition parallelClients : nat := 16.

Definition HandleWarningHeader (p : parallelClientEntry) (code : Z) (agent text : string)
  : parallelClientEntry :=
  mkEntry (warnings p ++ [mkApiWarning code agent text]).

Definition ReadWrite (k : K8sCluster) : K8sCluster :=
  mkCluster false (clientPool k) (ServerVersion k) (Resources k).

(** One request over the entry's transport: the reply's warning headers reach
    the entry through its handler. *)
Definition roundTrip (p : parallelClientEntry) (req : Request)
  : M (parallelClientEntry * Reply) :=
  fun w =>
    let r := reply_at w (clock w) req in
    let p' := foldl (fun p a => HandleWarningHeader p (Code a) (Agent a) (Text a))
                    p (reply_warnings r) in
    ((p', r), advance [Sent req] w).

(** The callback returns the entry as it leaves it, its error, and the value
    it stored in the variable it captured. *)
Definition callback (R : Type) : Type :=
  parallelClientEntry → M (parallelClientEntry * option error * R).

Definition withClientFromPool {R} (k : K8sCluster) (zero : R) (cb : callback R)
  : M (list ApiWarning * option error * R) :=
  fun w =>
    match checkout_at w (clock w) with
    | ClientReady =>
        let p := mkEntry [] in
        let '((p', err, r), w') := cb p (advance [] w) in
        ((warnings p', err, r), w')
    | ClientCtxDone c =>
        (([], Some (Errorf "failed waiting for free client: %w" "" (ctx_Err c)), zero),
         advance [] w)
    end.

Definition withDynamicClientForGVK {R} (k : K8sCluster) (gvk : GroupVersionKind)
    (namespace : string) (zero : R) (cb : Target → callback R)
  : M (list ApiWarning * option error * R) :=
  withClientFromPool k zero (fun p w =>
    match GetGVRForGVK (resolver k w) gvk with
    | inr err => mret (p, Some err, zero) w
    | inl (gvr, namespaced) =>
        if namespaced && negb (bool_decide (namespace = ""))
        then cb (mkTarget gvr (Some namespace)) p w
        else cb (mkTarget gvr None) p w
    end).

(** ** Reading *)

(** The label map in the order the [range] loop visits it. *)
Fixpoint buildLabelSelector_from (ret : string) (labels : list (string * string)) : string :=
  match labels with
  | [] => ret
  | (k, v) :: rest =>
      let ret := if bool_decide (String.length ret ≠ 0) then ret +:+ "," else ret in
      buildLabelSelector_from (ret +:+ k +:+ "=" +:+ v) rest
  end.

Definition buildLabelSelector (labels : list (string * string)) : string :=
  buildLabelSelector_from "" labels.

Definition ListObjects (k : K8sCluster) (gvk : GroupVersionKind) (namespace : string)
    (labels : list (string * string))
  : M (list value * list ApiWarning * option error) :=
  do (apiWarnings, err, result) <-
    withDynamicClientForGVK k gvk namespace []
      (fun r p =>
         do (p, x) <- roundTrip p (ListReq r (buildLabelSelector labels));
         match reply_err x with
         | Some err => mret (p, Some err, [])
         | None => mret (p, None, reply_items x)
         end);
  mret (result, apiWarnings, err).

(** Modelled from the spec: [u.SetK8sGVK(gvk)] (pkg/utils/uo, not under
    src/); the kind goes into the object's [apiVersion] and [kind]
    attributes. *)
Definition apiVersion_of (gvk : GroupVersionKind) : string :=
  if bool_decide (Group gvk = "") then Version gvk else Group gvk +:+ "/" +:+ Version gvk.

Definition SetK8sGVK (gvk : GroupVersionKind) (u : value) : value :=
  match u with
  | VMap m => VMap (map_set "kind" (VStr (Kind gvk))
                      (map_set "apiVersion" (VStr (apiVersion_of gvk)) m))
  | _ => u
  end.

Definition ListObjectsMetadata (k : K8sCluster) (gvk : GroupVersionKind)
    (namespace : string) (labels : list (string * string))
  : M (list value * list ApiWarning * option error) :=
  do (apiWarnings, err, result) <-
    withDynamicClientForGVK k gvk namespace []
      (fun r p =>
         do (p, x) <- roundTrip p (MetadataListReq r (buildLabelSelector labels));
         match reply_err x with
         | Some err => mret (p, Some err, [])
         | None => mret (p, None, SetK8sGVK gvk <$> reply_items x)
         end);
  mret (result, apiWarnings, err).

Definition GetSingleObject (k : K8sCluster) (ref : ObjectRef)
  : M (option value * list ApiWarning * option error) :=
  do (apiWarnings, err, result) <-
    withDynamicClientForGVK k (GVK ref) (Namespace ref) None
      (fun r p =>
         do (p, x) <- roundTrip p (GetReq r (Name ref));
         match reply_err x with
         | Some err => mret (p, Some err, None)
         | None => mret (p, None, Some (reply_object x))
         end);
  mret (result, apiWarnings, err).

(** ** Deleting *)

Record DeleteOptions := mkDeleteOptions {
  del_ForceDryRun : bool;
  NoWait : bool;
  IgnoreNotFoundError : bool }.

Definition pollInterval : Z := 500.

(** The loop of [waitForDeletedObject], run for at most [fuel] polls; [None]
    when the polls are used up before it returns. *)
Fixpoint waitForDeletedObject (fuel : nat) (k : K8sCluster) (ref : ObjectRef)
  : M (option (option error)) :=
  match fuel with
  | O => mret None
  | S fuel' =>
      do (_, _, err) <- GetSingleObject k ref;
      match err with
      | Some err =>
          if IsNotFound err then mret (Some None) else mret (Some (Some err))
      | None =>
          fun w =>
            match wait_at w (clock w) with
            | TimerFired => waitForDeletedObject fuel' k ref (advance [After pollInterval] w)
            | WaitCtxDone c =>
                (Some (Some (Errorf "failed waiting for deletion of %s: %w"
                                    (ObjectRef_String ref) (ctx_Err c))),
                 advance [After pollInterval] w)
            end
      end
  end.

(** The delete request of [DeleteSingleObject]. *)
Definition sendDelete (k : K8sCluster) (ref : ObjectRef) (options : DeleteOptions)
    (o : v1DeleteOptions) : M (list ApiWarning * option error * unit) :=
  withDynamicClientForGVK k (GVK ref) (Namespace ref) tt
    (fun r p =>
       do (p, x) <- roundTrip p (DeleteReq r (Name ref) o);
       match reply_err x with
       | Some err =>
           if IgnoreNotFoundError options && IsNotFound err
           then mret (p, None, tt)
           else mret (p, Some err, tt)
       | None => mret (p, None, tt)
       end).

Definition DeleteSingleObject (fuel : nat) (k : K8sCluster) (ref : ObjectRef)
    (options : DeleteOptions) : M (option (list ApiWarning * option error)) :=
  let dryRun := DryRun k || del_ForceDryRun options in
  let pp := "Foreground" in
  let o := mkDeleteOpts (Some pp) (if dryRun then ["All"] else []) in
  do (apiWarnings, err, _) <- sendDelete k ref options o;
  match err with
  | Some err => mret (Some (apiWarnings, Some err))
  | None =>
      if negb dryRun && negb (NoWait options) then
        do r <- waitForDeletedObject fuel k ref;
        match r with
        | None => mret None
        | Some (Some err) => mret (Some (apiWarnings, Some err))
        | Some None => mret (Some (apiWarnings, None))
        end
      else mret (Some (apiWarnings, None))
  end.

(** ** Writing *)

Record PatchOptions := mkPatchOptions { patch_ForceDryRun : bool; ForceApply : bool }.
Record UpdateOptions := mkUpdateOptions { update_ForceDryRun : bool }.

Section Writes.
(** Of pkg/utils/uo and pkg/yaml, which are not under src/: the reference
    an object carries and its YAML text. *)
Variable GetK8sRef : value → ObjectRef.
Variable WriteYamlBytes : value → string + error.

Definition PatchObject (k : K8sCluster) (o : value) (options : PatchOptions)
  : M (option value * list ApiWarning * option error) :=
  let dryRun := DryRun k || patch_ForceDryRun options in
  let ref := GetK8sRef o in
  match WriteYamlBytes o with
  | inr err => mret (None, [], Some err)
  | inl data =>
      let po := mkPatchOpts "kluctl" (if dryRun then ["All"] else [])
                  (if ForceApply options then Some (ForceApply options) else None) in
      do (apiWarnings, err, result) <-
        withDynamicClientForGVK k (GVK ref) (Namespace ref) None
          (fun r p =>
             do (p, x) <- roundTrip p
                 (PatchReq r (Name ref) "application/apply-patch+yaml" data po);
             match reply_err x with
             | Some err =>
                 mret (p, Some (Errorf "failed to patch %s: %w" (ObjectRef_String ref) err),
                       None)
             | None => mret (p, None, Some (reply_object x))
             end);
      mret (result, apiWarnings, err)
  end.

Definition UpdateObject (k : K8sCluster) (o : value) (options : UpdateOptions)
  : M (option value * list ApiWarning * option error) :=
  let dryRun := DryRun k || update_ForceDryRun options in
  let ref := GetK8sRef o in
  let updateOpts := mkUpdateOpts "kluctl" (if dryRun then ["All"] else []) in
  do (apiWarnings, err, result) <-
    withDynamicClientForGVK k (GVK ref) (Namespace ref) None
      (fun r p =>
         do (p, x) <- roundTrip p (UpdateReq r o updateOpts);
         match reply_err x with
         | Some err => mret (p, Some err, None)
         | None => mret (p, None, Some (reply_object x))
         end);
  mret (result, apiWarnings, err).
End Writes.

(** ** A caller: bootstrapping sealed-secrets *)

Definition secretName : string := "sealed-secrets-key-kluctl-bootstrap".
Definition configMapName : string := "sealed-secrets-key-kluctl-bootstrap".

Definition sealedSecretsCRD : ObjectRef :=
  mkRef (mkGVK "apiextensions.k8s.io" "v1" "CustomResourceDefinition") ""
        "sealedsecrets.bitnami.com".

Definition bootstrapConfigMap (namespace : string) : ObjectRef :=
  mkRef (mkGVK "" "v1" "ConfigMap") namespace configMapName.

Section Bootstrap.
Variable GetK8sRef : value → ObjectRef.
Variable WriteYamlBytes : value → string + error.
(** The outcome of [crypto.GeneratePrivateKeyAndCert], and the secret and
    the config map [writeKey] builds from the key (with pkg/utils/uo). *)
Variable generated : option error.
Variable secret configMap : value.

Definition writeKey (k : K8sCluster) : M (option error) :=
  do (_, _, err) <- PatchObject GetK8sRef WriteYamlBytes k secret (mkPatchOptions false false);
  match err with
  | Some err => mret (Some err)
  | None =>
      do (_, _, err) <- PatchObject GetK8sRef WriteYamlBytes k configMap
                          (mkPatchOptions false false);
      match err with
      | Some err => mret (Some err)
      | None => mret None
      end
  end.

Definition BootstrapSealedSecrets (k : K8sCluster) (namespace : string) : M (option error) :=
  do (existing, _, _) <- GetSingleObject k sealedSecretsCRD;
  match existing with
  | Some _ => mret None
  | None =>
      do (existing, _, _) <- GetSingleObject k (bootstrapConfigMap namespace);
      match existing with
      | Some _ => mret None
      | None =>
          match generated with
          | Some err => mret (Some err)
          | None => writeKey k
          end
      end
  end.
End Bootstrap.

(** ** Fan-out *)

(** Modelled from the spec: [utils.WorkerPoolWithErrors] (pkg/utils, not
    under src/).  Submitted units wait until one of [maxWorkers] workers takes
    them; a unit that returns an error records it and stops the pool, after
    which waiting units are never started while units in flight still finish;
    [StopWait] waits for the pool to drain and returns the first recorded
    error.  The shared data a unit touches under the callers' mutex is [A]; a
    unit's effect on it happens in one step, when the unit finishes. *)
Section WorkerPool.
Context {T A : Type}.
Variable maxWorkers : nat.
Variable unit_of_work : T → A → A * option error.

Record wp_state := mkWp {
  wp_waiting : list T;
  wp_running : list T;
  wp_stopped : bool;
  wp_errors : list error;
  wp_shared : A }.

Inductive wp_step : wp_state → wp_state → Prop :=
| wp_start t q r e a :
    length r < maxWorkers →
    wp_step (mkWp (t :: q) r false e a) (mkWp q (r ++ [t]) false e a)
| wp_finish q r1 t r2 st e a a' :
    unit_of_work t a = (a', None) →
    wp_step (mkWp q (r1 ++ t :: r2) st e a) (mkWp q (r1 ++ r2) st e a')
| wp_fail q r1 t r2 st e a a' err :
    unit_of_work t a = (a', Some err) →
    wp_step (mkWp q (r1 ++ t :: r2) st e a) (mkWp q (r1 ++ r2) true (e ++ [err]) a').

Definition wp_submitted (tasks : list T) (a : A) : wp_state := mkWp tasks [] false [] a.

Definition wp_drained (s : wp_state) : Prop :=
  wp_running s = [] ∧ (wp_waiting s = [] ∨ wp_stopped s = true).

Definition StopWait (s : wp_state) : option error := head (wp_errors s).

(** Submit every task, then [StopWait]: the shared data and the error. *)
Definition wp_returns (tasks : list T) (a : A) (res : A * option error) : Prop :=
  ∃ s, rtc wp_step (wp_submitted tasks a) s ∧ wp_drained s ∧
       res = (wp_shared s, StopWait s).

(** The shared data and the recorded errors after the units of [done]
    have finished in that order. *)
Fixpoint wp_replay (done : list T) (a : A) : A * list error :=
  match done with
  | [] => (a, [])
  | t :: done' =>
      let (a', e) := unit_of_work t a in
      let (a'', es) := wp_replay done' a' in
      (a'', option_list e ++ es)
  end.

(** The schedule in which every unit finishes before the next one starts. *)
Fixpoint wp_in_order (tasks : list T) (a : A) : A * option error :=
  match tasks with
  | [] => (a, None)
  | t :: q =>
      match unit_of_work t a with
      | (a', None) => wp_in_order q a'
      | (a', Some err) => (a', Some err)
      end
  end.
End WorkerPool.

Definition record_warnings `{Countable K} (key : K) (apiWarnings : list ApiWarning)
    (m : gmap K (list ApiWarning)) : gmap K (list ApiWarning) :=
  if bool_decide (length apiWarnings ≠ 0) then <[key := apiWarnings]> m else m.

(** The closure [ListAllObjects] submits for one kind, whose list call runs
    in the world [t.2]. *)
Definition listUnit (k : K8sCluster) (namespace : string) (labels : list (string * string))
    (onlyMetadata : bool) (t : GroupVersionKind * World)
    (shared : list value * gmap GroupVersionKind (list ApiWarning))
  : (list value * gmap GroupVersionKind (list ApiWarning)) * option error :=
  let gvk := t.1 in
  let '(l, apiWarnings, err) :=
    (if onlyMetadata then ListObjectsMetadata k gvk namespace labels t.2
     else ListObjects k gvk namespace labels t.2).1 in
  let '(ret, retApiWarnings) := shared in
  let merged := (((ret ++ l)%list, record_warnings gvk apiWarnings retApiWarnings), None) in
  match err with
  | Some err => if negb (IsNotFound err) then (shared, Some err) else merged
  | None => merged
  end.

Definition verb_filter (verbs : list string) (ar : APIResource) : bool :=
  existsb (fun v => negb (bool_decide (FindStrInSlice (ar_verbs ar) v = (-1)%Z))) verbs.

(** The units [ListAllObjects] submits, from the world [w] of its caller;
    the unit of a kind runs in the world [env gvk]. *)
Definition ListAllObjects_units (k : K8sCluster) (verbs : list string) (w : World)
    (env : GroupVersionKind → World) : list (GroupVersionKind * World) :=
  (fun gvk => (gvk, env gvk)) <$> GetFilteredPreferredGVKs (resolver k w) (verb_filter verbs).

Definition fanout_return {X K : Type} `{Countable K}
    (r : (list X * gmap K (list ApiWarning)) * option error)
  : list X * gmap K (list ApiWarning) * option error :=
  match r.2 with
  | Some err => ([], r.1.2, Some err)
  | None => (r.1.1, r.1.2, None)
  end.

(** [ListAllObjects] returns [res] under some schedule of its units. *)
Definition ListAllObjects (k : K8sCluster) (verbs : list string) (namespace : string)
    (labels : list (string * string)) (onlyMetadata : bool)
    (w : World) (env : GroupVersionKind → World)
    (res : list value * gmap GroupVersionKind (list ApiWarning) * option error) : Prop :=
  ∃ r, wp_returns 8 (listUnit k namespace labels onlyMetadata)
         (ListAllObjects_units k verbs w env) ([], ∅) r ∧ res = fanout_return r.

Definition ListAllObjects_in_order (k : K8sCluster) (verbs : list string)
    (namespace : string) (labels : list (string * string)) (onlyMetadata : bool)
    (w : World) (env : GroupVersionKind → World)
  : list value * gmap GroupVersionKind (list ApiWarning) * option error :=
  fanout_return (wp_in_order (listUnit k namespace labels onlyMetadata)
                   (ListAllObjects_units k verbs w env) ([], ∅)).

(** The closure [GetObjectsByRefs] submits for one ref, whose lookup runs in
    the world [t.2]. *)
Definition getUnit (k : K8sCluster) (t : ObjectRef * World)
    (shared : list (option value) * gmap ObjectRef (list ApiWarning))
  : (list (option value) * gmap ObjectRef (list ApiWarning)) * option error :=
  let ref := t.1 in
  let '(o, apiWarnings, err) := (GetSingleObject k ref t.2).1 in
  let '(ret, retApiWarnings) := shared in
  let retApiWarnings := record_warnings ref apiWarnings retApiWarnings in
  match err with
  | Some err =>
      if IsNotFound err || IsNoMatchError err then ((ret, retApiWarnings), None)
      else ((ret, retApiWarnings), Some err)
  | None => (((ret ++ [o])%list, retApiWarnings), None)
  end.

(** [GetObjectsByRefs] returns [res] under some schedule of its units; each
    ref comes with the world its lookup runs in. *)
Definition GetObjectsByRefs (k : K8sCluster) (refs : list (ObjectRef * World))
    (res : list (option value) * gmap ObjectRef (list ApiWarning) * option error) : Prop :=
  ∃ r, wp_returns 32 (getUnit k) refs ([], ∅) r ∧ res = fanout_return r.

Definition GetObjectsByRefs_in_order (k : K8sCluster) (refs : list (ObjectRef * World))
  : list (option value) * gmap ObjectRef (list ApiWarning) * option error :=
  fanout_return (wp_in_order (getUnit k) refs ([], ∅)).

(** ** Paths into the attribute tree *)

(** The text of a path, by the pieces the source concatenates: a name
    written with its leading dot ([".ports"]), a name written without one
    (["spec"], ["resources"]) and an index (["[%d]"]). *)
Inductive segment := Bare (s : string) | Dotted (s : string) | Bracket (i : nat).

Inductive step := Key (s : string) | Nth (i : nat).

#[global] Instance step_eq_dec : EqDecision step.
Proof. solve_decision. Defined.

(** Modelled from the spec: the path library ([uo.MyJsonPath], pkg/utils/uo,
    not under src/).  How it reads a name that follows another piece without
    a dot, as in ["containers[0]resources"], is left open: as the child of
    that name, or as a syntax error. *)
Inductive undotted := UndottedIsChild | UndottedIsError.

Fixpoint parse_segments (rule : undotted) (p : list segment) : option (list step) :=
  match p with
  | [] => Some []
  | Dotted s :: p' => cons (Key s) <$> parse_segments rule p'
  | Bracket i :: p' => cons (Nth i) <$> parse_segments rule p'
  | Bare s :: p' =>
      match rule with
      | UndottedIsChild => cons (Key s) <$> parse_segments rule p'
      | UndottedIsError => None
      end
  end.

(** [uo.NewMyJsonPathMust]: [None] is the abort on a path that does not parse. *)
Definition NewMyJsonPathMust (rule : undotted) (p : list segment) : option (list step) :=
  match p with
  | Bare s :: p' => cons (Key s) <$> parse_segments rule p'
  | _ => parse_segments rule p
  end.

Fixpoint get_path (p : list step) (v : value) : option value :=
  match p with
  | [] => Some v
  | Key s :: p' =>
      match v with
      | VMap m => match map_get s m with Some c => get_path p' c | None => None end
      | _ => None
      end
  | Nth i :: p' =>
      match v with
      | VList l => match l !! i with Some c => get_path p' c | None => None end
      | _ => None
      end
  end.

(** Writing through a map or list obtained from the tree changes the tree at
    the place it was found. *)
Fixpoint set_path (p : list step) (new : value) (v : value) : value :=
  match p with
  | [] => new
  | Key s :: p' =>
      match v with
      | VMap m =>
          match map_get s m with
          | Some c => VMap (map_set s (set_path p' new c) m)
          | None => v
          end
      | _ => v
      end
  | Nth i :: p' =>
      match v with
      | VList l =>
          match l !! i with
          | Some c => VList (<[i := set_path p' new c]> l)
          | None => v
          end
      | _ => v
      end
  end.

Definition as_map (v : value) : option attrs :=
  match v with VMap m => Some m | _ => None end.

(** Modelled from the spec: [GetFirstMap] and [GetFirstListOfMaps] of
    pkg/utils/uo (not under src/): the map, or the list all of whose elements
    are maps, found at the path. *)
Definition GetFirstMap (p : list step) (o : value) : option attrs :=
  get_path p o ≫= as_map.

Definition GetFirstListOfMaps (p : list step) (o : value) : option (list attrs) :=
  match get_path p o with
  | Some (VList l) => mapM as_map l
  | _ => None
  end.

(** A loop [for i := range l] whose body rewrites the object; [None] when an
    iteration aborts. *)
Fixpoint for_range (idx : list nat) (body : nat → value → option value) (o : value)
  : option value :=
  match idx with
  | [] => Some o
  | i :: idx' => body i o ≫= for_range idx' body
  end.

(** ** Pre-patch fixups *)

Section Fixups.
Variable rule : undotted.
(** [fmt.Sprintf("%v", v)]. *)
Variable Sprintf_v : value → string.
Variable needsDefaultsFix needsTypeConversionFix : bool.

Definition fixPort (port : attrs) : attrs :=
  match map_get "protocol" port with
  | Some _ => port
  | None => map_set "protocol" (VStr "TCP") port
  end.

Definition fixPorts (p : list segment) (o : value) : option value :=
  if negb needsDefaultsFix then Some o else
  path ← NewMyJsonPathMust rule p;
  match GetFirstListOfMaps path o with
  | None => Some o
  | Some ports => Some (set_path path (VList (VMap <$> (fixPort <$> ports))) o)
  end.

Definition fixStringType (p : list segment) (k : string) (o : value) : option value :=
  if negb needsTypeConversionFix then Some o else
  path ← NewMyJsonPathMust rule p;
  match GetFirstMap path o with
  | None => Some o
  | Some d =>
      match map_get k d with
      | None => Some o
      | Some (VStr _) => Some o
      | Some v => Some (set_path path (VMap (map_set k (VStr (Sprintf_v v)) d)) o)
      end
  end.

Definition fixContainer (p : list segment) (o : value) : option value :=
  o ← fixPorts (p ++ [Dotted "ports"]) o;
  o ← fixStringType (p ++ [Bare "resources"; Dotted "limits"]) "cpu" o;
  fixStringType (p ++ [Bare "resources"; Dotted "requests"]) "cpu" o.

Definition fixContainers (p : list segment) (o : value) : option value :=
  path ← NewMyJsonPathMust rule p;
  match GetFirstListOfMaps path o with
  | None => Some o
  | Some containers =>
      for_range (seq 0 (length containers)) (fun i => fixContainer (p ++ [Bracket i])) o
  end.

Definition fixLimits (p : list segment) (o : value) : option value :=
  path ← NewMyJsonPathMust rule p;
  match GetFirstListOfMaps path o with
  | None => Some o
  | Some limits =>
      for_range (seq 0 (length limits))
        (fun i o =>
           o ← fixStringType (p ++ [Bracket i; Dotted "default"]) "cpu" o;
           fixStringType (p ++ [Bracket i; Dotted "defaultRequest"]) "cpu" o) o
  end.

Definition applyFixups (o : value) : option value :=
  o ← fixContainers [Bare "spec"; Dotted "template"; Dotted "spec"; Dotted "containers"] o;
  o ← fixPorts [Bare "spec"; Dotted "ports"] o;
  fixLimits [Bare "spec"; Dotted "limits"] o.
End Fixups.

(** [o.Clone()] is a deep copy: the caller's object is a value here and is
    never written. *)
Definition Clone (o : value) : value := o.

Definition FixObjectForPatch (rule : undotted) (Sprintf_v : value → string)
    (k : K8sCluster) (o : value) : option value :=
  let needsDefaultsFix := LessThan (ServerVersion k) v1_21 || true in
  let needsTypeConversionFix := LessThan (ServerVersion k) v1_1000 in
  if negb needsDefaultsFix && negb needsTypeConversionFix then Some o else
  applyFixups rule Sprintf_v needsDefaultsFix needsTypeConversionFix (Clone o).

(** ** What a call sends *)

(** The events a computation adds to the trace. *)
Definition sent_by {A} (m : M A) (w : World) : list Event :=
  drop (length (trace w)) (trace (m w).2).

(** The dry-run directive of a write request. *)
Definition dry_run_directive (e : Event) : option (list string) :=
  match e with
  | Sent (DeleteReq _ _ o) => Some (del_DryRun o)
  | Sent (PatchReq _ _ _ _ po) => Some (po_DryRun po)
  | Sent (UpdateReq _ _ o) => Some (up_DryRun o)
  | _ => None
  end.

Definition write_directives (l : list Event) : list (list string) :=
  omap dry_run_directive l.

(** The handle can reach the server for [ref]: a client is free and the kind
    resolves. *)
Definition reaches_server (k : K8sCluster) (ref : ObjectRef) (w : World) : Prop :=
  checkout_at w (clock w) = ClientReady ∧
  ∃ gvr namespaced, GetGVRForGVK (resolver k (advance [] w)) (GVK ref) = inl (gvr, namespaced).

(** From [w] on, every poll finds the object and every wait ends by the
    timer, until a wait ends by the context. *)
Inductive cancelled_while_waiting (k : K8sCluster) (ref : ObjectRef)
  : World → ctx_err → World → Prop :=
| cancelled_now w c o ws w' :
    GetSingleObject k ref w = ((o, ws, None), w') →
    wait_at w' (clock w') = WaitCtxDone c →
    cancelled_while_waiting k ref w c (advance [After pollInterval] w')
| cancelled_later w c o ws w' w'' :
    GetSingleObject k ref w = ((o, ws, None), w') →
    wait_at w' (clock w') = TimerFired →
    cancelled_while_waiting k ref (advance [After pollInterval] w') c w'' →
    cancelled_while_waiting k ref w c w''.

(** From [w] on, [n] polls find the object, each followed by a full wait,
    and the next poll reports it gone. *)
Inductive gone_after (k : K8sCluster) (ref : ObjectRef) : nat → World → World → Prop :=
| gone_now w o ws err w' :
    GetSingleObject k ref w = ((o, ws, Some err), w') →
    IsNotFound err = true →
    gone_after k ref 0 w w'
| gone_later n w o ws w' w'' :
    GetSingleObject k ref w = ((o, ws, None), w') →
    wait_at w' (clock w') = TimerFired →
    gone_after k ref n (advance [After pollInterval] w') w'' →
    gone_after k ref (S n) w w''.

(** From [w] on, [n] polls find the object, each followed by a full wait;
    the next poll starts in the last world. *)
Inductive found_for (k : K8sCluster) (ref : ObjectRef) : nat → World → World → Prop :=
| found_none w : found_for k ref 0 w w
| found_more n w o ws w' w'' :
    GetSingleObject k ref w = ((o, ws, None), w') →
    wait_at w' (clock w') = TimerFired →
    found_for k ref n (advance [After pollInterval] w') w'' →
    found_for k ref (S n) w w''.

(** The error of a call that sees the context done while it waits for a
    client. *)
Definition checkout_timeout (c : ctx_err) : error :=
  Errorf "failed waiting for free client: %w" "" (ctx_Err c).

(** ** Reading the traces *)

(** The events of a poll loop: a get request, or the fixed timer. *)
Definition poll_event (e : Event) : Prop :=
  match e with
  | Sent (GetReq _ _) => True
  | After ms => ms = pollInterval
  | _ => False
  end.

(** The resource interface [withDynamicClientForGVK] hands to its callback. *)
Definition target_for (namespaced : bool) (gvr : GroupVersionResource) (namespace : string)
  : Target :=
  if namespaced && negb (bool_decide (namespace = ""))
  then mkTarget gvr (Some namespace) else mkTarget gvr None.

(** The [DryRun] field of the options of a write request. *)
Definition directive (dryRun : bool) : list string := if dryRun then ["All"] else [].

(** The write requests a call makes: none when it fails before reaching the
    server, else one, carrying the directive of the mode in effect. *)
Definition one_write (k : K8sCluster) (ref : ObjectRef) (w : World) (dryRun : bool)
  : list (list string) :=
  match checkout_at w (clock w) with
  | ClientCtxDone _ => []
  | ClientReady =>
      match GetGVRForGVK (resolver k (advance [] w)) (GVK ref) with
      | inr _ => []
      | inl _ => [directive dryRun]
      end
  end.

(** The error of a wait the context ended. *)
Definition deletion_timeout (ref : ObjectRef) (c : ctx_err) : error :=
  Errorf "failed waiting for deletion of %s: %w" (ObjectRef_String ref) (ctx_Err c).

(** Every timer armed is the 500 ms one. *)
Definition timer_is_fixed (e : Event) : Prop :=
  match e with After ms => ms = 500%Z | _ => True end.

(** A computation only adds to the trace. *)
Definition grows {A} (m : M A) (w : World) : Prop :=
  trace (m w).2 = trace w ++ sent_by m w.

(** The resource interface is the one [withDynamicClientForGVK] makes for
    [ref] from what the handle's resolver holds at some moment of [w]. *)
Definition resolved_for (k : K8sCluster) (ref : ObjectRef) (w : World) (t : Target) : Prop :=
  ∃ n gvr namespaced,
    GetGVRForGVK (resources_at w n (Resources k)) (GVK ref) = inl (gvr, namespaced) ∧
    t = target_for namespaced gvr (Namespace ref).

(** The events of the polls for [ref]: a get of the ref's name on the ref's
    resource, or the fixed timer. *)
Definition poll_of (k : K8sCluster) (ref : ObjectRef) (w : World) (e : Event) : Prop :=
  match e with
  | Sent (GetReq t name) => resolved_for k ref w t ∧ name = Name ref
  | After ms => ms = pollInterval
  | _ => False
  end.

(** The events of [DeleteSingleObject]: a foreground delete of the ref's
    name on the ref's resource, and the events of the polls for the ref. *)
Definition delete_or_get (k : K8sCluster) (ref : ObjectRef) (w : World) (e : Event) : Prop :=
  match e with
  | Sent (DeleteReq t name o) =>
      resolved_for k ref w t ∧ name = Name ref ∧
      del_PropagationPolicy o = Some "Foreground"
  | _ => poll_of k ref w e
  end.

(** The number of timers in a trace. *)
Definition timers (l : list Event) : nat :=
  length (List.filter (fun e => match e with After _ => true | _ => false end) l).

(** The labels joined by commas. *)
Fixpoint join_labels (labels : list (string * string)) : string :=
  match labels with
  | [] => ""
  | [(k, v)] => k +:+ "=" +:+ v
  | (k, v) :: rest => k +:+ "=" +:+ v +:+ "," +:+ join_labels rest
  end.

(** ** What a unit of a fan-out contributes *)

(** The lookup of one ref of [GetObjectsByRefs]: what [GetSingleObject]
    returns, the error that fails the call, the object that is kept. *)
Definition lookup_result (k : K8sCluster) (t : ObjectRef * World)
  : option value * list ApiWarning * option error :=
  (GetSingleObject k t.1 t.2).1.

Definition lookup_failure (k : K8sCluster) (t : ObjectRef * World) : option error :=
  match (lookup_result k t).2 with
  | Some e => if IsNotFound e || IsNoMatchError e then None else Some e
  | None => None
  end.

Definition lookup_object (k : K8sCluster) (t : ObjectRef * World) : option (option value) :=
  match (lookup_result k t).2 with
  | Some _ => None
  | None => Some (lookup_result k t).1.1
  end.

Definition lookup_warnings (k : K8sCluster) (t : ObjectRef * World) : list ApiWarning :=
  (lookup_result k t).1.2.

(** The list call of one kind of [ListAllObjects]. *)
Definition list_result (k : K8sCluster) (namespace : string)
    (labels : list (string * string)) (onlyMetadata : bool) (t : GroupVersionKind * World)
  : list value * list ApiWarning * option error :=
  (if onlyMetadata then ListObjectsMetadata k t.1 namespace labels t.2
   else ListObjects k t.1 namespace labels t.2).1.

Definition list_failure (r : list value * list ApiWarning * option error) : option error :=
  match r.2 with
  | Some e => if IsNotFound e then None else Some e
  | None => None
  end.

Definition list_items (k : K8sCluster) (namespace : string)
    (labels : list (string * string)) (onlyMetadata : bool) (t : GroupVersionKind * World)
  : list value :=
  let r := list_result k namespace labels onlyMetadata t in
  match list_failure r with Some _ => [] | None => r.1.1 end.

Definition list_kept_warnings (k : K8sCluster) (namespace : string)
    (labels : list (string * string)) (onlyMetadata : bool) (t : GroupVersionKind * World)
  : list ApiWarning :=
  let r := list_result k namespace labels onlyMetadata t in
  match list_failure r with Some _ => [] | None => r.1.2 end.

(** The warnings map after the units of [done] recorded theirs, in order. *)
Definition record_all {K T} `{Countable K} (key : T → K) (warn : T → list ApiWarning)
    (done : list T) (m : gmap K (list ApiWarning)) : gmap K (list ApiWarning) :=
  foldl (fun m t => record_warnings (key t) (warn t) m) m done.

(** ** Reading the fixups *)

(** Two paths part ways: after a common prefix they take different steps. *)
Inductive diverge : list step → list step → Prop :=
| diverge_here a b p q : a ≠ b → diverge (a :: p) (b :: q)
| diverge_next a p q : diverge p q → diverge (a :: p) (a :: q).

(** What [fixPorts] and [fixStringType] do to the object once their path is
    parsed. *)
Definition fixPorts_at (needsDefaultsFix : bool) (path : list step) (o : value) : value :=
  if negb needsDefaultsFix then o else
  match GetFirstListOfMaps path o with
  | None => o
  | Some ports => set_path path (VList (VMap <$> (fixPort <$> ports))) o
  end.

Definition fixString (Sprintf_v : value → string) (k : string) (d : attrs) : attrs :=
  match map_get k d with
  | None | Some (VStr _) => d
  | Some v => map_set k (VStr (Sprintf_v v)) d
  end.

Definition fixStringType_at (Sprintf_v : value → string) (needsTypeConversionFix : bool)
    (path : list step) (k : string) (o : value) : value :=
  if negb needsTypeConversionFix then o else
  match GetFirstMap path o with
  | None => o
  | Some d => set_path path (VMap (fixString Sprintf_v k d)) o
  end.

Definition containers_path : list step :=
  [Key "spec"; Key "template"; Key "spec"; Key "containers"].
Definition container_ports (i : nat) : list step := containers_path ++ [Nth i; Key "ports"].
Definition container_limits (i : nat) : list step :=
  containers_path ++ [Nth i; Key "resources"; Key "limits"].
Definition container_requests (i : nat) : list step :=
  containers_path ++ [Nth i; Key "resources"; Key "requests"].
Definition service_ports : list step := [Key "spec"; Key "ports"].
Definition limits_path : list step := [Key "spec"; Key "limits"].
Definition limit_default (i : nat) : list step := limits_path ++ [Nth i; Key "default"].
Definition limit_defaultRequest (i : nat) : list step :=
  limits_path ++ [Nth i; Key "defaultRequest"].

(** Every port of [ports'] is the port of [ports] at its place with
    [protocol] set to ["TCP"] where it had none, and nothing else changed. *)
Definition protocol_defaulted (ports ports' : list attrs) : Prop :=
  length ports' = length ports ∧
  ∀ j port, ports !! j = Some port →
    ∃ port', ports' !! j = Some port' ∧
      map_get "protocol" port' =
        Some (match map_get "protocol" port with Some v => v | None => VStr "TCP" end) ∧
      ∀ key, key ≠ "protocol" → map_get key port' = map_get key port.

(** [d'] is [d] with a [cpu] that is not a string replaced by its string
    form, and nothing else changed. *)
Definition cpu_coerced (Sprintf_v : value → string) (d d' : attrs) : Prop :=
  (∀ v, map_get "cpu" d = Some v →
        map_get "cpu" d' = Some (match v with VStr _ => v | _ => VStr (Sprintf_v v) end)) ∧
  (map_get "cpu" d = None → d' = d) ∧
  ∀ key, key ≠ "cpu" → map_get key d' = map_get key d.

(** The fixups as functions of the object alone. *)
Section FixupsAt.
Variable Sprintf_v : value → string.
Variable needsDefaultsFix needsTypeConversionFix : bool.

Definition fixContainer_at (i : nat) (o : value) : value :=
  fixStringType_at Sprintf_v needsTypeConversionFix (container_requests i) "cpu"
    (fixStringType_at Sprintf_v needsTypeConversionFix (container_limits i) "cpu"
       (fixPorts_at needsDefaultsFix (container_ports i) o)).

Definition fixContainers_at (o : value) : value :=
  match GetFirstListOfMaps containers_path o with
  | None => o
  | Some containers => foldl (fun o i => fixContainer_at i o) o (seq 0 (length containers))
  end.

Definition fixLimit_at (i : nat) (o : value) : value :=
  fixStringType_at Sprintf_v needsTypeConversionFix (limit_defaultRequest i) "cpu"
    (fixStringType_at Sprintf_v needsTypeConversionFix (limit_default i) "cpu" o).

Definition fixLimits_at (o : value) : value :=
  match GetFirstListOfMaps limits_path o with
  | None => o
  | Some limits => foldl (fun o i => fixLimit_at i o) o (seq 0 (length limits))
  end.

Definition applyFixups_at (o : value) : value :=
  fixLimits_at (fixPorts_at needsDefaultsFix service_ports (fixContainers_at o)).
End FixupsAt.

(** ** The client pool, seen by all its callers *)

(** The parts of a pool entry, in the order [initClientPool] builds them;
    [build i part] is the error of building that part of entry [i], if any
    ([rest.HTTPClientFor] and the three [NewForConfigAndClient]). *)
Inductive client_part := HttpClient | CoreV1Client | DynamicClient | MetadataClient.

Definition new_entry (build : nat → client_part → option error) (i : nat) : option error :=
  match build i HttpClient with
  | Some err => Some err
  | None =>
      match build i CoreV1Client with
      | Some err => Some err
      | None =>
          match build i DynamicClient with
          | Some err => Some err
          | None => build i MetadataClient
          end
      end
  end.

(** The first loop of [initClientPool]: [n] receives from the old channel,
    which delivers the entries of [chan] and then blocks; the idle
    connections of each entry received are closed. *)
Fixpoint drain_pool (n : nat) (chan closed : list nat) : option (list nat) :=
  match n with
  | O => Some closed
  | S n' =>
      match chan with
      | [] => None
      | p :: chan' => drain_pool n' chan' (closed ++ [p])
      end
  end.

(** The second loop: the entries are built one after the other and sent
    into the new channel; the loop returns at the first part that cannot be
    built, and the channel keeps what was sent before. *)
Fixpoint fill_pool (build : nat → client_part → option error) (ids : list nat)
    (chan : list nat) : list nat * option error :=
  match ids with
  | [] => (chan, None)
  | i :: ids' =>
      match new_entry build i with
      | Some err => (chan, Some err)
      | None => fill_pool build ids' (chan ++ [i])
      end
  end.

(** What [initClientPool] leaves: the entries whose idle connections it
    closed, the channel [k.clientPool] points at afterwards, and its error. *)
Record pool_init := mkPoolInit {
  closed_entries : list nat;
  new_pool : list nat;
  init_err : option error }.

(** [old] is what [k.clientPool] delivers when the call starts, [None] for
    the nil channel of a new handle.  The result is [None] when the call
    blocks in its first loop.  The handle points at the new channel from
    before the second loop on, whatever that loop returns. *)
Definition initClientPool (build : nat → client_part → option error)
    (old : option (list nat)) : option pool_init :=
  closed ← match old with
           | Some chan => drain_pool parallelClients chan []
           | None => Some []
           end;
  let '(pool, err) := fill_pool build (seq 0 parallelClients) [] in
  Some (mkPoolInit closed pool err).

(** The place of a part in the building order. *)
Definition part_index (q : client_part) : nat :=
  match q with HttpClient => 0 | CoreV1Client => 1 | DynamicClient => 2 | MetadataClient => 3 end.

Module ClientPool.

(** A call of [withClientFromPool]: blocked in the select, running its
    callback with the entry it received, returned after sending the entry
    back, or returned with "failed waiting for free client". *)
Inductive caller := Waiting | Holding (p : nat) | Served | GaveUp.

(** The channel's buffer, whether the handle's context is done, and the
    calls made so far. *)
Record state := mkState { chan : list nat; ctx_done : bool; callers : list caller }.

Definition held (c : caller) : option nat :=
  match c with Holding p => Some p | _ => None end.

Definition holding (s : state) : list nat := omap held (callers s).

(** Taking an entry needs one in the channel; sending it back needs room. *)
Inductive serve : state → state → Prop :=
| serve_checkout i p ch dn cs :
    cs !! i = Some Waiting →
    serve (mkState (p :: ch) dn cs) (mkState ch dn (<[i := Holding p]> cs))
| serve_return i p ch dn cs :
    cs !! i = Some (Holding p) → length ch < parallelClients →
    serve (mkState ch dn cs) (mkState (ch ++ [p]) dn (<[i := Served]> cs)).

(** The context ends; a blocked call that sees it returns the error. *)
Inductive cancel : state → state → Prop :=
| cancel_ctx ch cs :
    cancel (mkState ch false cs) (mkState ch true cs)
| cancel_give_up i ch cs :
    cs !! i = Some Waiting →
    cancel (mkState ch true cs) (mkState ch true (<[i := GaveUp]> cs)).

Definition step (s s' : state) : Prop := serve s s' ∨ cancel s s'.

(** The handle after [initClientPool], with [n] calls just made. *)
Definition start (n : nat) : state :=
  mkState (seq 0 parallelClients) false (replicate n Waiting).

Definition reachable (n : nat) (s : state) : Prop := rtc step (start n) s.

(** The steps left to a call, and to all of them. *)
Definition steps_left (c : caller) : nat :=
  match c with Waiting => 2 | Holding _ => 1 | _ => 0 end.

Definition measure (s : state) : nat :=
  sum_list_with steps_left (callers s) + (if ctx_done s then 0 else 1).

End ClientPool.

(** ** A small cluster to run the calls on *)

Definition ex_gvk : GroupVersionKind := mkGVK "apps" "v1" "Deployment".
Definition ex_ref (name : string) : ObjectRef := mkRef ex_gvk "default" name.

Definition ex_resources : k8sResources :=
  mkResources
    [mkAPIResource ex_gvk "deployments" true true ["get"; "list"; "patch"; "update"; "delete"]].

Definition ex_cluster (dryRun : bool) : K8sCluster := mkCluster dryRun 0 [1; 25; 0]%Z 0.

(** A world in which a client is always free, every wait ends by the timer,
    the resolver holds [res] and the server answers with [reply]. *)
Definition ex_world (res : k8sResources) (reply : nat → Request → Reply) : World :=
  mkWorld 0 [] (fun _ => ClientReady) reply (fun _ => TimerFired) (fun _ _ => res).

Definition ex_warning : ApiWarning := mkApiWarning 299 "-" "apps/v1beta1 is deprecated".

Definition ex_object (name : string) : value :=
  VMap [("apiVersion", VStr "apps/v1"); ("kind", VStr "Deployment");
        ("metadata", VMap [("name", VStr name)])].

Definition reply_found (name : string) : Reply := mkReply [] None (ex_object name) [].
Definition reply_not_found_warned : Reply :=
  mkReply [ex_warning] (Some (StatusNotFound "deployments not found")) VNull [].
Definition reply_refused : Reply :=
  mkReply [ex_warning] (Some (OtherError "connection refused")) VNull [].

Definition world_found (name : string) : World :=
  ex_world ex_resources (fun _ _ => reply_found name).
Definition world_not_found : World := ex_world ex_resources (fun _ _ => reply_not_found_warned).
Definition world_refused : World := ex_world ex_resources (fun _ _ => reply_refused).

(** The object is there for two polls after the delete request and gone at
    the third: the polls are the requests at the moments 3, 6 and 9. *)
Definition reply_gone_at_third_poll (n : nat) (r : Request) : Reply :=
  match r with
  | GetReq _ _ => if bool_decide (n < 9) then reply_found "web" else reply_not_found_warned
  | _ => mkReply [ex_warning] None VNull []
  end.

Definition world_deleting : World := ex_world ex_resources reply_gone_at_third_poll.

(** The object is there for two polls after the delete request; the third
    poll is refused. *)
Definition reply_refused_at_third_poll (n : nat) (r : Request) : Reply :=
  match r with
  | GetReq _ _ => if bool_decide (n < 9) then reply_found "web" else reply_refused
  | _ => mkReply [ex_warning] None VNull []
  end.

Definition world_poll_refused : World := ex_world ex_resources reply_refused_at_third_poll.

Definition wait_options : DeleteOptions := mkDeleteOptions false false false.

(** The object never disappears and the context is cancelled while the call
    waits between its first and its second poll; the second poll sees it
    when it asks for a client (the moment 5). *)
Definition world_cancelled_at_poll : World :=
  mkWorld 0 [] (fun n => if bool_decide (n < 5) then ClientReady else ClientCtxDone Canceled)
          (fun _ _ => reply_found "web") (fun _ => TimerFired) (fun _ _ => ex_resources).

(** The kind is discovered when [ListAllObjects] picks its kinds and has been
    removed from the resolver when the unit of the kind runs. *)
Definition world_listing : World := ex_world ex_resources (fun _ _ => reply_found "web").
Definition world_kind_removed : World :=
  ex_world (mkResources []) (fun _ _ => reply_found "web").
Definition world_list_not_found : World :=
  ex_world ex_resources (fun _ _ => reply_not_found_warned).






(** [%v] on the scalars of the examples. *)
Definition ex_Sprintf_v (v : value) : string :=
  match v with
  | VInt n => pretty n
  | VBool true => "true"
  | VBool false => "false"
  | VStr s => s
  | _ => "<nil>"
  end.

Definition ex_deployment : value :=
  VMap [("spec", VMap [("template", VMap [("spec", VMap [("containers", VList [
     VMap [("name", VStr "web");
           ("ports", VList [VMap [("containerPort", VInt 80)];
                            VMap [("containerPort", VInt 53); ("protocol", VStr "UDP")]]);
           ("resources", VMap [("limits", VMap [("cpu", VInt 1)]);
                               ("requests", VMap [("cpu", VStr "500m")])])]])])])])].

Definition ex_limit_range : value :=
  VMap [("spec", VMap [("limits", VList [
     VMap [("default", VMap [("cpu", VInt 2)]);
           ("defaultRequest", VMap [("memory", VStr "1Gi")])]])])].

(** * Properties *)

Lemma map_get_set_eq k v m : map_get k (map_set k v m) = Some v.
Proof.
  induction m as [|[k' v'] m IH]; simpl.
  - by rewrite decide_True.
  - destruct (decide (k' = k)); simpl.
    + by rewrite decide_True.
    + by rewrite decide_False.
Qed.

Lemma map_get_set_ne k k' v m : k ≠ k' → map_get k' (map_set k v m) = map_get k' m.
Proof.
  intros Hne. induction m as [|[k0 v0] m IH]; simpl.
  - by rewrite decide_False.
  - destruct (decide (k0 = k)) as [->|]; simpl.
    + by rewrite !decide_False.
    + destruct (decide (k0 = k')); done.
Qed.


(** ** The calls of one goroutine *)

Lemma collect_warnings p l :
  warnings (foldl (fun p a => HandleWarningHeader p (Code a) (Agent a) (Text a)) p l)
  = warnings p ++ l.
Proof.
  revert p. induction l as [|[c a t] l IH]; intros p; simpl.
  - by rewrite app_nil_r.
  - rewrite IH. simpl. by rewrite <- app_assoc.
Qed.

Lemma sent_by_app {A} (m : M A) w l :
  trace (m w).2 = trace w ++ l → sent_by m w = l.
Proof. unfold sent_by. intros ->. by rewrite drop_app_length. Qed.

(** Unfold a call down to the selects and the request it makes. *)
Ltac run_call :=
  unfold withDynamicClientForGVK, withClientFromPool, mbind, roundTrip, mret, target_for;
  simpl;
  repeat match goal with
  | |- context [checkout_at ?w ?n] => destruct (checkout_at w n) eqn:?; simpl
  | |- context [GetGVRForGVK ?r ?g] => destruct (GetGVRForGVK r g) as [[? ?]|?] eqn:?; simpl
  | |- context [if ?b && negb (bool_decide (?n = ""%string)) then _ else _] =>
      destruct (b && negb (bool_decide (n = ""%string))) eqn:?; simpl
  end;
  repeat match goal with
  | |- context [reply_err ?x] => destruct (reply_err x) eqn:?; simpl
  end;
  rewrite ?collect_warnings; simpl.

Lemma GetSingleObject_run k ref w :
  GetSingleObject k ref w =
  match checkout_at w (clock w) with
  | ClientCtxDone c =>
      ((None, [], Some (Errorf "failed waiting for free client: %w" "" (ctx_Err c))),
       advance [] w)
  | ClientReady =>
      match GetGVRForGVK (resolver k (advance [] w)) (GVK ref) with
      | inr err => ((None, [], Some err), advance [] w)
      | inl (gvr, namespaced) =>
          let t := target_for namespaced gvr (Namespace ref) in
          let x := reply_at w (S (clock w)) (GetReq t (Name ref)) in
          ((match reply_err x with Some _ => None | None => Some (reply_object x) end,
            reply_warnings x, reply_err x),
           advance [Sent (GetReq t (Name ref))] (advance [] w))
      end
  end.
Proof.
  unfold GetSingleObject. by run_call.
Qed.

(** ** Dry-run *)

Lemma poll_events_write_nothing l : Forall poll_event l → write_directives l = [].
Proof.
  unfold write_directives.
  induction 1 as [|e l He _ IH]; [done|].
  by destruct e as [[]|]; simpl in *.
Qed.

Lemma GetSingleObject_trace k ref w :
  ∃ l, trace (GetSingleObject k ref w).2 = trace w ++ l ∧ Forall poll_event l.
Proof.
  rewrite GetSingleObject_run.
  destruct (checkout_at w (clock w)).
  - destruct (GetGVRForGVK _ _) as [[gvr ns]|err]; simpl.
    + eexists [_]. rewrite app_nil_r. split; [done|]. by repeat constructor.
    + exists []. by rewrite app_nil_r.
  - exists []. simpl. by rewrite app_nil_r.
Qed.

Lemma waitForDeletedObject_trace fuel k ref w :
  ∃ l, trace (waitForDeletedObject fuel k ref w).2 = trace w ++ l ∧ Forall poll_event l.
Proof.
  revert w. induction fuel as [|fuel IH]; intros w; simpl.
  - exists []. unfold mret. simpl. by rewrite app_nil_r.
  - unfold mbind.
    destruct (GetSingleObject_trace k ref w) as (l1 & Hl1 & Hp1).
    destruct (GetSingleObject k ref w) as [[[o ws] err] w1]. simpl in Hl1.
    destruct err as [err|].
    + exists l1. by destruct (IsNotFound err).
    + destruct (wait_at w1 (clock w1)).
      * destruct (IH (advance [After pollInterval] w1)) as (l2 & Hl2 & Hp2).
        exists (l1 ++ After pollInterval :: l2). split.
        -- rewrite Hl2. simpl. rewrite Hl1. by rewrite <- !app_assoc.
        -- apply Forall_app. split; [done|]. by constructor.
      * exists (l1 ++ [After pollInterval]). simpl. rewrite Hl1.
        split; [by rewrite <- app_assoc|].
        apply Forall_app. split; [done|]. by repeat constructor.
Qed.

Ltac trace_done :=
  rewrite ?app_nil_r, <- ?app_assoc, ?drop_app_length, ?drop_all; simpl.

Section WriteFacts.
Variable GetK8sRef : value → ObjectRef.
Variable WriteYamlBytes : value → string + error.

Lemma PatchObject_writes k o options w :
  write_directives (sent_by (PatchObject GetK8sRef WriteYamlBytes k o options) w) =
  match WriteYamlBytes o with
  | inr _ => []
  | inl _ => one_write k (GetK8sRef o) w (DryRun k || patch_ForceDryRun options)
  end.
Proof.
  unfold sent_by, PatchObject, one_write, directive.
  destruct (WriteYamlBytes o) as [data|err]; simpl.
  - by run_call; trace_done.
  - unfold mret. simpl. by rewrite drop_all.
Qed.

Lemma UpdateObject_writes k o options w :
  write_directives (sent_by (UpdateObject GetK8sRef k o options) w) =
  one_write k (GetK8sRef o) w (DryRun k || update_ForceDryRun options).
Proof.
  unfold sent_by, UpdateObject, one_write, directive.
  by run_call; trace_done.
Qed.
End WriteFacts.

Lemma sendDelete_run k ref options o w :
  sendDelete k ref options o w =
  match checkout_at w (clock w) with
  | ClientCtxDone c =>
      (([], Some (Errorf "failed waiting for free client: %w" "" (ctx_Err c)), tt),
       advance [] w)
  | ClientReady =>
      match GetGVRForGVK (resolver k (advance [] w)) (GVK ref) with
      | inr err => (([], Some err, tt), advance [] w)
      | inl (gvr, namespaced) =>
          let t := target_for namespaced gvr (Namespace ref) in
          let x := reply_at w (S (clock w)) (DeleteReq t (Name ref) o) in
          ((reply_warnings x,
            match reply_err x with
            | Some err =>
                if IgnoreNotFoundError options && IsNotFound err then None else Some err
            | None => None
            end, tt),
           advance [Sent (DeleteReq t (Name ref) o)] (advance [] w))
      end
  end.
Proof.
  unfold sendDelete. run_call; try done;
    destruct (IgnoreNotFoundError options && IsNotFound _); simpl;
    by rewrite collect_warnings.
Qed.

Lemma DeleteSingleObject_writes fuel k ref options w :
  write_directives (sent_by (DeleteSingleObject fuel k ref options) w) =
  one_write k ref w (DryRun k || del_ForceDryRun options).
Proof.
  unfold sent_by, DeleteSingleObject, one_write, mbind.
  rewrite sendDelete_run.
  destruct (checkout_at w (clock w)); [|by unfold mret; simpl; trace_done].
  destruct (GetGVRForGVK _ _) as [[gvr ns]|err]; [|by unfold mret; simpl; trace_done].
  cbv zeta.
  set (w1 := advance [Sent _] _).
  assert (Hw1 : trace w1 = trace w ++ [Sent (DeleteReq (target_for ns gvr (Namespace ref))
      (Name ref) (mkDeleteOpts (Some "Foreground")
         (if DryRun k || del_ForceDryRun options then ["All"] else [])))])
    by (subst w1; simpl; by rewrite app_nil_r).
  clearbody w1.
  assert (Hw1' : write_directives (drop (length (trace w)) (trace w1)) =
                 [directive (DryRun k || del_ForceDryRun options)])
    by (rewrite Hw1; by trace_done).
  assert (Hwait : ∀ (f : option (option error) → M (option (list ApiWarning * option error))),
            (∀ r w', f r w' = ((f r w').1, w')) →
            write_directives (drop (length (trace w))
              (trace (mbind (waitForDeletedObject fuel k ref) f w1).2)) =
            [directive (DryRun k || del_ForceDryRun options)]).
  { intros f Hf. unfold mbind.
    destruct (waitForDeletedObject_trace fuel k ref w1) as (l & Hl & Hp).
    destruct (waitForDeletedObject fuel k ref w1) as [r w2]. simpl in Hl.
    rewrite Hf. simpl. rewrite Hl, Hw1, <- app_assoc, drop_app_length.
    unfold write_directives. rewrite omap_app.
    fold (write_directives l). by rewrite (poll_events_write_nothing l Hp). }
  destruct (reply_err _) as [err|];
    [destruct (IgnoreNotFoundError options && IsNotFound err)|];
    try (unfold mret; simpl; exact Hw1');
    (destruct (negb _ && negb _); [|unfold mret; simpl; exact Hw1']);
    (apply Hwait; by intros [[?|]|] ?).
Qed.

(** C7. With dry-run in effect on the handle or forced by the call, every
    write request that [PatchObject], [UpdateObject] and [DeleteSingleObject]
    make carries the directive ["All"], and the request is made whenever the
    call reaches the server (for delete it is then the only request of the
    call); the handle [ReadWrite] returns has dry-run off, the same client
    pool and resolver, and its write requests carry no directive unless the
    call forces one. *)
Theorem dry_run_propagation (GetK8sRef : value → ObjectRef)
    (WriteYamlBytes : value → string + error)
    (k : K8sCluster) (o : value) (ref : ObjectRef) (w : World) (fuel : nat)
    (po : PatchOptions) (uo : UpdateOptions) (dopt : DeleteOptions) :
  let patch k := sent_by (PatchObject GetK8sRef WriteYamlBytes k o po) w in
  let update k := sent_by (UpdateObject GetK8sRef k o uo) w in
  let delete k := sent_by (DeleteSingleObject fuel k ref dopt) w in
  (DryRun k || patch_ForceDryRun po = true →
     Forall (eq ["All"]) (write_directives (patch k)) ∧
     ((∃ data, WriteYamlBytes o = inl data) → reaches_server k (GetK8sRef o) w →
      write_directives (patch k) = [["All"]])) ∧
  (DryRun k || update_ForceDryRun uo = true →
     Forall (eq ["All"]) (write_directives (update k)) ∧
     (reaches_server k (GetK8sRef o) w → write_directives (update k) = [["All"]])) ∧
  (DryRun k || del_ForceDryRun dopt = true →
     Forall (eq ["All"]) (write_directives (delete k)) ∧
     (reaches_server k ref w → ∃ r, delete k = [Sent r] ∧ dry_run_directive (Sent r) = Some ["All"])) ∧
  DryRun (ReadWrite k) = false ∧
  clientPool (ReadWrite k) = clientPool k ∧
  Resources (ReadWrite k) = Resources k ∧
  (patch_ForceDryRun po = false → Forall (eq []) (write_directives (patch (ReadWrite k)))) ∧
  (update_ForceDryRun uo = false → Forall (eq []) (write_directives (update (ReadWrite k)))) ∧
  (del_ForceDryRun dopt = false → Forall (eq []) (write_directives (delete (ReadWrite k)))).
Proof.
  cbv beta zeta.
  rewrite !PatchObject_writes, !UpdateObject_writes, !DeleteSingleObject_writes.
  assert (Hall : ∀ k' r d, Forall (eq (directive d)) (one_write k' r w d)).
  { intros k' r d. unfold one_write.
    destruct (checkout_at w (clock w)); [|done].
    destruct (GetGVRForGVK _ _); by repeat constructor. }
  assert (Hone : ∀ k' r d, reaches_server k' r w → one_write k' r w d = [directive d]).
  { intros k' r d [Hc (gvr & ns & Hr)]. unfold one_write. by rewrite Hc, Hr. }
  split.
  { intros Hd. rewrite Hd. split.
    - destruct (WriteYamlBytes o); [apply (Hall _ _ true)|done].
    - intros [data Hy] Hr. rewrite Hy. by rewrite Hone. }
  split.
  { intros Hd. rewrite Hd. split; [apply (Hall _ _ true)|].
    intros Hr. by rewrite Hone. }
  split.
  { intros Hd. rewrite Hd. split; [apply (Hall _ _ true)|].
    intros [Hc (gvr & ns & Hr)].
    unfold sent_by, DeleteSingleObject, mbind. rewrite sendDelete_run, Hc, Hr, Hd.
    cbv zeta. simpl negb. rewrite andb_false_l.
    eexists. split.
    - match goal with |- context [match ?e with Some _ => _ | None => _ end] =>
        destruct e end; unfold mret; simpl; by trace_done.
    - done. }
  do 3 (split; [done|]).
  split; [|split].
  - intros Hf. simpl. rewrite Hf. destruct (WriteYamlBytes o); [apply (Hall _ _ false)|done].
  - intros Hf. simpl. rewrite Hf. apply (Hall _ _ false).
  - intros Hf. simpl. rewrite Hf. apply (Hall _ _ false).
Qed.

(** ** Waiting for a deletion *)

Lemma waitForDeletedObject_success fuel k ref w w' :
  waitForDeletedObject fuel k ref w = (Some None, w') →
  ∃ n, n < fuel ∧ gone_after k ref n w w'.
Proof.
  revert w. induction fuel as [|fuel IH]; intros w; simpl; [done|].
  unfold mbind.
  destruct (GetSingleObject k ref w) as [[[o ws] err] w1] eqn:Hget.
  destruct err as [err|].
  - destruct (IsNotFound err) eqn:Hnf; unfold mret; intros [= <-].
    exists 0. split; [lia|]. by econstructor.
  - destruct (wait_at w1 (clock w1)) eqn:Hwait; [|done].
    intros Hrec. destruct (IH _ Hrec) as (n & Hn & Hgone).
    exists (S n). split; [lia|]. by econstructor.
Qed.

Lemma gone_after_returns k ref n w w' :
  gone_after k ref n w w' →
  ∀ fuel, n < fuel → waitForDeletedObject fuel k ref w = (Some None, w').
Proof.
  induction 1 as [w o ws err w' Hget Hnf|n w o ws w' w'' Hget Hwait _ IH];
    intros [|fuel] Hlt; try lia; simpl; unfold mbind; rewrite Hget.
  - by rewrite Hnf.
  - rewrite Hwait. apply IH. lia.
Qed.

Lemma cancelled_while_waiting_returns k ref w c w' :
  cancelled_while_waiting k ref w c w' →
  ∃ n, ∀ fuel, n < fuel →
    waitForDeletedObject fuel k ref w = (Some (Some (deletion_timeout ref c)), w').
Proof.
  induction 1 as [w c o ws w' Hget Hwait|w c o ws w' w'' Hget Hwait _ [n IH]].
  - exists 0. intros [|fuel] Hlt; [lia|]. simpl. unfold mbind. by rewrite Hget, Hwait.
  - exists (S n). intros [|fuel] Hlt; [lia|]. simpl. unfold mbind.
    rewrite Hget, Hwait. apply IH. lia.
Qed.

Lemma DeleteSingleObject_timers fuel k ref options w :
  Forall timer_is_fixed (sent_by (DeleteSingleObject fuel k ref options) w).
Proof.
  unfold sent_by, DeleteSingleObject, mbind. rewrite sendDelete_run.
  destruct (checkout_at w (clock w)); [|unfold mret; simpl; by trace_done].
  destruct (GetGVRForGVK _ _) as [[gvr ns]|err]; [|unfold mret; simpl; by trace_done].
  cbv zeta. set (req := DeleteReq _ _ _). set (w1 := advance [Sent req] _).
  assert (Hw1 : trace w1 = trace w ++ [Sent req])
    by (subst w1; simpl; by rewrite app_nil_r).
  clearbody w1.
  assert (H1 : Forall timer_is_fixed (drop (length (trace w)) (trace w1)))
    by (rewrite Hw1, drop_app_length; by repeat constructor).
  assert (Hwait : ∀ (f : option (option error) → M (option (list ApiWarning * option error))),
            (∀ r w', f r w' = ((f r w').1, w')) →
            Forall timer_is_fixed (drop (length (trace w))
              (trace (mbind (waitForDeletedObject fuel k ref) f w1).2))).
  { intros f Hf. unfold mbind.
    destruct (waitForDeletedObject_trace fuel k ref w1) as (l & Hl & Hp).
    destruct (waitForDeletedObject fuel k ref w1) as [r w2]. simpl in Hl.
    rewrite Hf. simpl. rewrite Hl, Hw1, <- app_assoc, drop_app_length.
    constructor; [done|]. eapply Forall_impl; [exact Hp|].
    by intros [[]|]. }
  destruct (reply_err _) as [err|];
    [destruct (IgnoreNotFoundError options && IsNotFound err)|];
    try (unfold mret; simpl; exact H1);
    (destruct (negb _ && negb _); [|unfold mret; simpl; exact H1]);
    (apply Hwait; by intros [[?|]|] ?).
Qed.

Lemma found_for_run k ref n w w1 :
  found_for k ref n w w1 →
  ∀ fuel, waitForDeletedObject (n + fuel) k ref w = waitForDeletedObject fuel k ref w1.
Proof.
  induction 1 as [w|n w o ws w' w'' Hget Hwait _ IH]; intros fuel; [done|].
  simpl. unfold mbind. rewrite Hget, Hwait. apply IH.
Qed.

Lemma waitForDeletedObject_poll_fails k ref w o ws e w' fuel :
  GetSingleObject k ref w = ((o, ws, Some e), w') →
  IsNotFound e = false →
  waitForDeletedObject (S fuel) k ref w = (Some (Some e), w').
Proof. intros Hget Hnf. simpl. unfold mbind. by rewrite Hget, Hnf. Qed.

(** The polls that find the object are followed by one that fails: the
    call returns that poll's error with the delete request's warnings. *)
Lemma DeleteSingleObject_failed_poll k ref options w w1 w2 w3 ws ws' o e n fuel :
  DryRun k || del_ForceDryRun options = false →
  NoWait options = false →
  sendDelete k ref options (mkDeleteOpts (Some "Foreground") []) w = ((ws, None, tt), w1) →
  found_for k ref n w1 w2 →
  GetSingleObject k ref w2 = ((o, ws', Some e), w3) →
  IsNotFound e = false →
  n < fuel →
  DeleteSingleObject fuel k ref options w = (Some (ws, Some e), w3).
Proof.
  intros Hdry Hnowait Hsend Hfound Hget Hnf Hlt.
  unfold DeleteSingleObject, mbind. rewrite Hdry, Hnowait. simpl. rewrite Hsend.
  replace fuel with (n + S (fuel - n - 1)) by lia.
  rewrite (found_for_run _ _ _ _ _ Hfound).
  by rewrite (waitForDeletedObject_poll_fails _ _ _ _ _ _ _ _ Hget Hnf).
Qed.

(** C8, as amended.  With neither dry-run nor no-wait in effect, a
    successful [DeleteSingleObject] has had its delete request accepted and
    has then polled the ref until a poll reported "not found", returning
    right after that poll; every timer of the call is the fixed 500 ms one.
    When the context ends while the polls still find the object, the call
    returns, with the delete request's warnings, an error that is not a
    not-found error; which one depends on who sees the context done: the
    "failed waiting for deletion" error when it is a wait between two polls,
    the "failed waiting for free client" error, which is another one, when it
    is a poll asking for a client, and the error of the get request itself
    when it is the request. *)
Theorem deletion_wait (k : K8sCluster) (ref : ObjectRef) (options : DeleteOptions)
    (w : World) :
  DryRun k || del_ForceDryRun options = false →
  NoWait options = false →
  let o := mkDeleteOpts (Some "Foreground") [] in
  (∀ fuel ws w', DeleteSingleObject fuel k ref options w = (Some (ws, None), w') →
     ∃ w1 n, sendDelete k ref options o w = ((ws, None, tt), w1) ∧
             gone_after k ref n w1 w') ∧
  (∀ fuel, Forall timer_is_fixed (sent_by (DeleteSingleObject fuel k ref options) w)) ∧
  (∀ ws w1 c w',
     sendDelete k ref options o w = ((ws, None, tt), w1) →
     cancelled_while_waiting k ref w1 c w' →
     IsNotFound (deletion_timeout ref c) = false ∧
     ∃ n, ∀ fuel, n < fuel →
       DeleteSingleObject fuel k ref options w =
       (Some (ws, Some (deletion_timeout ref c)), w')) ∧
  (∀ ws w1 n w2 c,
     sendDelete k ref options o w = ((ws, None, tt), w1) →
     found_for k ref n w1 w2 →
     checkout_at w2 (clock w2) = ClientCtxDone c →
     IsNotFound (checkout_timeout c) = false ∧
     (∀ c', checkout_timeout c ≠ deletion_timeout ref c') ∧
     ∀ fuel, n < fuel →
       DeleteSingleObject fuel k ref options w =
       (Some (ws, Some (checkout_timeout c)), advance [] w2)) ∧
  (∀ ws w1 n w2 gvr namespaced e,
     sendDelete k ref options o w = ((ws, None, tt), w1) →
     found_for k ref n w1 w2 →
     checkout_at w2 (clock w2) = ClientReady →
     GetGVRForGVK (resolver k (advance [] w2)) (GVK ref) = inl (gvr, namespaced) →
     let req := GetReq (target_for namespaced gvr (Namespace ref)) (Name ref) in
     reply_err (reply_at w2 (S (clock w2)) req) = Some e →
     IsNotFound e = false →
     ∀ fuel, n < fuel →
       DeleteSingleObject fuel k ref options w =
       (Some (ws, Some e), advance [Sent req] (advance [] w2))).
Proof.
  intros Hdry Hnowait o. split_and!.
  - intros fuel ws w'. unfold DeleteSingleObject, mbind. rewrite Hdry, Hnowait. simpl.
    fold o. destruct (sendDelete k ref options o w) as [[[ws0 err] []] w1].
    destruct err as [err|]; [done|].
    destruct (waitForDeletedObject fuel k ref w1) as [r w2] eqn:Hwait.
    destruct r as [[err|]|]; unfold mret; intros [= <- <-].
    destruct (waitForDeletedObject_success _ _ _ _ _ Hwait) as (n & _ & Hgone).
    by exists w1, n.
  - intros fuel. apply DeleteSingleObject_timers.
  - intros ws w1 c w' Hsend Hcancel. split; [by destruct c|].
    destruct (cancelled_while_waiting_returns _ _ _ _ _ Hcancel) as [n Hn].
    exists n. intros fuel Hlt.
    unfold DeleteSingleObject, mbind. rewrite Hdry, Hnowait. simpl. fold o.
    rewrite Hsend. by rewrite (Hn fuel Hlt).
  - intros ws w1 n w2 c Hsend Hfound Hc.
    assert (Hnf : IsNotFound (checkout_timeout c) = false) by (by destruct c).
    split; [done|]. split; [by intros c' [=]|].
    intros fuel Hlt.
    eapply (DeleteSingleObject_failed_poll k ref options w w1 w2); try done.
    by rewrite GetSingleObject_run, Hc.
  - intros ws w1 n w2 gvr namespaced e Hsend Hfound Hc Hr req He Hnf fuel Hlt.
    eapply (DeleteSingleObject_failed_poll k ref options w w1 w2); try done.
    rewrite GetSingleObject_run, Hc, Hr. cbv zeta. fold req. by rewrite He.
Qed.

(** C8 fails as stated: the delete request is accepted, the object never
    disappears and the context is cancelled during the first wait, after the
    timer has been taken; the second poll sees it while it asks for a client,
    and the call returns the "failed waiting for free client" error, not the
    "failed waiting for deletion" one. *)
Lemma DeleteSingleObject_cancelled_at_poll :
  let k := ex_cluster false in
  let w := world_cancelled_at_poll in
  DryRun k || del_ForceDryRun wait_options = false ∧
  NoWait wait_options = false ∧
  (∀ n r, reply_err (reply_at w n r) = None) ∧
  (∀ fuel, 1 < fuel →
     (DeleteSingleObject fuel k (ex_ref "web") wait_options w).1 =
     Some ([], Some (checkout_timeout Canceled))) ∧
  IsNotFound (checkout_timeout Canceled) = false ∧
  ∀ c, checkout_timeout Canceled ≠ deletion_timeout (ex_ref "web") c.
Proof.
  intros k w. split_and!; try done.
  intros fuel Hlt.
  refine (f_equal fst (DeleteSingleObject_failed_poll k (ex_ref "web") wait_options w
            _ _ _ [] [] None (checkout_timeout Canceled) 1 fuel
            eq_refl eq_refl eq_refl _ _ eq_refl Hlt)).
  - eapply found_more; [reflexivity|reflexivity|apply found_none].
  - reflexivity.
Qed.

(** ** The worker pool *)

Section WorkerPoolFacts.
Context {T A : Type} (maxWorkers : nat) (u : T → A → A * option error).

Local Abbreviation step := (wp_step maxWorkers u).

Lemma wp_replay_snoc done t a :
  wp_replay u (done ++ [t]) a =
  let (a1, es) := wp_replay u done a in
  let (a2, e) := u t a1 in (a2, es ++ option_list e).
Proof.
  revert a. induction done as [|t' done IH]; intros a; simpl.
  - destruct (u t a) as [a2 e]. by rewrite app_nil_r.
  - destruct (u t' a) as [a' e']. rewrite IH.
    destruct (wp_replay u done a') as [a1 es].
    destruct (u t a1) as [a2 e]. by rewrite app_assoc.
Qed.

(** What holds of every state the pool reaches from [tasks]: the units not
    waiting have finished or are in flight, at most [maxWorkers] of them;
    the shared data is what the finished units made of it; the pool is
    stopped exactly when an error is recorded. *)
Definition wp_inv (tasks : list T) (a0 : A) (s : wp_state) : Prop :=
  ∃ done started,
    tasks = started ++ wp_waiting s ∧
    started ≡ₚ done ++ wp_running s ∧
    wp_replay u done a0 = (wp_shared s, wp_errors s) ∧
    (wp_stopped s = true ↔ wp_errors s ≠ []) ∧
    length (wp_running s) ≤ maxWorkers.

Lemma wp_inv_step tasks a0 s s' : wp_inv tasks a0 s → step s s' → wp_inv tasks a0 s'.
Proof.
  intros (done & started & Htasks & Hperm & Hreplay & Hstop & Hlen) Hstep.
  destruct Hstep as [t q r e a Hr|q r1 t r2 st e a a' Hu|q r1 t r2 st e a a' err Hu];
    simpl in *.
  - exists done, (started ++ [t]). simpl. split_and!; try done.
    + by rewrite <- app_assoc.
    + by rewrite Hperm, !app_assoc.
    + rewrite length_app. simpl. lia.
  - exists (done ++ [t]), started. simpl. split_and!; try done.
    + rewrite Hperm. rewrite <- !app_assoc. simpl.
      by rewrite (Permutation_middle r1 r2 t).
    + rewrite wp_replay_snoc, Hreplay, Hu. simpl. by rewrite app_nil_r.
    + rewrite length_app in *. simpl in *. lia.
  - exists (done ++ [t]), started. simpl. split_and!; try done.
    + rewrite Hperm. rewrite <- !app_assoc. simpl.
      by rewrite (Permutation_middle r1 r2 t).
    + by rewrite wp_replay_snoc, Hreplay, Hu.
    + split; [|done]. intros _. by destruct e.
    + rewrite length_app in *. simpl in *. lia.
Qed.

Lemma wp_inv_reach tasks a0 s :
  rtc step (wp_submitted tasks a0) s → wp_inv tasks a0 s.
Proof.
  revert s. apply rtc_ind_r.
  - exists [], []. simpl. split_and!; try done. lia.
  - intros s s' _ Hstep IH. by eapply wp_inv_step.
Qed.

(** Whatever the schedule, the call returns what some completion order of
    a part of the tasks produces; a task is left out only after an error. *)
Lemma wp_returns_replay tasks a res :
  wp_returns maxWorkers u tasks a res →
  ∃ done started rest,
    tasks = started ++ rest ∧ started ≡ₚ done ∧
    res = ((wp_replay u done a).1, head (wp_replay u done a).2) ∧
    (rest ≠ [] → (wp_replay u done a).2 ≠ []).
Proof.
  intros (s & Hrtc & [Hrun Hwait] & ->).
  destruct (wp_inv_reach _ _ _ Hrtc) as (done & started & Htasks & Hperm & Hreplay & Hstop & _).
  exists done, started, (wp_waiting s). rewrite Hreplay. simpl.
  rewrite Hrun, app_nil_r in Hperm. repeat split; try done.
  intros Hne. apply Hstop. by destruct Hwait.
Qed.

(** A schedule exists: running the units one after the other is one. *)
Lemma wp_in_order_returns tasks a :
  0 < maxWorkers → wp_returns maxWorkers u tasks a (wp_in_order u tasks a).
Proof.
  intros Hpos. revert a. induction tasks as [|t q IH]; intros a.
  - exists (wp_submitted [] a). split; [done|]. split; [|done]. split; [done|by left].
  - simpl. destruct (u t a) as [a' [err|]] eqn:Hu.
    + exists (mkWp q [] true [err] a'). split_and!; try done; [|split; [done|by right]].
      eapply rtc_l; [by apply wp_start|].
      apply rtc_once. by apply (wp_fail _ _ q [] t [] false [] a a' err).
    + destruct (IH a') as (s & Hrtc & Hdrained & Hres).
      exists s. split_and!; try done.
      eapply rtc_l; [by apply wp_start|].
      eapply rtc_l; [|exact Hrtc].
      by apply (wp_finish _ _ q [] t [] false [] a a').
Qed.
End WorkerPoolFacts.

(** ** Fan-out queries *)

Lemma record_all_dom {K T} `{Countable K} (key : T → K) (warn : T → list ApiWarning)
    (done : list T) (m : gmap K (list ApiWarning)) (r : K) :
  r ∈ dom (record_all key warn done m) ↔
  r ∈ dom m ∨ ∃ t, t ∈ done ∧ key t = r ∧ warn t ≠ [].
Proof.
  revert m. induction done as [|t done IH]; intros m; simpl.
  - split; [by left|]. intros [?|(t & Ht & _)]; [done|]. by apply elem_of_nil in Ht.
  - rewrite IH. unfold record_warnings. case_bool_decide as Hlen.
    + rewrite dom_insert. rewrite elem_of_union, elem_of_singleton. split.
      * intros [[->|?]|(t' & Ht' & Hk & Hw)].
        -- right. exists t. split_and!; [left|done|]. by destruct (warn t).
        -- by left.
        -- right. exists t'. split_and!; [by right|done|done].
      * intros [?|(t' & Ht' & Hk & Hw)]; [by left; right|].
        apply elem_of_cons in Ht' as [->|Ht']; [by left; left|].
        right. by exists t'.
    + split.
      * intros [?|(t' & Ht' & Hk & Hw)]; [by left|].
        right. exists t'. split_and!; [by right|done|done].
      * intros [?|(t' & Ht' & Hk & Hw)]; [by left|].
        apply elem_of_cons in Ht' as [->|Ht']; [|right; by exists t'].
        exfalso. by destruct (warn t).
Qed.

Lemma getUnit_replay k done ret wm :
  wp_replay (getUnit k) done (ret, wm) =
  ((ret ++ omap (lookup_object k) done, record_all fst (lookup_warnings k) done wm),
   omap (lookup_failure k) done).
Proof.
  unfold lookup_object, lookup_failure, lookup_warnings, lookup_result.
  revert ret wm. induction done as [|t done IH]; intros ret wm; simpl.
  - by rewrite app_nil_r.
  - unfold getUnit at 1.
    destruct (GetSingleObject k t.1 t.2) as [[[o ws] err] w']. simpl.
    destruct err as [e|].
    + by destruct (IsNotFound e || IsNoMatchError e); rewrite IH.
    + rewrite IH. by rewrite <- app_assoc.
Qed.

(** Every return of [GetObjectsByRefs] is that of some completion order of
    the lookups that ran; a lookup is left out only after a failure. *)
Lemma GetObjectsByRefs_inv k refs res :
  GetObjectsByRefs k refs res →
  ∃ done started rest,
    refs = started ++ rest ∧ started ≡ₚ done ∧
    (rest ≠ [] → omap (lookup_failure k) done ≠ []) ∧
    res = fanout_return
            ((omap (lookup_object k) done, record_all fst (lookup_warnings k) done ∅),
             head (omap (lookup_failure k) done)).
Proof.
  intros (r & Hret & ->).
  destruct (wp_returns_replay _ _ _ _ _ Hret) as (done & started & rest & Hrefs & Hperm & -> & Hrest).
  rewrite getUnit_replay in *. simpl in *. by exists done, started, rest.
Qed.

Lemma GetObjectsByRefs_in_order_returns k refs :
  GetObjectsByRefs k refs (GetObjectsByRefs_in_order k refs).
Proof.
  eexists. split; [|done]. apply wp_in_order_returns. lia.
Qed.

(** When no lookup fails, all of them ran. *)
Lemma GetObjectsByRefs_no_failure k refs res :
  Forall (fun t => lookup_failure k t = None) refs →
  GetObjectsByRefs k refs res →
  res.2 = None ∧
  res.1.1 ≡ₚ omap (lookup_object k) refs ∧
  ∀ r, r ∈ dom res.1.2 ↔ ∃ t, t ∈ refs ∧ t.1 = r ∧ lookup_warnings k t ≠ [].
Proof.
  intros Hok (done & started & rest & -> & Hperm & Hrest & ->)%GetObjectsByRefs_inv.
  assert (Hnone : omap (lookup_failure k) done = []).
  { apply Permutation_nil_r. rewrite <- Hperm. apply Forall_app in Hok as [Hok _].
    clear -Hok. induction Hok as [|t l Ht _ IH]; [done|]. simpl. by rewrite Ht. }
  assert (rest = []) as -> by (destruct rest; [done|]; by destruct Hrest).
  rewrite Hnone, app_nil_r. unfold fanout_return. simpl. split_and!; [done|by rewrite Hperm|].
  intros r. rewrite record_all_dom, dom_empty, elem_of_empty.
  setoid_rewrite <- Hperm. naive_solver.
Qed.

Lemma lookup_failure_Some k t e :
  lookup_failure k t = Some e ↔
  (lookup_result k t).2 = Some e ∧ IsNotFound e = false ∧ IsNoMatchError e = false.
Proof.
  unfold lookup_failure. destruct ((lookup_result k t).2) as [e'|].
  - destruct (IsNotFound e') eqn:H1, (IsNoMatchError e') eqn:H2; simpl;
      (split; [intros [= <-]; done | intros ([= <-] & ? & ?); congruence]).
  - split; [done|]. by intros [? _].
Qed.

Lemma head_omap_Some {X Y} (f : X → option Y) (l : list X) (y : Y) :
  head (omap f l) = Some y → ∃ x, x ∈ l ∧ f x = Some y.
Proof.
  intros Hhd. apply list_elem_of_omap.
  destruct (omap f l); [done|]. injection Hhd as ->. by left.
Qed.

(** When a lookup fails, the call returns one of the failures and no objects. *)
Lemma GetObjectsByRefs_failure k refs res t :
  t ∈ refs → is_Some (lookup_failure k t) →
  GetObjectsByRefs k refs res →
  ∃ done e t',
    done ⊆ refs ∧ t' ∈ done ∧ lookup_failure k t' = Some e ∧
    res = ([], record_all fst (lookup_warnings k) done ∅, Some e).
Proof.
  intros Ht [e0 He0] (done & started & rest & -> & Hperm & Hrest & ->)%GetObjectsByRefs_inv.
  assert (Hne : omap (lookup_failure k) done ≠ []).
  { apply elem_of_app in Ht as [Ht|Ht].
    - rewrite Hperm in Ht. intros Hnil.
      assert (e0 ∈ omap (lookup_failure k) done) as Hin
        by (apply list_elem_of_omap; eauto).
      rewrite Hnil in Hin. by apply elem_of_nil in Hin.
    - apply Hrest. intros ->. by apply elem_of_nil in Ht. }
  destruct (omap (lookup_failure k) done) as [|e es] eqn:Hom; [done|].
  destruct (head_omap_Some (lookup_failure k) done e) as (t' & Ht' & He); [by rewrite Hom|].
  exists done, e, t'. split_and!; try done.
  intros x Hx. apply elem_of_app. left. by rewrite Hperm.
Qed.

(** C1, as amended.  When exactly one lookup fails with "not found" and all
    the others succeed, [GetObjectsByRefs] returns a nil error and, in some
    order, the objects of the other lookups, none for the not-found ref; a
    ref is a key of the returned warnings map exactly when a lookup of it
    returned warnings, the not-found ref like any other. *)
Theorem GetObjectsByRefs_one_not_found (k : K8sCluster) (l1 l2 : list (ObjectRef * World))
    (t : ObjectRef * World) (e : error) :
  (lookup_result k t).2 = Some e → IsNotFound e = true →
  Forall (fun t' => (lookup_result k t').2 = None) (l1 ++ l2) →
  let refs := l1 ++ t :: l2 in
  GetObjectsByRefs k refs (GetObjectsByRefs_in_order k refs) ∧
  ∀ res, GetObjectsByRefs k refs res →
    res.2 = None ∧
    res.1.1 ≡ₚ (fun t' => (lookup_result k t').1.1) <$> (l1 ++ l2) ∧
    ∀ r, r ∈ dom res.1.2 ↔ ∃ t', t' ∈ refs ∧ t'.1 = r ∧ lookup_warnings k t' ≠ [].
Proof.
  intros He Hnf Hothers refs. split; [apply GetObjectsByRefs_in_order_returns|].
  intros res Hres.
  assert (Hok : Forall (fun t' => lookup_failure k t' = None) refs).
  { apply Forall_app in Hothers as [H1 H2]. apply Forall_app. split; [|constructor].
    - eapply Forall_impl; [exact H1|]. intros t' Ht'. unfold lookup_failure. by rewrite Ht'.
    - unfold lookup_failure. by rewrite He, Hnf.
    - eapply Forall_impl; [exact H2|]. intros t' Ht'. unfold lookup_failure. by rewrite Ht'. }
  destruct (GetObjectsByRefs_no_failure _ _ _ Hok Hres) as (Herr & Hobjs & Hdom).
  split_and!; [done| |done].
  rewrite Hobjs. subst refs.
  assert (Hsome : ∀ l, Forall (fun t' => (lookup_result k t').2 = None) l →
            omap (lookup_object k) l = (fun t' => (lookup_result k t').1.1) <$> l).
  { induction 1 as [|x l Hx _ IH]; [done|]. csimpl.
    unfold lookup_object at 1. rewrite Hx. by rewrite IH. }
  apply Forall_app in Hothers as [H1 H2].
  rewrite omap_app, fmap_app. csimpl. unfold lookup_object at 2. rewrite He.
  by rewrite !Hsome.
Qed.

(** C2.  When some lookup fails with an error that is neither "not found"
    nor "no matching kind", [GetObjectsByRefs] returns no objects and a
    non-nil error, which is such an error of one of the lookups. *)
Theorem GetObjectsByRefs_hard_error (k : K8sCluster) (refs : list (ObjectRef * World))
    (t : ObjectRef * World) (e : error) :
  t ∈ refs → (lookup_result k t).2 = Some e →
  IsNotFound e = false → IsNoMatchError e = false →
  GetObjectsByRefs k refs (GetObjectsByRefs_in_order k refs) ∧
  ∀ res, GetObjectsByRefs k refs res →
    res.1.1 = [] ∧
    ∃ e' t', res.2 = Some e' ∧ t' ∈ refs ∧ (lookup_result k t').2 = Some e' ∧
             IsNotFound e' = false ∧ IsNoMatchError e' = false.
Proof.
  intros Ht He Hnf Hnm. split; [apply GetObjectsByRefs_in_order_returns|].
  intros res Hres.
  assert (Hfail : is_Some (lookup_failure k t))
    by (exists e; by apply lookup_failure_Some).
  destruct (GetObjectsByRefs_failure k refs res t Ht Hfail Hres)
    as (dn & e' & t' & Hsub & Ht' & He' & ->).
  split; [done|]. exists e', t'. apply lookup_failure_Some in He' as (? & ? & ?).
  split_and!; try done. by apply Hsub.
Qed.

Lemma record_warnings_nil `{Countable K} (key : K) (m : gmap K (list ApiWarning)) :
  record_warnings key [] m = m.
Proof. done. Qed.

Lemma listUnit_replay k namespace labels onlyMetadata done ret wm :
  wp_replay (listUnit k namespace labels onlyMetadata) done (ret, wm) =
  ((ret ++ (done ≫= list_items k namespace labels onlyMetadata),
    record_all fst (list_kept_warnings k namespace labels onlyMetadata) done wm),
   omap (fun t => list_failure (list_result k namespace labels onlyMetadata t)) done).
Proof.
  unfold list_items, list_kept_warnings, list_failure, list_result.
  revert ret wm. induction done as [|t done IH]; intros ret wm; csimpl.
  - by rewrite app_nil_r.
  - unfold listUnit at 1.
    destruct ((if onlyMetadata then _ else _).1) as [[l ws] err]. simpl.
    destruct err as [e|]; [destruct (IsNotFound e)|]; simpl; rewrite IH; simpl;
      by rewrite <- ?app_assoc.
Qed.

Lemma ListAllObjects_inv k verbs namespace labels onlyMetadata w env res :
  ListAllObjects k verbs namespace labels onlyMetadata w env res →
  let failure t := list_failure (list_result k namespace labels onlyMetadata t) in
  ∃ done started rest,
    ListAllObjects_units k verbs w env = started ++ rest ∧ started ≡ₚ done ∧
    (rest ≠ [] → omap failure done ≠ []) ∧
    res = fanout_return
            ((done ≫= list_items k namespace labels onlyMetadata,
              record_all fst (list_kept_warnings k namespace labels onlyMetadata) done ∅),
             head (omap failure done)).
Proof.
  intros (r & Hret & ->) failure.
  destruct (wp_returns_replay _ _ _ _ _ Hret)
    as (done & started & rest & Hrefs & Hperm & -> & Hrest).
  rewrite listUnit_replay in *. simpl in *. by exists done, started, rest.
Qed.

Lemma ListAllObjects_in_order_returns k verbs namespace labels onlyMetadata w env :
  ListAllObjects k verbs namespace labels onlyMetadata w env
    (ListAllObjects_in_order k verbs namespace labels onlyMetadata w env).
Proof.
  eexists. split; [|done]. apply wp_in_order_returns. lia.
Qed.

(** A list call that fails returns no items. *)
Lemma list_result_error k namespace labels onlyMetadata t e :
  (list_result k namespace labels onlyMetadata t).2 = Some e →
  (list_result k namespace labels onlyMetadata t).1.1 = [].
Proof.
  unfold list_result, ListObjectsMetadata, ListObjects.
  destruct onlyMetadata; run_call; congruence.
Qed.

(** C3, as amended.  In [ListAllObjects] a kind whose list call fails with
    "not found" is not an error: when every failing list call fails so, the
    call returns a nil error and, in some order, the items of the kinds whose
    list call succeeded, none for the others. *)
Theorem ListAllObjects_not_found (k : K8sCluster) (verbs : list string)
    (namespace : string) (labels : list (string * string)) (onlyMetadata : bool)
    (w : World) (env : GroupVersionKind → World) :
  let units := ListAllObjects_units k verbs w env in
  let result := list_result k namespace labels onlyMetadata in
  Forall (fun t => ∀ e, (result t).2 = Some e → IsNotFound e = true) units →
  ListAllObjects k verbs namespace labels onlyMetadata w env
    (ListAllObjects_in_order k verbs namespace labels onlyMetadata w env) ∧
  ∀ res, ListAllObjects k verbs namespace labels onlyMetadata w env res →
    res.2 = None ∧
    res.1.1 ≡ₚ
      List.filter (fun t => bool_decide ((result t).2 = None)) units ≫= (fun t => (result t).1.1).
Proof.
  intros units result Hok. split; [apply ListAllObjects_in_order_returns|].
  intros res (done & started & rest & Hunits & Hperm & Hrest & ->)%ListAllObjects_inv.
  fold units in Hunits. fold result in Hrest |- *.
  assert (Hfail : ∀ t, t ∈ units → list_failure (result t) = None).
  { intros t Ht. rewrite Forall_forall in Hok. specialize (Hok t Ht).
    unfold list_failure. destruct ((result t).2) as [e|]; [|done]. by rewrite (Hok e). }
  assert (Hnone : omap (fun t => list_failure (result t)) done = []).
  { apply Permutation_nil_r. rewrite <- Hperm.
    assert (Hs : ∀ t, t ∈ started → list_failure (result t) = None)
      by (intros t Ht; apply Hfail; rewrite Hunits; apply elem_of_app; by left).
    clear -Hs. induction started as [|t l IH]; [done|]. csimpl.
    rewrite (Hs t) by left. apply IH. intros t' Ht'. apply Hs. by right. }
  assert (rest = []) as -> by (destruct rest; [done|]; by destruct Hrest).
  rewrite app_nil_r in Hunits. subst started.
  rewrite Hnone. unfold fanout_return. simpl. split; [done|].
  rewrite <- Hperm. clear -Hfail.
  induction units as [|t l IH]; [done|]. csimpl.
  rewrite IH by (intros t' Ht'; apply Hfail; by right).
  unfold list_items at 1. fold result. rewrite (Hfail t) by left.
  case_bool_decide as Hres; csimpl; [done|].
  destruct ((result t).2) as [e|] eqn:He; [|done].
  subst result. by rewrite (list_result_error _ _ _ _ _ _ He).
Qed.




(** C1 fails as stated: the single ref is not found, and it is a key of the
    warnings map, because the warnings of a lookup are recorded before its
    error is looked at. *)
Lemma GetObjectsByRefs_not_found_ref_is_warned :
  let k := ex_cluster false in
  let t := (ex_ref "web", world_not_found) in
  (∃ e, (lookup_result k t).2 = Some e ∧ IsNotFound e = true) ∧
  ∀ res, GetObjectsByRefs k [t] res → res.2 = None ∧ ex_ref "web" ∈ dom res.1.2.
Proof.
  intros k t. split; [by eexists|].
  intros res Hres.
  destruct (GetObjectsByRefs_no_failure k [t] res) as (Herr & _ & Hdom);
    [by repeat constructor|done|].
  split; [done|]. apply Hdom. exists t. split_and!; [by left|done|done].
Qed.

Lemma GetObjectsByRefs_one_not_found_witness :
  (lookup_result (ex_cluster false) (ex_ref "web", world_not_found)).2
    = Some (StatusNotFound "deployments not found") ∧
  IsNotFound (StatusNotFound "deployments not found") = true ∧
  Forall (fun t' => (lookup_result (ex_cluster false) t').2 = None)
         ([(ex_ref "db", world_found "db")] ++ []) ∧
  let refs := [(ex_ref "db", world_found "db")] ++ (ex_ref "web", world_not_found) :: [] in
  GetObjectsByRefs (ex_cluster false) refs (GetObjectsByRefs_in_order (ex_cluster false) refs) ∧
  ∀ res, GetObjectsByRefs (ex_cluster false) refs res →
    res.2 = None ∧
    res.1.1 ≡ₚ (fun t' => (lookup_result (ex_cluster false) t').1.1)
                 <$> ([(ex_ref "db", world_found "db")] ++ []) ∧
    ∀ r, r ∈ dom res.1.2 ↔
         ∃ t', t' ∈ refs ∧ t'.1 = r ∧ lookup_warnings (ex_cluster false) t' ≠ [].
Proof.
  split_and!; [reflexivity|reflexivity|by repeat constructor|].
  apply (GetObjectsByRefs_one_not_found (ex_cluster false)
           [(ex_ref "db", world_found "db")] [] (ex_ref "web", world_not_found)
           (StatusNotFound "deployments not found"));
    [reflexivity|reflexivity|by repeat constructor].
Defined.

Lemma GetObjectsByRefs_hard_error_witness :
  (ex_ref "web", world_refused) ∈ [(ex_ref "web", world_refused)] ∧
  (lookup_result (ex_cluster false) (ex_ref "web", world_refused)).2
    = Some (OtherError "connection refused") ∧
  IsNotFound (OtherError "connection refused") = false ∧
  IsNoMatchError (OtherError "connection refused") = false ∧
  let refs := [(ex_ref "web", world_refused)] in
  GetObjectsByRefs (ex_cluster false) refs (GetObjectsByRefs_in_order (ex_cluster false) refs) ∧
  ∀ res, GetObjectsByRefs (ex_cluster false) refs res →
    res.1.1 = [] ∧
    ∃ e' t', res.2 = Some e' ∧ t' ∈ refs ∧
             (lookup_result (ex_cluster false) t').2 = Some e' ∧
             IsNotFound e' = false ∧ IsNoMatchError e' = false.
Proof.
  split_and!; [by left|reflexivity|reflexivity|reflexivity|].
  apply (GetObjectsByRefs_hard_error (ex_cluster false) [(ex_ref "web", world_refused)]
           (ex_ref "web", world_refused) (OtherError "connection refused"));
    [by left|reflexivity|reflexivity|reflexivity].
Defined.

(** When a list call fails with anything but "not found", [ListAllObjects]
    returns one of these errors and no objects. *)
Lemma ListAllObjects_failure k verbs namespace labels onlyMetadata w env res t :
  let result := list_result k namespace labels onlyMetadata in
  t ∈ ListAllObjects_units k verbs w env → is_Some (list_failure (result t)) →
  ListAllObjects k verbs namespace labels onlyMetadata w env res →
  ∃ finished e t',
    finished ⊆ ListAllObjects_units k verbs w env ∧ t' ∈ finished ∧
    list_failure (result t') = Some e ∧
    res = ([], record_all fst (list_kept_warnings k namespace labels onlyMetadata) finished ∅,
           Some e).
Proof.
  intros result Ht [e0 He0]
    (dn & started & rest & Hunits & Hperm & Hrest & ->)%ListAllObjects_inv.
  fold result in Hrest |- *. rewrite Hunits in Ht |- *.
  assert (Hne : omap (fun t => list_failure (result t)) dn ≠ []).
  { apply elem_of_app in Ht as [Ht|Ht].
    - rewrite Hperm in Ht. intros Hnil.
      assert (e0 ∈ omap (fun t => list_failure (result t)) dn) as Hin
        by (apply list_elem_of_omap; eauto).
      rewrite Hnil in Hin. by apply elem_of_nil in Hin.
    - apply Hrest. intros ->. by apply elem_of_nil in Ht. }
  destruct (omap (fun t => list_failure (result t)) dn) as [|e es] eqn:Hom; [done|].
  destruct (head_omap_Some (fun t => list_failure (result t)) dn e) as (t' & Ht' & He);
    [by rewrite Hom|].
  exists dn, e, t'. split_and!; try done.
  intros x Hx. apply elem_of_app. left. by rewrite Hperm.
Qed.

(** C3 fails as stated: the list call of the only kind fails with "no
    matching kind" (the kind left the resolver after the kinds were picked),
    and [ListAllObjects] returns that error. *)
Lemma ListAllObjects_no_match_is_an_error :
  let k := ex_cluster false in
  let env := fun _ : GroupVersionKind => world_kind_removed in
  ListAllObjects_units k ["list"] world_listing env = [(ex_gvk, world_kind_removed)] ∧
  (list_result k "" [] false (ex_gvk, world_kind_removed)).2 = Some (NoKindMatch "Deployment") ∧
  IsNoMatchError (NoKindMatch "Deployment") = true ∧
  ∀ res, ListAllObjects k ["list"] "" [] false world_listing env res →
         res.2 = Some (NoKindMatch "Deployment").
Proof.
  intros k env. split_and!; [reflexivity..|].
  intros res Hres.
  destruct (ListAllObjects_failure k ["list"] "" [] false world_listing env res
              (ex_gvk, world_kind_removed))
    as (dn & e & t' & Hsub & Ht' & He & ->); [by left|by eexists|done|].
  apply Hsub in Ht'. apply list_elem_of_singleton in Ht' as ->.
  simpl. f_equal. by injection He.
Qed.

Lemma ListAllObjects_not_found_witness :
  let k := ex_cluster false in
  let env := fun _ : GroupVersionKind => world_list_not_found in
  let units := ListAllObjects_units k ["list"] world_listing env in
  let result := list_result k "" [] false in
  Forall (fun t => ∀ e, (result t).2 = Some e → IsNotFound e = true) units ∧
  (ListAllObjects k ["list"] "" [] false world_listing env
     (ListAllObjects_in_order k ["list"] "" [] false world_listing env) ∧
   ∀ res, ListAllObjects k ["list"] "" [] false world_listing env res →
     res.2 = None ∧
     res.1.1 ≡ₚ List.filter (fun t => bool_decide ((result t).2 = None)) units
                  ≫= (fun t => (result t).1.1)).
Proof.
  intros k env units result.
  assert (H : Forall (fun t => ∀ e, (result t).2 = Some e → IsNotFound e = true) units)
    by (repeat constructor; by intros e [= <-]).
  split; [exact H|].
  exact (ListAllObjects_not_found k ["list"] "" [] false world_listing env H).
Defined.

Lemma deletion_wait_witness :
  DryRun (ex_cluster false) || del_ForceDryRun wait_options = false ∧
  NoWait wait_options = false ∧
  (∀ fuel ws w',
     DeleteSingleObject fuel (ex_cluster false) (ex_ref "web") wait_options world_deleting
       = (Some (ws, None), w') →
     ∃ w1 n,
       sendDelete (ex_cluster false) (ex_ref "web") wait_options
         (mkDeleteOpts (Some "Foreground") []) world_deleting = ((ws, None, tt), w1) ∧
       gone_after (ex_cluster false) (ex_ref "web") n w1 w') ∧
  ∃ w', ∀ fuel, 1 < fuel →
    DeleteSingleObject fuel (ex_cluster false) (ex_ref "web") wait_options
      world_cancelled_at_poll
    = (Some ([], Some (checkout_timeout Canceled)), w').
Proof.
  split_and!; [reflexivity|reflexivity| |].
  - exact (proj1 (deletion_wait (ex_cluster false) (ex_ref "web") wait_options world_deleting
                    eq_refl eq_refl)).
  - destruct (deletion_wait (ex_cluster false) (ex_ref "web") wait_options
                world_cancelled_at_poll eq_refl eq_refl) as (_ & _ & _ & Hpoll & _).
    assert (Hfound : ∃ w1 w2,
              sendDelete (ex_cluster false) (ex_ref "web") wait_options
                (mkDeleteOpts (Some "Foreground") []) world_cancelled_at_poll
                = (([], None, tt), w1) ∧
              found_for (ex_cluster false) (ex_ref "web") 1 w1 w2 ∧
              checkout_at w2 (clock w2) = ClientCtxDone Canceled).
    { eexists _, _. split; [reflexivity|]. split.
      - eapply found_more; [reflexivity|reflexivity|apply found_none].
      - reflexivity. }
    destruct Hfound as (w1 & w2 & Hsend & Hfound & Hc).
    destruct (Hpoll [] w1 1 w2 Canceled Hsend Hfound Hc) as (_ & _ & Hrun).
    exists (advance [] w2). exact Hrun.
Defined.


(** ** Paths *)

Lemma map_set_get_id k v m : map_get k m = Some v → map_set k v m = m.
Proof.
  induction m as [|[k' v'] m IH]; simpl; [done|].
  destruct (decide (k' = k)) as [->|]; [by intros [= ->]|].
  intros H. by rewrite IH.
Qed.

Lemma get_path_app p q v : get_path (p ++ q) v = get_path p v ≫= get_path q.
Proof.
  revert v. induction p as [|[s|i] p IH]; intros v; simpl; [done|..].
  - destruct v; try done. destruct (map_get s m); [apply IH|done].
  - destruct v; try done. destruct (l !! i); [apply IH|done].
Qed.

Lemma get_set_prefix p q new v :
  is_Some (get_path p v) → get_path (p ++ q) (set_path p new v) = get_path q new.
Proof.
  revert v. induction p as [|[s|i] p IH]; intros v [c Hc]; simpl in *; [done|..].
  - destruct v; try done. destruct (map_get s m) as [c'|] eqn:Hs; [|done].
    simpl. rewrite map_get_set_eq. apply IH. by exists c.
  - destruct v; try done. destruct (l !! i) as [c'|] eqn:Hi; [|done].
    simpl. rewrite list_lookup_insert_eq by (by eapply lookup_lt_Some).
    apply IH. by exists c.
Qed.

Lemma get_set_same p new v :
  is_Some (get_path p v) → get_path p (set_path p new v) = Some new.
Proof.
  intros H. rewrite <- (app_nil_r p) at 1. by rewrite get_set_prefix.
Qed.

Lemma get_set_diverge p q new v :
  diverge p q → get_path q (set_path p new v) = get_path q v.
Proof.
  intros Hd. revert v. induction Hd as [a b p q Hne|a p q _ IH]; intros v.
  - destruct a as [s|i], b as [s'|i']; simpl; destruct v; try done.
    + destruct (map_get s m) eqn:Hs; [|done]. simpl.
      rewrite map_get_set_ne; [done|congruence].
    + by destruct (map_get s m).
    + by destruct (l !! i).
    + destruct (l !! i) eqn:Hi; [|done]. simpl.
      rewrite list_lookup_insert_ne; [done|congruence].
  - destruct a as [s|i]; simpl; destruct v; try done.
    + destruct (map_get s m) as [c|] eqn:Hs; [|simpl; by rewrite Hs].
      simpl. rewrite map_get_set_eq. apply IH.
    + destruct (l !! i) as [c|] eqn:Hi; [|simpl; by rewrite Hi].
      simpl. rewrite list_lookup_insert_eq by (by eapply lookup_lt_Some).
      apply IH.
Qed.

Lemma set_path_id p v c : get_path p v = Some c → set_path p c v = v.
Proof.
  revert v. induction p as [|[s|i] p IH]; intros v; simpl.
  - by intros [= ->].
  - destruct v; try done. destruct (map_get s m) as [c'|] eqn:Hs; [|done].
    intros Hc. rewrite (IH _ Hc). by rewrite map_set_get_id.
  - destruct v; try done. destruct (l !! i) as [c'|] eqn:Hi; [|done].
    intros Hc. rewrite (IH _ Hc). by rewrite list_insert_id.
Qed.

Lemma mapM_as_map l ms : mapM as_map l = Some ms ↔ l = VMap <$> ms.
Proof.
  revert ms. induction l as [|v l IH]; intros ms; csimpl.
  - split; [intros [= <-]; done|]. by destruct ms.
  - destruct v; csimpl; try (split; [done|by destruct ms]).
    destruct (mapM as_map l) as [ms'|] eqn:Hl; csimpl.
    + split.
      * intros [= <-]. csimpl. f_equal. by apply IH.
      * destruct ms as [|m0 ms]; [done|]. csimpl. intros [= -> Hl'].
        apply IH in Hl' as [= ->]. done.
    + split; [done|]. destruct ms as [|m0 ms]; [done|]. csimpl. intros [= -> Hl'].
      by apply IH in Hl'.
Qed.

Lemma GetFirstListOfMaps_get p o ms :
  GetFirstListOfMaps p o = Some ms ↔ get_path p o = Some (VList (VMap <$> ms)).
Proof.
  unfold GetFirstListOfMaps. destruct (get_path p o) as [[]|]; try (split; done).
  rewrite mapM_as_map. split; [by intros ->|by intros [= ->]].
Qed.

Lemma GetFirstMap_get p o d : GetFirstMap p o = Some d ↔ get_path p o = Some (VMap d).
Proof.
  unfold GetFirstMap. destruct (get_path p o) as [[]|]; simpl; try (split; done).
  split; by intros [= ->].
Qed.

(** ** The fixups, step by step *)

Lemma for_range_total idx body body' o :
  (∀ j x, body j x = Some (body' j x)) →
  for_range idx body o = Some (foldl (fun x j => body' j x) o idx).
Proof.
  intros Hb. revert o. induction idx as [|i idx IH]; intros o; simpl; [done|].
  rewrite Hb. simpl. apply IH.
Qed.

Section FixupFacts.
Variable rule : undotted.
Variable Sprintf_v : value → string.
Variable needsDefaultsFix needsTypeConversionFix : bool.

(** The paths with an undotted name are only parsed when the type
    conversion fix is on. *)
Hypothesis undotted_parsed : rule = UndottedIsChild ∨ needsTypeConversionFix = false.

Lemma fixPorts_eq p path o :
  NewMyJsonPathMust rule p = Some path →
  fixPorts rule needsDefaultsFix p o = Some (fixPorts_at needsDefaultsFix path o).
Proof.
  intros Hp. unfold fixPorts, fixPorts_at.
  destruct needsDefaultsFix; simpl; [|done]. rewrite Hp. simpl.
  by destruct (GetFirstListOfMaps path o).
Qed.

Lemma fixStringType_eq p path k o :
  (needsTypeConversionFix = true → NewMyJsonPathMust rule p = Some path) →
  fixStringType rule Sprintf_v needsTypeConversionFix p k o =
  Some (fixStringType_at Sprintf_v needsTypeConversionFix path k o).
Proof.
  intros Hp. unfold fixStringType, fixStringType_at.
  destruct needsTypeConversionFix; simpl; [|done]. rewrite Hp by done. simpl.
  destruct (GetFirstMap path o) as [d|] eqn:Hd; [|done].
  apply GetFirstMap_get in Hd. unfold fixString.
  destruct (map_get k d) as [[]|]; try done; by rewrite set_path_id.
Qed.

Lemma fixContainer_eq i o :
  fixContainer rule Sprintf_v needsDefaultsFix needsTypeConversionFix
    ([Bare "spec"; Dotted "template"; Dotted "spec"; Dotted "containers"] ++ [Bracket i]) o =
  Some (fixContainer_at Sprintf_v needsDefaultsFix needsTypeConversionFix i o).
Proof.
  unfold fixContainer, fixContainer_at.
  rewrite (fixPorts_eq _ (container_ports i)) by done. simpl.
  rewrite (fixStringType_eq _ (container_limits i)); simpl.
  - apply fixStringType_eq. intros Ht.
    destruct undotted_parsed as [->|]; [done|congruence].
  - intros Ht. destruct undotted_parsed as [->|]; [done|congruence].
Qed.

Lemma applyFixups_eq o :
  applyFixups rule Sprintf_v needsDefaultsFix needsTypeConversionFix o =
  Some (applyFixups_at Sprintf_v needsDefaultsFix needsTypeConversionFix o).
Proof.
  unfold applyFixups, applyFixups_at.
  assert (fixContainers rule Sprintf_v needsDefaultsFix needsTypeConversionFix
            [Bare "spec"; Dotted "template"; Dotted "spec"; Dotted "containers"] o =
          Some (fixContainers_at Sprintf_v needsDefaultsFix needsTypeConversionFix o)) as ->.
  { unfold fixContainers, fixContainers_at. simpl.
    fold containers_path. destruct (GetFirstListOfMaps containers_path o); [|done].
    apply for_range_total. intros j x. apply fixContainer_eq. }
  simpl. rewrite (fixPorts_eq _ service_ports) by done. simpl.
  unfold fixLimits, fixLimits_at. simpl. fold limits_path.
  destruct (GetFirstListOfMaps limits_path _); [|done].
  apply for_range_total. intros j x. unfold fixLimit_at.
  rewrite (fixStringType_eq _ (limit_default j)) by done. simpl.
  by apply fixStringType_eq.
Qed.
End FixupFacts.

Lemma FixObjectForPatch_eq rule Sprintf_v k o :
  rule = UndottedIsChild ∨ LessThan (ServerVersion k) v1_1000 = false →
  FixObjectForPatch rule Sprintf_v k o =
  Some (applyFixups_at Sprintf_v true (LessThan (ServerVersion k) v1_1000) o).
Proof.
  intros H. unfold FixObjectForPatch, Clone. rewrite orb_true_r. simpl.
  by apply applyFixups_eq.
Qed.

(** ** What the fixups change and what they leave *)

Ltac paths_diverge :=
  unfold container_ports, container_limits, container_requests, limit_default,
    limit_defaultRequest, service_ports, limits_path, containers_path; simpl;
  repeat first [ apply diverge_next | apply diverge_here; congruence ].

Lemma fixPorts_at_diverge d path q o :
  diverge path q → get_path q (fixPorts_at d path o) = get_path q o.
Proof.
  intros Hd. unfold fixPorts_at. destruct d; simpl; [|done].
  destruct (GetFirstListOfMaps path o); [|done]. by apply get_set_diverge.
Qed.

Lemma fixStringType_at_diverge S t path k q o :
  diverge path q → get_path q (fixStringType_at S t path k o) = get_path q o.
Proof.
  intros Hd. unfold fixStringType_at. destruct t; simpl; [|done].
  destruct (GetFirstMap path o); [|done]. by apply get_set_diverge.
Qed.

Lemma fixPorts_at_here path o ports :
  GetFirstListOfMaps path o = Some ports →
  GetFirstListOfMaps path (fixPorts_at true path o) = Some (fixPort <$> ports).
Proof.
  intros Hp. unfold fixPorts_at. simpl. rewrite Hp.
  apply GetFirstListOfMaps_get. apply get_set_same.
  apply GetFirstListOfMaps_get in Hp. by rewrite Hp.
Qed.

Lemma fixStringType_at_here S path k o d :
  GetFirstMap path o = Some d →
  GetFirstMap path (fixStringType_at S true path k o) = Some (fixString S k d).
Proof.
  intros Hp. unfold fixStringType_at. simpl. rewrite Hp.
  apply GetFirstMap_get. apply get_set_same.
  apply GetFirstMap_get in Hp. by rewrite Hp.
Qed.

Lemma fixStringType_at_off S path k o : fixStringType_at S false path k o = o.
Proof. done. Qed.

Lemma foldl_keeps {X} (body : nat → X → X) (P : X → Prop) idx o :
  (∀ j x, j ∈ idx → P x → P (body j x)) → P o → P (foldl (fun x j => body j x) o idx).
Proof.
  revert o. induction idx as [|j idx IH]; intros o Hb Ho; simpl; [done|].
  apply IH.
  - intros j' x Hj'. apply Hb. by right.
  - apply Hb; [by left|done].
Qed.

(** A loop over distinct indices, seen from one of them: the others keep
    what holds before and after its turn. *)
Lemma foldl_reaches {X} (body : nat → X → X) (P Q : X → Prop) idx i o :
  NoDup idx → i ∈ idx →
  (∀ j x, j ≠ i → P x → P (body j x)) →
  (∀ j x, j ≠ i → Q x → Q (body j x)) →
  (∀ x, P x → Q (body i x)) →
  P o → Q (foldl (fun x j => body j x) o idx).
Proof.
  intros Hnd Hi HP HQ HPQ. revert o.
  induction idx as [|j idx IH]; intros o Ho; simpl.
  - by apply elem_of_nil in Hi.
  - apply NoDup_cons in Hnd as [Hj Hnd].
    apply elem_of_cons in Hi as [->|Hi].
    + apply foldl_keeps; [|by apply HPQ].
      intros j' x Hj' Hx. apply HQ; [|done]. by intros ->.
    + apply IH; [done|done|]. apply HP; [|done]. by intros ->.
Qed.

Section FixupReads.
Variable S : value → string.
Variable d t : bool.

Lemma index_in_range p i rest o l :
  get_path p o = Some (VList l) → is_Some (get_path (p ++ Nth i :: rest) o) → i < length l.
Proof.
  intros Hp [c Hc]. rewrite get_path_app, Hp in Hc. simpl in Hc.
  destruct (l !! i) eqn:Hi; [|done]. by eapply lookup_lt_Some.
Qed.

Lemma fixContainer_at_diverge i q o :
  diverge (container_ports i) q → diverge (container_limits i) q →
  diverge (container_requests i) q →
  get_path q (fixContainer_at S d t i o) = get_path q o.
Proof.
  intros H1 H2 H3. unfold fixContainer_at.
  by rewrite !fixStringType_at_diverge, fixPorts_at_diverge.
Qed.

Lemma fixLimit_at_diverge i q o :
  diverge (limit_default i) q → diverge (limit_defaultRequest i) q →
  get_path q (fixLimit_at S t i o) = get_path q o.
Proof.
  intros H1 H2. unfold fixLimit_at. by rewrite !fixStringType_at_diverge.
Qed.

(** A place none of the container fixups writes to keeps its content. *)
Lemma fixContainers_at_diverge q o :
  (∀ j, diverge (container_ports j) q ∧ diverge (container_limits j) q ∧
        diverge (container_requests j) q) →
  get_path q (fixContainers_at S d t o) = get_path q o.
Proof.
  intros Hq. unfold fixContainers_at.
  destruct (GetFirstListOfMaps containers_path o); [|done].
  apply (foldl_keeps (fixContainer_at S d t) (fun x => get_path q x = get_path q o));
    [|done].
  intros j x _ <-. destruct (Hq j) as (? & ? & ?). by apply fixContainer_at_diverge.
Qed.

Lemma fixLimits_at_diverge q o :
  (∀ j, diverge (limit_default j) q ∧ diverge (limit_defaultRequest j) q) →
  get_path q (fixLimits_at S t o) = get_path q o.
Proof.
  intros Hq. unfold fixLimits_at.
  destruct (GetFirstListOfMaps limits_path o); [|done].
  apply (foldl_keeps (fixLimit_at S t) (fun x => get_path q x = get_path q o)); [|done].
  intros j x _ <-. destruct (Hq j) as (? & ?). by apply fixLimit_at_diverge.
Qed.

(** A place inside container [i] is only touched by the fixups of that
    container. *)
Lemma fixContainers_at_reaches i q o containers r r' :
  GetFirstListOfMaps containers_path o = Some containers → i < length containers →
  (∀ j, j ≠ i → diverge (container_ports j) q ∧ diverge (container_limits j) q ∧
                diverge (container_requests j) q) →
  (∀ x, get_path q x = r → get_path q (fixContainer_at S d t i x) = r') →
  get_path q o = r → get_path q (fixContainers_at S d t o) = r'.
Proof.
  intros Hc Hi Hq Hbody Ho. unfold fixContainers_at. rewrite Hc.
  apply (foldl_reaches (fixContainer_at S d t)
           (fun x => get_path q x = r) (fun x => get_path q x = r') _ i); try done.
  - apply NoDup_seq.
  - apply elem_of_seq. lia.
  - intros j x Hj <-. destruct (Hq j Hj) as (? & ? & ?). by apply fixContainer_at_diverge.
  - intros j x Hj <-. destruct (Hq j Hj) as (? & ? & ?). by apply fixContainer_at_diverge.
Qed.

Lemma fixLimits_at_reaches i q o limits r r' :
  GetFirstListOfMaps limits_path o = Some limits → i < length limits →
  (∀ j, j ≠ i → diverge (limit_default j) q ∧ diverge (limit_defaultRequest j) q) →
  (∀ x, get_path q x = r → get_path q (fixLimit_at S t i x) = r') →
  get_path q o = r → get_path q (fixLimits_at S t o) = r'.
Proof.
  intros Hc Hi Hq Hbody Ho. unfold fixLimits_at. rewrite Hc.
  apply (foldl_reaches (fixLimit_at S t)
           (fun x => get_path q x = r) (fun x => get_path q x = r') _ i); try done.
  - apply NoDup_seq.
  - apply elem_of_seq. lia.
  - intros j x Hj <-. destruct (Hq j Hj) as (? & ?). by apply fixLimit_at_diverge.
  - intros j x Hj <-. destruct (Hq j Hj) as (? & ?). by apply fixLimit_at_diverge.
Qed.

(** The container fixups do not touch the two lists under [spec] the other
    fixups read, nor the other way round. *)
Lemma fixContainers_at_outside q b rest o :
  q = Key "spec" :: b :: rest → b ≠ Key "template" →
  get_path q (fixContainers_at S d t o) = get_path q o.
Proof.
  intros -> Hb. apply fixContainers_at_diverge. intros j. split_and!; paths_diverge.
Qed.

Lemma fixLimits_at_outside q b rest o :
  q = Key "spec" :: b :: rest → b ≠ Key "limits" →
  get_path q (fixLimits_at S t o) = get_path q o.
Proof.
  intros -> Hb. apply fixLimits_at_diverge. intros j. split_and!; paths_diverge.
Qed.

Lemma service_ports_outside q b rest o :
  q = Key "spec" :: b :: rest → b ≠ Key "ports" →
  get_path q (fixPorts_at d service_ports o) = get_path q o.
Proof. intros -> Hb. apply fixPorts_at_diverge. paths_diverge. Qed.
End FixupReads.

Lemma fixPort_defaulted ports : protocol_defaulted ports (fixPort <$> ports).
Proof.
  split; [by rewrite length_fmap|].
  intros j port Hj. exists (fixPort port). rewrite list_lookup_fmap, Hj.
  split; [done|]. unfold fixPort.
  destruct (map_get "protocol" port) as [v|] eqn:Hp.
  - by rewrite Hp.
  - rewrite map_get_set_eq. split; [done|]. intros key Hk. by rewrite map_get_set_ne.
Qed.

Lemma fixString_coerced S d : cpu_coerced S d (fixString S "cpu" d).
Proof.
  unfold cpu_coerced, fixString.
  destruct (map_get "cpu" d) as [v|] eqn:Hc; [|done].
  split_and!.
  - intros v' [= <-]. destruct v; try (by rewrite map_get_set_eq). done.
  - done.
  - intros key Hk. destruct v; try (by rewrite map_get_set_ne). done.
Qed.

Section FixupResults.
Variable S : value → string.
Variable t : bool.

Lemma applyFixups_at_container_ports o containers i ports :
  GetFirstListOfMaps containers_path o = Some containers →
  GetFirstListOfMaps (container_ports i) o = Some ports →
  GetFirstListOfMaps (container_ports i) (applyFixups_at S true t o)
  = Some (fixPort <$> ports).
Proof.
  intros Hc Hp. apply GetFirstListOfMaps_get. unfold applyFixups_at.
  assert (Hi : i < length containers).
  { apply GetFirstListOfMaps_get in Hc, Hp.
    eapply Nat.lt_le_trans; [eapply (index_in_range containers_path); eauto|].
    by rewrite length_fmap. }
  rewrite (fixLimits_at_outside S t (container_ports i) (Key "template") _ _ eq_refl)
    by done.
  rewrite (service_ports_outside true (container_ports i) (Key "template") _ _ eq_refl)
    by done.
  apply (fixContainers_at_reaches S true t i (container_ports i) o containers
           (Some (VList (VMap <$> ports)))); try done.
  - intros j Hj. split_and!; paths_diverge.
  - intros x Hx. unfold fixContainer_at.
    rewrite !fixStringType_at_diverge by paths_diverge.
    apply GetFirstListOfMaps_get, fixPorts_at_here. by apply GetFirstListOfMaps_get.
  - by apply GetFirstListOfMaps_get.
Qed.

Lemma applyFixups_at_service_ports o ports :
  GetFirstListOfMaps service_ports o = Some ports →
  GetFirstListOfMaps service_ports (applyFixups_at S true t o) = Some (fixPort <$> ports).
Proof.
  intros Hp. apply GetFirstListOfMaps_get. unfold applyFixups_at.
  rewrite (fixLimits_at_outside S t service_ports (Key "ports") _ _ eq_refl) by done.
  apply GetFirstListOfMaps_get, fixPorts_at_here, GetFirstListOfMaps_get.
  rewrite (fixContainers_at_outside S true t service_ports (Key "ports") _ _ eq_refl)
    by done.
  by apply GetFirstListOfMaps_get.
Qed.
End FixupResults.

Section FixupCpu.
Variable S : value → string.

Lemma applyFixups_at_container_cpu o containers i q d :
  GetFirstListOfMaps containers_path o = Some containers →
  q = container_limits i ∨ q = container_requests i →
  GetFirstMap q o = Some d →
  GetFirstMap q (applyFixups_at S true true o) = Some (fixString S "cpu" d).
Proof.
  intros Hc Hq Hd. apply GetFirstMap_get. unfold applyFixups_at.
  assert (Hi : i < length containers).
  { apply GetFirstListOfMaps_get in Hc. apply GetFirstMap_get in Hd.
    destruct Hq as [->| ->];
      (eapply Nat.lt_le_trans; [eapply (index_in_range containers_path _ [Key "resources"; _]);
        [exact Hc|by eexists]|by rewrite length_fmap]). }
  assert (Hspec : ∃ rest, q = Key "spec" :: Key "template" :: rest)
    by (destruct Hq as [->| ->]; by eexists).
  destruct Hspec as [rest Hrest].
  rewrite (fixLimits_at_outside S true q (Key "template") rest _ Hrest) by done.
  rewrite (service_ports_outside true q (Key "template") rest _ Hrest) by done.
  apply (fixContainers_at_reaches S true true i q o containers (Some (VMap d))); try done.
  - intros j Hj. destruct Hq as [->| ->]; split_and!; paths_diverge.
  - intros x Hx. unfold fixContainer_at. destruct Hq as [->| ->].
    + rewrite fixStringType_at_diverge by paths_diverge.
      apply GetFirstMap_get, fixStringType_at_here, GetFirstMap_get.
      by rewrite fixPorts_at_diverge by paths_diverge.
    + apply GetFirstMap_get, fixStringType_at_here, GetFirstMap_get.
      rewrite fixStringType_at_diverge by paths_diverge.
      by rewrite fixPorts_at_diverge by paths_diverge.
  - by apply GetFirstMap_get.
Qed.

Lemma applyFixups_at_limit_cpu o limits i q d :
  GetFirstListOfMaps limits_path o = Some limits →
  q = limit_default i ∨ q = limit_defaultRequest i →
  GetFirstMap q o = Some d →
  GetFirstMap q (applyFixups_at S true true o) = Some (fixString S "cpu" d).
Proof.
  intros Hc Hq Hd. apply GetFirstMap_get. unfold applyFixups_at.
  set (x0 := fixPorts_at true service_ports (fixContainers_at S true true o)).
  assert (Hkeep : ∀ p rest, p = Key "spec" :: Key "limits" :: rest →
            get_path p x0 = get_path p o).
  { intros p rest Hp. subst x0.
    rewrite (service_ports_outside true p (Key "limits") rest _ Hp) by done.
    by rewrite (fixContainers_at_outside S true true p (Key "limits") rest _ Hp). }
  assert (Hc0 : GetFirstListOfMaps limits_path x0 = Some limits).
  { apply GetFirstListOfMaps_get. rewrite (Hkeep limits_path [] eq_refl).
    by apply GetFirstListOfMaps_get. }
  assert (Hd0 : get_path q x0 = Some (VMap d)).
  { apply GetFirstMap_get in Hd. destruct Hq as [->| ->].
    - by rewrite (Hkeep (limit_default i) _ eq_refl).
    - by rewrite (Hkeep (limit_defaultRequest i) _ eq_refl). }
  assert (Hi : i < length limits).
  { apply GetFirstListOfMaps_get in Hc0.
    destruct Hq as [->| ->];
      (eapply Nat.lt_le_trans; [eapply (index_in_range limits_path _ [_]);
        [exact Hc0|by eexists]|by rewrite length_fmap]). }
  apply (fixLimits_at_reaches S true i q x0 limits (Some (VMap d))); try done.
  - intros j Hj. destruct Hq as [->| ->]; split_and!; paths_diverge.
  - intros x Hx. unfold fixLimit_at. destruct Hq as [->| ->].
    + rewrite fixStringType_at_diverge by paths_diverge.
      by apply GetFirstMap_get, fixStringType_at_here, GetFirstMap_get.
    + apply GetFirstMap_get, fixStringType_at_here, GetFirstMap_get.
      by rewrite fixStringType_at_diverge by paths_diverge.
Qed.
End FixupCpu.

Lemma fixLimits_at_off S o : fixLimits_at S false o = o.
Proof.
  unfold fixLimits_at. destruct (GetFirstListOfMaps limits_path o) as [limits|]; [|done].
  by apply (foldl_keeps (fixLimit_at S false) (fun x => x = o)).
Qed.

(** With the type conversion fix off, the maps that hold a [cpu] quantity
    are left as they are. *)
Lemma applyFixups_at_cpu_untouched S d o i q :
  q ∈ [container_limits i; container_requests i; limit_default i; limit_defaultRequest i] →
  get_path q (applyFixups_at S d false o) = get_path q o.
Proof.
  intros Hq. unfold applyFixups_at. rewrite fixLimits_at_off.
  assert (Hports : ∀ j, diverge (container_ports j) q).
  { intros j. destruct (decide (j = i)) as [->|Hj];
      repeat (apply elem_of_cons in Hq as [->|Hq]); try (by apply elem_of_nil in Hq);
      paths_diverge. }
  rewrite fixPorts_at_diverge
    by (repeat (apply elem_of_cons in Hq as [->|Hq]); try (by apply elem_of_nil in Hq);
        paths_diverge).
  unfold fixContainers_at.
  destruct (GetFirstListOfMaps containers_path o) as [containers|]; [|done].
  apply (foldl_keeps (fixContainer_at S d false) (fun x => get_path q x = get_path q o));
    [|done].
  intros j x _ <-. unfold fixContainer_at. rewrite !fixStringType_at_off.
  by apply fixPorts_at_diverge.
Qed.

(** C4 fails as stated: on a server at version 1.1000, past both version
    gates, a service port without [protocol] still gets ["TCP"]. *)
Lemma FixObjectForPatch_defaults_fix_is_not_gated :
  let k := mkCluster false 0 [1; 1000; 0]%Z 0 in
  let o := VMap [("spec", VMap [("ports", VList [VMap [("port", VInt 80)]])])] in
  LessThan (ServerVersion k) v1_21 = false ∧
  LessThan (ServerVersion k) v1_1000 = false ∧
  ∀ rule S,
    FixObjectForPatch rule S k o =
    Some (VMap [("spec", VMap [("ports",
            VList [VMap [("port", VInt 80); ("protocol", VStr "TCP")]])])]).
Proof. split_and!; [reflexivity|reflexivity|]. by intros [] S. Qed.

(** C4, as amended.  Of the two fixups of [FixObjectForPatch] only the type
    conversion is behind a version gate (server older than 1.1000).  The
    port defaults fixup is applied whatever the server version: in the
    object returned, every port of a container port list and of the service
    port list has [protocol] set to ["TCP"] if it had none.  On a server at
    or past 1.1000 the maps holding a [cpu] quantity (container limits and
    requests, limit-range default and defaultRequest) are those of the
    input, and the result does not depend on how the path library reads an
    undotted name; on an older server the [cpu] of each of these maps is its
    string form.  The object is the one returned when the path library reads
    an undotted name as a child. *)
Theorem FixObjectForPatch_gates (S : value → string) (k : K8sCluster) (o : value) :
  let gate := LessThan (ServerVersion k) v1_1000 in
  ∃ o', FixObjectForPatch UndottedIsChild S k o = Some o' ∧
    (∀ containers i ports,
       GetFirstListOfMaps containers_path o = Some containers →
       GetFirstListOfMaps (container_ports i) o = Some ports →
       ∃ ports', GetFirstListOfMaps (container_ports i) o' = Some ports' ∧
                 protocol_defaulted ports ports') ∧
    (∀ ports, GetFirstListOfMaps service_ports o = Some ports →
       ∃ ports', GetFirstListOfMaps service_ports o' = Some ports' ∧
                 protocol_defaulted ports ports') ∧
    (gate = false →
       (∀ rule, FixObjectForPatch rule S k o = Some o') ∧
       ∀ i q, q ∈ [container_limits i; container_requests i;
                   limit_default i; limit_defaultRequest i] →
              get_path q o' = get_path q o) ∧
    (gate = true →
       (∀ containers i q d,
          GetFirstListOfMaps containers_path o = Some containers →
          q = container_limits i ∨ q = container_requests i →
          GetFirstMap q o = Some d →
          ∃ d', GetFirstMap q o' = Some d' ∧ cpu_coerced S d d') ∧
       (∀ limits i q d,
          GetFirstListOfMaps limits_path o = Some limits →
          q = limit_default i ∨ q = limit_defaultRequest i →
          GetFirstMap q o = Some d →
          ∃ d', GetFirstMap q o' = Some d' ∧ cpu_coerced S d d')).
Proof.
  intros gate. eexists. split; [apply FixObjectForPatch_eq; by left|].
  fold gate. split_and!.
  - intros containers i ports Hc Hp. exists (fixPort <$> ports).
    split; [by eapply applyFixups_at_container_ports|apply fixPort_defaulted].
  - intros ports Hp. exists (fixPort <$> ports).
    split; [by apply applyFixups_at_service_ports|apply fixPort_defaulted].
  - intros Hv. split.
    + intros rule. rewrite FixObjectForPatch_eq by (by right). by fold gate.
    + intros i q Hq. rewrite Hv. by apply (applyFixups_at_cpu_untouched S true o i).
  - intros Hv. rewrite Hv. split.
    + intros containers i q d Hc Hq Hd. exists (fixString S "cpu" d).
      split; [by eapply applyFixups_at_container_cpu|apply fixString_coerced].
    + intros limits i q d Hc Hq Hd. exists (fixString S "cpu" d).
      split; [by eapply applyFixups_at_limit_cpu|apply fixString_coerced].
Qed.

(** C5.  Whatever the server version, [FixObjectForPatch] returns an object
    in which every port of a container port list and of the service port
    list has [protocol] set to ["TCP"] if it had none and is otherwise as it
    was.  The path library is taken to read an undotted name as a child. *)
Theorem FixObjectForPatch_ports (S : value → string) (k : K8sCluster) (o : value) :
  ∃ o', FixObjectForPatch UndottedIsChild S k o = Some o' ∧
    (∀ containers i ports,
       GetFirstListOfMaps containers_path o = Some containers →
       GetFirstListOfMaps (container_ports i) o = Some ports →
       ∃ ports', GetFirstListOfMaps (container_ports i) o' = Some ports' ∧
                 protocol_defaulted ports ports') ∧
    (∀ ports, GetFirstListOfMaps service_ports o = Some ports →
       ∃ ports', GetFirstListOfMaps service_ports o' = Some ports' ∧
                 protocol_defaulted ports ports').
Proof.
  eexists. split; [apply FixObjectForPatch_eq; by left|]. split.
  - intros containers i ports Hc Hp. exists (fixPort <$> ports).
    split; [by eapply applyFixups_at_container_ports|apply fixPort_defaulted].
  - intros ports Hp. exists (fixPort <$> ports).
    split; [by apply applyFixups_at_service_ports|apply fixPort_defaulted].
Qed.

(** C6.  On a server older than 1.1000, [FixObjectForPatch] returns an
    object in which the [cpu] of every container's resources.limits and
    resources.requests and of every limit's default and defaultRequest is its
    string form if it was not a string, the rest of these maps being as it
    was.  The path library is taken to read an undotted name as a child. *)
Theorem FixObjectForPatch_cpu (S : value → string) (k : K8sCluster) (o : value) :
  LessThan (ServerVersion k) v1_1000 = true →
  ∃ o', FixObjectForPatch UndottedIsChild S k o = Some o' ∧
    (∀ containers i q d,
       GetFirstListOfMaps containers_path o = Some containers →
       q = container_limits i ∨ q = container_requests i →
       GetFirstMap q o = Some d →
       ∃ d', GetFirstMap q o' = Some d' ∧ cpu_coerced S d d') ∧
    (∀ limits i q d,
       GetFirstListOfMaps limits_path o = Some limits →
       q = limit_default i ∨ q = limit_defaultRequest i →
       GetFirstMap q o = Some d →
       ∃ d', GetFirstMap q o' = Some d' ∧ cpu_coerced S d d').
Proof.
  intros Hv. eexists. split; [apply FixObjectForPatch_eq; by left|].
  rewrite Hv. split.
  - intros containers i q d Hc Hq Hd. exists (fixString S "cpu" d).
    split; [by eapply applyFixups_at_container_cpu|apply fixString_coerced].
  - intros limits i q d Hc Hq Hd. exists (fixString S "cpu" d).
    split; [by eapply applyFixups_at_limit_cpu|apply fixString_coerced].
Qed.

Lemma FixObjectForPatch_gates_witness :
  let k := mkCluster false 0 [1; 1000; 0]%Z 0 in
  ∃ o', FixObjectForPatch UndottedIsChild ex_Sprintf_v k ex_deployment = Some o' ∧
    (∀ rule, FixObjectForPatch rule ex_Sprintf_v k ex_deployment = Some o') ∧
    (∀ i q, q ∈ [container_limits i; container_requests i;
                 limit_default i; limit_defaultRequest i] →
            get_path q o' = get_path q ex_deployment) ∧
    (∀ containers i ports,
       GetFirstListOfMaps containers_path ex_deployment = Some containers →
       GetFirstListOfMaps (container_ports i) ex_deployment = Some ports →
       ∃ ports', GetFirstListOfMaps (container_ports i) o' = Some ports' ∧
                 protocol_defaulted ports ports').
Proof.
  intros k.
  destruct (FixObjectForPatch_gates ex_Sprintf_v k ex_deployment)
    as (o' & Hret & Hcontainers & _ & Hpast & _).
  exists o'. destruct (Hpast eq_refl) as [Hrule Hcpu].
  split; [exact Hret|]. split; [exact Hrule|]. split; [exact Hcpu|exact Hcontainers].
Defined.

Lemma FixObjectForPatch_cpu_witness :
  LessThan (ServerVersion (ex_cluster false)) v1_1000 = true ∧
  ∃ o', FixObjectForPatch UndottedIsChild ex_Sprintf_v (ex_cluster false) ex_deployment
        = Some o' ∧
    (∀ containers i q d,
       GetFirstListOfMaps containers_path ex_deployment = Some containers →
       q = container_limits i ∨ q = container_requests i →
       GetFirstMap q ex_deployment = Some d →
       ∃ d', GetFirstMap q o' = Some d' ∧ cpu_coerced ex_Sprintf_v d d') ∧
    (∀ limits i q d,
       GetFirstListOfMaps limits_path ex_deployment = Some limits →
       q = limit_default i ∨ q = limit_defaultRequest i →
       GetFirstMap q ex_deployment = Some d →
       ∃ d', GetFirstMap q o' = Some d' ∧ cpu_coerced ex_Sprintf_v d d').
Proof.
  split; [reflexivity|].
  exact (FixObjectForPatch_cpu ex_Sprintf_v (ex_cluster false) ex_deployment eq_refl).
Defined.

(** The fixups on a deployment, run. *)
Example FixObjectForPatch_deployment :
  FixObjectForPatch UndottedIsChild ex_Sprintf_v (ex_cluster false) ex_deployment =
  Some (VMap [("spec", VMap [("template", VMap [("spec", VMap [("containers", VList [
     VMap [("name", VStr "web");
           ("ports", VList [VMap [("containerPort", VInt 80); ("protocol", VStr "TCP")];
                            VMap [("containerPort", VInt 53); ("protocol", VStr "UDP")]]);
           ("resources", VMap [("limits", VMap [("cpu", VStr "1")]);
                               ("requests", VMap [("cpu", VStr "500m")])])]])])])])]).
Proof. reflexivity. Qed.

(** ** The client pool *)

Module PoolFacts.
Import ClientPool.

Lemma insert_split {X} (l : list X) i x0 x :
  l !! i = Some x0 →
  ∃ l1 l2, l = l1 ++ [x0] ++ l2 ∧ <[i := x]> l = l1 ++ [x] ++ l2.
Proof.
  intros Hi. exists (take i l), (drop (Datatypes.S i) l). split.
  - simpl. by rewrite take_drop_middle.
  - simpl. apply insert_take_drop. by eapply lookup_lt_Some.
Qed.

Lemma holding_insert cs i c0 c :
  cs !! i = Some c0 →
  ∃ rest, omap held cs ≡ₚ option_list (held c0) ++ rest ∧
          omap held (<[i := c]> cs) ≡ₚ option_list (held c) ++ rest.
Proof.
  intros Hi. destruct (insert_split cs i c0 c Hi) as (l1 & l2 & -> & ->).
  exists (omap held l1 ++ omap held l2).
  rewrite !omap_app. csimpl.
  split.
  - destruct (held c0); simpl; [by rewrite Permutation_middle|done].
  - destruct (held c); simpl; [by rewrite Permutation_middle|done].
Qed.

Lemma steps_left_insert cs i c0 c :
  cs !! i = Some c0 →
  sum_list_with steps_left (<[i := c]> cs) + steps_left c0 =
  sum_list_with steps_left cs + steps_left c.
Proof.
  intros Hi. destruct (insert_split cs i c0 c Hi) as (l1 & l2 & -> & ->).
  rewrite !sum_list_with_app. simpl. lia.
Qed.

(** What holds of every state: the entries are those built, each either in
    the channel or with one call; nobody has given up while the context is
    not done; the calls are those made. *)
Definition inv (n : nat) (s : state) : Prop :=
  chan s ++ holding s ≡ₚ seq 0 parallelClients ∧
  (ctx_done s = false → GaveUp ∉ callers s) ∧
  length (callers s) = n.

Lemma inv_start n : inv n (start n).
Proof.
  unfold inv, holding, start. cbn [chan callers ctx_done]. split_and!.
  - assert (omap held (replicate n Waiting) = []) as ->; [|by rewrite app_nil_r].
    induction n; [done|]. by csimpl.
  - intros _ Hin. apply elem_of_replicate in Hin. by destruct Hin.
  - by rewrite length_replicate.
Qed.

Lemma inv_step n s s' : inv n s → step s s' → inv n s'.
Proof.
  intros (Hperm & Hgave & Hlen) [Hs|Hs];
    [destruct Hs as [i p ch dn cs Hi|i p ch dn cs Hi Hroom]
    |destruct Hs as [ch cs|i ch cs Hi]];
    unfold inv, holding in *; cbn [chan callers ctx_done] in *.
  - destruct (holding_insert cs i Waiting (Holding p) Hi) as (rest & H1 & H2).
    split_and!.
    + rewrite H2. rewrite H1 in Hperm. simpl in *. by rewrite <- Permutation_middle.
    + intros Hd Hin. apply Hgave; [done|].
      apply list_elem_of_lookup in Hin as [j Hj].
      destruct (decide (i = j)) as [->|Hne].
      * rewrite list_lookup_insert_eq in Hj by (by eapply lookup_lt_Some). done.
      * rewrite list_lookup_insert_ne in Hj by done. by eapply list_elem_of_lookup_2.
    + by rewrite length_insert.
  - destruct (holding_insert cs i (Holding p) Served Hi) as (rest & H1 & H2).
    split_and!.
    + rewrite H2. rewrite H1 in Hperm. simpl in *.
      rewrite <- Hperm. rewrite <- app_assoc. simpl. by rewrite <- Permutation_middle.
    + intros Hd Hin. apply Hgave; [done|].
      apply list_elem_of_lookup in Hin as [j Hj].
      destruct (decide (i = j)) as [->|Hne].
      * rewrite list_lookup_insert_eq in Hj by (by eapply lookup_lt_Some). done.
      * rewrite list_lookup_insert_ne in Hj by done. by eapply list_elem_of_lookup_2.
    + by rewrite length_insert.
  - done.
  - destruct (holding_insert cs i Waiting GaveUp Hi) as (rest & H1 & H2).
    split_and!; [|done|by rewrite length_insert].
    rewrite H2. by rewrite H1 in Hperm.
Qed.

Lemma inv_reachable n s : reachable n s → inv n s.
Proof.
  unfold reachable. revert s. apply rtc_ind_r; [apply inv_start|].
  intros s s' _ Hstep IH. by eapply inv_step.
Qed.

Lemma inv_sizes n s :
  inv n s → length (chan s) + length (holding s) = parallelClients.
Proof.
  intros (Hperm & _). apply Permutation_length in Hperm.
  by rewrite length_app, length_seq in Hperm.
Qed.

Lemma held_in_holding s i p : callers s !! i = Some (Holding p) → p ∈ holding s.
Proof.
  intros Hi. apply list_elem_of_omap. exists (Holding p).
  split; [by eapply list_elem_of_lookup_2|done].
Qed.

(** Sending an entry back never blocks. *)
Lemma return_enabled n s i p :
  reachable n s → callers s !! i = Some (Holding p) →
  ∃ s', serve s s' ∧ callers s' !! i = Some Served.
Proof.
  intros Hr Hi. pose proof (inv_sizes n s (inv_reachable n s Hr)) as Hsz.
  pose proof (held_in_holding s i p Hi) as Hin.
  destruct s as [ch dn cs]. simpl in *.
  exists (mkState (ch ++ [p]) dn (<[i := Served]> cs)). split.
  - apply serve_return; [done|]. destruct (holding _); [by apply elem_of_nil in Hin|].
    simpl in Hsz. lia.
  - simpl. apply list_lookup_insert_eq. by eapply lookup_lt_Some.
Qed.

Lemma step_measure s s' : step s s' → measure s' < measure s.
Proof.
  intros [Hs|Hs];
    [destruct Hs as [i p ch dn cs Hi|i p ch dn cs Hi Hroom]
    |destruct Hs as [ch cs|i ch cs Hi]];
    unfold measure; simpl; try lia.
  - pose proof (steps_left_insert cs i Waiting (Holding p) Hi). simpl in *. lia.
  - pose proof (steps_left_insert cs i (Holding p) Served Hi). simpl in *. lia.
  - pose proof (steps_left_insert cs i Waiting GaveUp Hi). simpl in *. lia.
Qed.
(** When no call can take or return an entry and the context is not done,
    every call has been served. *)
Lemma all_served n s :
  reachable n s → ctx_done s = false → (∀ s', ¬ serve s s') →
  callers s = replicate n Served.
Proof.
  intros Hr Hctx Hquiet. pose proof (inv_reachable n s Hr) as Hinv.
  pose proof (inv_sizes n s Hinv) as Hsz. destruct Hinv as (_ & Hgave & Hlen).
  symmetry. apply replicate_as_Forall. split; [done|].
  apply Forall_forall. intros c Hc. apply list_elem_of_lookup in Hc as [i Hi].
  assert (Hnohold : ∀ j p, callers s !! j ≠ Some (Holding p)).
  { intros j p Hj. destruct (return_enabled n s j p Hr Hj) as (s' & Hs' & _).
    by apply (Hquiet s'). }
  destruct c as [|p| |]; [|by destruct (Hnohold i p)|done|].
  - exfalso. destruct s as [[|p ch] dn cs]; simpl in *.
    + assert (holding (mkState [] dn cs) = []) as Hnil; [|rewrite Hnil in Hsz; done].
      unfold holding. simpl. clear -Hnohold.
      induction cs as [|c cs IH]; [done|]. csimpl.
      destruct c as [|p| |]; simpl; try (apply IH; intros j q; apply (Hnohold (Datatypes.S j) q)).
      by destruct (Hnohold 0 p).
    + apply (Hquiet (mkState ch dn (<[i := Holding p]> cs))). by apply serve_checkout.
  - exfalso. apply Hgave; [done|]. by eapply list_elem_of_lookup_2.
Qed.

(** What a step does to a call that holds an entry, and to one that waits. *)
Lemma step_holder s s' i p :
  step s s' → callers s !! i = Some (Holding p) →
  callers s' !! i = Some (Holding p) ∨
  (callers s' !! i = Some Served ∧ chan s' = chan s ++ [p]).
Proof.
  intros [Hs|Hs] Hi;
    [destruct Hs as [j q ch dn cs Hj|j q ch dn cs Hj Hroom]
    |destruct Hs as [ch cs|j ch cs Hj]]; simpl in *.
  - left. rewrite list_lookup_insert_ne; [done|]. intros ->. congruence.
  - destruct (decide (j = i)) as [->|Hne].
    + right. rewrite list_lookup_insert_eq by (by eapply lookup_lt_Some).
      split; [done|]. congruence.
    + left. by rewrite list_lookup_insert_ne.
  - by left.
  - left. rewrite list_lookup_insert_ne; [done|]. intros ->. congruence.
Qed.

Lemma step_waiter s s' i :
  step s s' → callers s !! i = Some Waiting →
  callers s' !! i = Some Waiting ∨
  (∃ p, callers s' !! i = Some (Holding p) ∧ chan s = p :: chan s') ∨
  (callers s' !! i = Some GaveUp ∧ ctx_done s = true).
Proof.
  intros [Hs|Hs] Hi;
    [destruct Hs as [j q ch dn cs Hj|j q ch dn cs Hj Hroom]
    |destruct Hs as [ch cs|j ch cs Hj]]; simpl in *.
  - destruct (decide (j = i)) as [->|Hne].
    + right. left. exists q. by rewrite list_lookup_insert_eq by (by eapply lookup_lt_Some).
    + left. by rewrite list_lookup_insert_ne.
  - left. rewrite list_lookup_insert_ne; [done|]. intros ->. congruence.
  - by left.
  - destruct (decide (j = i)) as [->|Hne].
    + right. right. by rewrite list_lookup_insert_eq by (by eapply lookup_lt_Some).
    + left. by rewrite list_lookup_insert_ne.
Qed.

(** A call that gave up stays so. *)
Lemma gave_up_forever s s' i :
  rtc step s s' → callers s !! i = Some GaveUp → callers s' !! i = Some GaveUp.
Proof.
  induction 1 as [|s s1 s' Hstep _ IH]; [done|]. intros Hi. apply IH.
  destruct Hstep as [Hs|Hs];
    [destruct Hs as [j q ch dn cs Hj|j q ch dn cs Hj Hroom]
    |destruct Hs as [ch cs|j ch cs Hj]]; simpl in *; try done;
    (rewrite list_lookup_insert_ne; [done|]; intros ->; congruence).
Qed.

(** C9, as amended.  However the calls interleave: at most 16 of them run
    their callback with an entry at any moment, the pool holds at most 16
    entries, and no entry is in two places; a call that holds an entry ends
    only by sending it back, which never blocks; a blocked call takes an
    entry from the pool or, once the handle's context is done, gives up;
    every step uses up one of the finitely many steps the calls have left;
    and while the context is not done, the calls can only come to rest with
    every one of them served. *)
Theorem client_pool_bounded :
  (∀ n s, reachable n s →
     length (holding s) ≤ parallelClients ∧ length (chan s) ≤ parallelClients ∧
     NoDup (chan s ++ holding s)) ∧
  (∀ s s' i p, step s s' → callers s !! i = Some (Holding p) →
     callers s' !! i = Some (Holding p) ∨
     (callers s' !! i = Some Served ∧ chan s' = chan s ++ [p])) ∧
  (∀ n s i p, reachable n s → callers s !! i = Some (Holding p) →
     ∃ s', serve s s' ∧ callers s' !! i = Some Served) ∧
  (∀ s s' i, step s s' → callers s !! i = Some Waiting →
     callers s' !! i = Some Waiting ∨
     (∃ p, callers s' !! i = Some (Holding p) ∧ chan s = p :: chan s') ∨
     (callers s' !! i = Some GaveUp ∧ ctx_done s = true)) ∧
  (∀ s s', step s s' → measure s' < measure s) ∧
  (∀ n s, reachable n s → ctx_done s = false → (∀ s', ¬ serve s s') →
     callers s = replicate n Served).
Proof.
  split_and!.
  - intros n s Hr. pose proof (inv_reachable n s Hr) as Hinv.
    pose proof (inv_sizes n s Hinv). destruct Hinv as (Hperm & _).
    split_and!; [lia|lia|]. rewrite Hperm. apply NoDup_seq.
  - apply step_holder.
  - apply return_enabled.
  - apply step_waiter.
  - apply step_measure.
  - apply all_served.
Qed.

(** C9 fails as stated: seventeen calls, sixteen of which take the entries;
    the context ends and the seventeenth, blocked, gives up: it is never
    served. *)
Lemma blocked_caller_gives_up :
  ∃ s, reachable 17 s ∧ length (holding s) = parallelClients ∧
       callers s !! 16 = Some GaveUp ∧
       ∀ s', rtc step s s' → callers s' !! 16 = Some GaveUp.
Proof.
  exists (mkState [] true ((Holding <$> seq 0 16) ++ [GaveUp])).
  split_and!; [|done|done|intros s' Hs'; by apply (gave_up_forever _ _ 16 Hs')].
  unfold reachable.
  assert (Htake : ∀ m, m ≤ 16 →
    rtc step (start 17)
      (mkState (seq m (16 - m)) false ((Holding <$> seq 0 m) ++ replicate (17 - m) Waiting))).
  { induction m as [|m IH]; intros Hm; [done|].
    eapply rtc_r; [apply IH; lia|]. left.
    replace (seq m (16 - m)) with (m :: seq (Datatypes.S m) (16 - Datatypes.S m))
      by (replace (16 - m) with (Datatypes.S (16 - Datatypes.S m)) by lia; done).
    replace ((Holding <$> seq 0 (Datatypes.S m)) ++ replicate (17 - Datatypes.S m) Waiting)
      with (<[m := Holding m]> ((Holding <$> seq 0 m) ++ replicate (17 - m) Waiting)).
    - apply serve_checkout. rewrite lookup_app_r; rewrite length_fmap, length_seq; [|lia].
      apply lookup_replicate. split; [done|lia].
    - rewrite seq_S, fmap_app, <- app_assoc. simpl.
      rewrite insert_app_r_alt; rewrite length_fmap, length_seq; [|lia].
      rewrite Nat.sub_diag.
      replace (17 - m) with (Datatypes.S (17 - Datatypes.S m)) by lia. done. }
  eapply rtc_r; [eapply rtc_r; [apply (Htake 16); lia|]|].
  - right. apply cancel_ctx.
  - right. exact (cancel_give_up 16 [] ((Holding <$> seq 0 16) ++ [Waiting]) eq_refl).
Qed.
End PoolFacts.

(** * Further properties *)

(** ** Single calls *)

(** X1.  [GetSingleObject] returns an object exactly when it returns no
    error; it sends at most one request, a get for the ref's name, and its
    warnings are the warning headers of that request's reply (none when no
    request was sent). *)
Theorem GetSingleObject_shape (k : K8sCluster) (ref : ObjectRef) (w : World) :
  let '(o, ws, err) := (GetSingleObject k ref w).1 in
  (is_Some o ↔ err = None) ∧
  (sent_by (GetSingleObject k ref) w = [] ∧ ws = [] ∧ is_Some err ∨
   ∃ t, sent_by (GetSingleObject k ref) w = [Sent (GetReq t (Name ref))] ∧
        ws = reply_warnings (reply_at w (Datatypes.S (clock w)) (GetReq t (Name ref))) ∧
        err = reply_err (reply_at w (Datatypes.S (clock w)) (GetReq t (Name ref)))).
Proof.
  unfold sent_by. rewrite GetSingleObject_run.
  destruct (checkout_at w (clock w)).
  - destruct (GetGVRForGVK _ _) as [[gvr ns]|e]; simpl.
    + split.
      * destruct (reply_err _); split; intros H; try done; by destruct H.
      * right. eexists. split_and!; try done. by trace_done.
    + split; [split; intros H; [by destruct H|done]|]. left. by trace_done.
  - simpl. split; [split; intros H; [by destruct H|done]|]. left. by trace_done.
Qed.

Lemma String_length_app (a b : string) :
  String.length (a +:+ b) = String.length a + String.length b.
Proof.
  induction a as [|x a IH]; [done|].
  change (Datatypes.S (String.length (a +:+ b)) = Datatypes.S (String.length a) + String.length b).
  by rewrite IH.
Qed.

Lemma String_app_assoc (a b c : string) : (a +:+ b) +:+ c = a +:+ (b +:+ c).
Proof.
  induction a as [|x a IH]; [done|].
  change (String x ((a +:+ b) +:+ c) = String x (a +:+ (b +:+ c))). by rewrite IH.
Qed.

Lemma buildLabelSelector_from_nonempty ret labels :
  String.length ret ≠ 0 → labels ≠ [] →
  buildLabelSelector_from ret labels = ret +:+ "," +:+ join_labels labels.
Proof.
  revert ret. induction labels as [|[k v] rest IH]; intros ret Hret Hne; [done|].
  cbn [buildLabelSelector_from]. rewrite bool_decide_true by done.
  destruct rest as [|kv rest].
  - cbn [buildLabelSelector_from join_labels]. by rewrite !String_app_assoc.
  - rewrite IH; [|rewrite !String_length_app; simpl; lia|done].
    cbn [join_labels]. destruct kv. by rewrite !String_app_assoc.
Qed.

(** X2.  [buildLabelSelector] is the [k=v] pairs in the order visited,
    separated by commas, with no comma before the first or after the last;
    it is empty for no labels. *)
Theorem buildLabelSelector_join (labels : list (string * string)) :
  buildLabelSelector labels = join_labels labels.
Proof.
  unfold buildLabelSelector. destruct labels as [|[k v] rest]; [done|].
  cbn [buildLabelSelector_from]. rewrite bool_decide_false by (simpl; lia).
  destruct rest as [|kv rest]; [done|].
  rewrite buildLabelSelector_from_nonempty; [|rewrite !String_length_app; simpl; lia|done].
  cbn [join_labels]. destruct kv. by rewrite !String_app_assoc.
Qed.

(** ** Fan-out, further *)

Lemma FindStrInSlice_spec a s :
  (-1 ≤ FindStrInSlice a s)%Z ∧ (FindStrInSlice a s = (-1)%Z ↔ s ∉ a).
Proof.
  induction a as [|x a [IHb IHe]]; simpl.
  - split; [lia|]. split; [intros _; apply not_elem_of_nil|done].
  - destruct (decide (x = s)) as [->|Hne].
    + split; [lia|]. split; [done|]. intros Hn. exfalso. apply Hn. by left.
    + destruct (decide (FindStrInSlice a s = (-1)%Z)) as [Heq|Hneq].
      * split; [lia|]. split; [|done]. intros _. apply not_elem_of_cons.
        split; [congruence|by apply IHe].
      * split; [lia|]. split; [lia|]. intros Hn. exfalso. apply Hneq, IHe.
        intros Hin. apply Hn. by right.
Qed.

Lemma verb_filter_spec verbs ar :
  verb_filter verbs ar = true ↔ ∃ v, v ∈ verbs ∧ v ∈ ar_verbs ar.
Proof.
  unfold verb_filter. rewrite existsb_exists. split.
  - intros (v & Hv & Hf). exists v. split; [by apply list_elem_of_In|].
    apply negb_true_iff, bool_decide_eq_false in Hf.
    destruct (decide (v ∈ ar_verbs ar)) as [|Hn]; [done|].
    exfalso. apply Hf. by apply FindStrInSlice_spec.
  - intros (v & Hv & Hin). exists v. split; [by apply list_elem_of_In|].
    apply negb_true_iff, bool_decide_eq_false. intros Hf.
    by apply FindStrInSlice_spec in Hf.
Qed.

Lemma ListAllObjects_units_no_verb k w env : ListAllObjects_units k [] w env = [].
Proof.
  unfold ListAllObjects_units, GetFilteredPreferredGVKs.
  induction (discovered (resolver k w)) as [|ar l IH]; [done|].
  simpl. rewrite andb_false_r. exact IH.
Qed.

(** X3.  [ListAllObjects] only submits work for kinds its resolver holds as
    preferred, that support at least one of the requested verbs and that are
    not the deprecated extensions/Ingress; with no verb requested it submits
    nothing. *)
Theorem ListAllObjects_units_supported (k : K8sCluster) (verbs : list string) (w : World)
    (env : GroupVersionKind → World) :
  (∀ t, t ∈ ListAllObjects_units k verbs w env →
     t.2 = env t.1 ∧
     (Group t.1, Kind t.1) ≠ ("extensions", "Ingress") ∧
     ∃ ar, ar ∈ discovered (resolver k w) ∧ ar_gvk ar = t.1 ∧ ar_preferred ar = true ∧
           ∃ v, v ∈ verbs ∧ v ∈ ar_verbs ar) ∧
  ListAllObjects_units k [] w env = [].
Proof.
  split.
  - intros t Ht. unfold ListAllObjects_units, GetFilteredPreferredGVKs in Ht.
    apply list_elem_of_fmap in Ht as (gvk & -> & Hgvk).
    apply list_elem_of_fmap in Hgvk as (ar & -> & Har).
    apply list_elem_of_In, filter_In in Har as [Hin Hf].
    apply andb_true_iff in Hf as [Hf Hverb]. apply andb_true_iff in Hf as [Hpref Hdep].
    simpl. split_and!; [done| |].
    + apply negb_true_iff, bool_decide_eq_false in Hdep.
      intros Heq. apply Hdep. rewrite Heq. by left.
    + exists ar. split_and!; [by apply list_elem_of_In|done|done|by apply verb_filter_spec].
  - apply ListAllObjects_units_no_verb.
Qed.

(** X4.  When the list call of some kind fails with anything but "not
    found", "no matching kind" included, [ListAllObjects] returns no objects
    and such an error of one of its list calls. *)
Theorem ListAllObjects_hard_error (k : K8sCluster) (verbs : list string)
    (namespace : string) (labels : list (string * string)) (onlyMetadata : bool)
    (w : World) (env : GroupVersionKind → World) (t : GroupVersionKind * World) (e : error) :
  let result := list_result k namespace labels onlyMetadata in
  t ∈ ListAllObjects_units k verbs w env →
  (result t).2 = Some e → IsNotFound e = false →
  ListAllObjects k verbs namespace labels onlyMetadata w env
    (ListAllObjects_in_order k verbs namespace labels onlyMetadata w env) ∧
  ∀ res, ListAllObjects k verbs namespace labels onlyMetadata w env res →
    res.1.1 = [] ∧
    ∃ e' t', res.2 = Some e' ∧ t' ∈ ListAllObjects_units k verbs w env ∧
             (result t').2 = Some e' ∧ IsNotFound e' = false.
Proof.
  intros result Ht He Hnf. split; [apply ListAllObjects_in_order_returns|].
  intros res Hres.
  assert (Hfail : is_Some (list_failure (result t)))
    by (exists e; unfold list_failure; by rewrite He, Hnf).
  destruct (ListAllObjects_failure k verbs namespace labels onlyMetadata w env res t Ht Hfail Hres)
    as (dn & e' & t' & Hsub & Ht' & He' & ->).
  split; [done|]. exists e', t'. split_and!; [done|by apply Hsub| |].
  - fold result in He'. unfold list_failure in He'.
    destruct ((result t').2) as [e0|]; [|done].
    destruct (IsNotFound e0) eqn:H0; [done|]. by injection He' as ->.
  - fold result in He'. unfold list_failure in He'.
    destruct ((result t').2) as [e0|]; [|done].
    destruct (IsNotFound e0) eqn:H0; [done|]. by injection He' as <-.
Qed.

(** X5.  [GetObjectsByRefs] skips every ref whose lookup fails with "not
    found" or with "no matching kind": when no lookup fails otherwise, it
    returns a nil error and, in some order, the objects of the lookups that
    succeeded. *)
Theorem GetObjectsByRefs_skips_absent (k : K8sCluster) (refs : list (ObjectRef * World)) :
  Forall (fun t => ∀ e, (lookup_result k t).2 = Some e →
                        IsNotFound e = true ∨ IsNoMatchError e = true) refs →
  GetObjectsByRefs k refs (GetObjectsByRefs_in_order k refs) ∧
  ∀ res, GetObjectsByRefs k refs res →
    res.2 = None ∧
    res.1.1 ≡ₚ (fun t => (lookup_result k t).1.1)
                 <$> List.filter (fun t => bool_decide ((lookup_result k t).2 = None)) refs.
Proof.
  intros Hok. split; [apply GetObjectsByRefs_in_order_returns|].
  intros res Hres.
  assert (Hnone : Forall (fun t => lookup_failure k t = None) refs).
  { eapply Forall_impl; [exact Hok|]. intros t Ht. unfold lookup_failure.
    destruct ((lookup_result k t).2) as [e|] eqn:He; [|done].
    destruct (Ht e He) as [-> | ->]; [done|by rewrite orb_true_r]. }
  destruct (GetObjectsByRefs_no_failure k refs res Hnone Hres) as (Herr & Hobjs & _).
  split; [done|]. rewrite Hobjs. clear.
  induction refs as [|t refs IH]; [done|]. csimpl.
  unfold lookup_object at 1. destruct ((lookup_result k t).2) as [e|]; csimpl.
  - done.
  - by rewrite IH.
Qed.

(** X6.  With nothing to look up, [GetObjectsByRefs] returns no objects, no
    warnings and no error; so does [ListAllObjects] with no verb. *)
Theorem fanout_of_nothing (k : K8sCluster) (namespace : string)
    (labels : list (string * string)) (onlyMetadata : bool) (w : World)
    (env : GroupVersionKind → World) :
  (∀ res, GetObjectsByRefs k [] res ↔ res = ([], ∅, None)) ∧
  (∀ res, ListAllObjects k [] namespace labels onlyMetadata w env res ↔ res = ([], ∅, None)).
Proof.
  split; intros res; split.
  - intros (dn & started & rest & Hnil & Hperm & _ & ->)%GetObjectsByRefs_inv.
    symmetry in Hnil. apply app_eq_nil in Hnil as [-> ->].
    apply Permutation_nil_l in Hperm. by subst dn.
  - intros ->. apply (GetObjectsByRefs_in_order_returns k []).
  - intros (dn & started & rest & Hnil & Hperm & _ & ->)%ListAllObjects_inv.
    rewrite ListAllObjects_units_no_verb in Hnil.
    symmetry in Hnil. apply app_eq_nil in Hnil as [-> ->].
    apply Permutation_nil_l in Hperm. by subst dn.
  - intros ->.
    pose proof (ListAllObjects_in_order_returns k [] namespace labels onlyMetadata w env) as H.
    unfold ListAllObjects_in_order in H.
    by rewrite ListAllObjects_units_no_verb in H.
Qed.

(** ** Traces of composed calls *)

Lemma grows_intro {A} (m : M A) w l : trace (m w).2 = trace w ++ l → grows m w.
Proof. intros H. unfold grows. by rewrite (sent_by_app m w l H). Qed.

Lemma grows_ret {A} (a : A) w : grows (mret a) w ∧ sent_by (mret a) w = [].
Proof.
  assert (H : trace (mret a w).2 = trace w ++ []) by (simpl; by rewrite app_nil_r).
  split; [by eapply grows_intro|by apply sent_by_app].
Qed.

Lemma grows_bind {A B} (m : M A) (f : A → M B) w :
  grows m w → grows (f (m w).1) (m w).2 →
  grows (mbind m f) w ∧
  sent_by (mbind m f) w = sent_by m w ++ sent_by (f (m w).1) (m w).2.
Proof.
  unfold grows. intros Hm Hf.
  assert (H : trace (mbind m f w).2 =
              trace w ++ sent_by m w ++ sent_by (f (m w).1) (m w).2).
  { unfold mbind. destruct (m w) as [a w1]. simpl in *. rewrite Hf, Hm.
    by rewrite <- app_assoc. }
  split; [by eapply grows_intro|by apply sent_by_app].
Qed.

Lemma GetSingleObject_grows k ref w : grows (GetSingleObject k ref) w.
Proof. destruct (GetSingleObject_trace k ref w) as (l & Hl & _). by eapply grows_intro. Qed.

(** ** Deleting, further *)

(** X7.  In dry-run or with no-wait, [DeleteSingleObject] is its delete
    request alone: it returns that request's warnings and error and never
    polls, whatever the bound on the polls. *)
Theorem DeleteSingleObject_without_wait (fuel : nat) (k : K8sCluster) (ref : ObjectRef)
    (options : DeleteOptions) (w : World) :
  DryRun k || del_ForceDryRun options = true ∨ NoWait options = true →
  let o := mkDeleteOpts (Some "Foreground") (directive (DryRun k || del_ForceDryRun options)) in
  let sent := sendDelete k ref options o w in
  DeleteSingleObject fuel k ref options w = (Some (sent.1.1.1, sent.1.1.2), sent.2).
Proof.
  intros Hmode o sent. unfold DeleteSingleObject, mbind. fold (directive (DryRun k || del_ForceDryRun options)).
  fold o. subst sent. destruct (sendDelete k ref options o w) as [[[ws err] []] w1]. simpl.
  destruct err as [err|]; [done|].
  assert (negb (DryRun k || del_ForceDryRun options) && negb (NoWait options) = false) as ->.
  { destruct Hmode as [-> | ->]; [done|by rewrite andb_false_r]. }
  done.
Qed.

(** X8.  When the server answers the delete request with "not found", the
    call returns that error and does not poll, unless the caller asked to
    ignore it, in which case the request counts as accepted. *)
Theorem DeleteSingleObject_not_found (fuel : nat) (k : K8sCluster) (ref : ObjectRef)
    (options : DeleteOptions) (w : World) (gvr : GroupVersionResource) (namespaced : bool)
    (e : error) :
  let o := mkDeleteOpts (Some "Foreground") (directive (DryRun k || del_ForceDryRun options)) in
  let req := DeleteReq (target_for namespaced gvr (Namespace ref)) (Name ref) o in
  let x := reply_at w (Datatypes.S (clock w)) req in
  checkout_at w (clock w) = ClientReady →
  GetGVRForGVK (resolver k (advance [] w)) (GVK ref) = inl (gvr, namespaced) →
  reply_err x = Some e → IsNotFound e = true →
  (IgnoreNotFoundError options = false →
     DeleteSingleObject fuel k ref options w =
     (Some (reply_warnings x, Some e), advance [Sent req] (advance [] w))) ∧
  (IgnoreNotFoundError options = true →
     sendDelete k ref options o w =
     ((reply_warnings x, None, tt), advance [Sent req] (advance [] w))).
Proof.
  intros o req x Hc Hr He Hnf. split; intros Hign.
  - unfold DeleteSingleObject, mbind.
    fold (directive (DryRun k || del_ForceDryRun options)). fold o.
    rewrite sendDelete_run, Hc, Hr. cbv zeta. fold req. fold x. by rewrite He, Hign.
  - rewrite sendDelete_run, Hc, Hr. cbv zeta. fold req. fold x. by rewrite He, Hign, Hnf.
Qed.

Lemma poll_of_ext k ref w w' e :
  resources_at w' = resources_at w → poll_of k ref w' e → poll_of k ref w e.
Proof.
  intros Hr. destruct e as [[]|]; simpl; try done.
  intros [(n & gvr & ns & Hg & ->) ->]. split; [|done].
  exists n, gvr, ns. by rewrite <- Hr.
Qed.

Lemma GetSingleObject_polls k ref w :
  ∃ l, trace (GetSingleObject k ref w).2 = trace w ++ l ∧
       resources_at (GetSingleObject k ref w).2 = resources_at w ∧
       Forall (poll_of k ref w) l.
Proof.
  rewrite GetSingleObject_run.
  destruct (checkout_at w (clock w)).
  - destruct (GetGVRForGVK _ _) as [[gvr ns]|err] eqn:Hr; simpl.
    + eexists [_]. rewrite app_nil_r. split; [done|]. split; [done|].
      repeat constructor. exists (Datatypes.S (clock w)), gvr, ns. by split.
    + exists []. by rewrite app_nil_r.
  - exists []. simpl. by rewrite app_nil_r.
Qed.

Lemma waitForDeletedObject_polls_ref fuel k ref w :
  ∃ l, trace (waitForDeletedObject fuel k ref w).2 = trace w ++ l ∧
       resources_at (waitForDeletedObject fuel k ref w).2 = resources_at w ∧
       Forall (poll_of k ref w) l.
Proof.
  revert w. induction fuel as [|fuel IH]; intros w; simpl.
  - exists []. unfold mret. simpl. by rewrite app_nil_r.
  - unfold mbind.
    destruct (GetSingleObject_polls k ref w) as (l1 & Hl1 & Hr1 & Hp1).
    destruct (GetSingleObject k ref w) as [[[o ws] err] w1]. simpl in Hl1, Hr1.
    destruct err as [err|].
    + exists l1. by destruct (IsNotFound err).
    + destruct (wait_at w1 (clock w1)).
      * destruct (IH (advance [After pollInterval] w1)) as (l2 & Hl2 & Hr2 & Hp2).
        exists (l1 ++ After pollInterval :: l2). split_and!.
        -- rewrite Hl2. simpl. rewrite Hl1. by rewrite <- !app_assoc.
        -- by rewrite Hr2.
        -- apply Forall_app. split; [done|]. constructor; [done|].
           eapply Forall_impl; [exact Hp2|]. intros e. by apply poll_of_ext.
      * exists (l1 ++ [After pollInterval]). simpl. rewrite Hl1.
        split_and!; [by rewrite <- app_assoc|done|].
        apply Forall_app. split; [done|]. by repeat constructor.
Qed.

(** X9.  Whatever its options, [DeleteSingleObject] sends at most one
    delete request, first, for the ref's name on the ref's resource and
    always with foreground propagation, and then nothing but gets of the
    same name on the ref's resource, 500 ms timers between them. *)
Theorem DeleteSingleObject_sends (fuel : nat) (k : K8sCluster) (ref : ObjectRef)
    (options : DeleteOptions) (w : World) :
  Forall (delete_or_get k ref w) (sent_by (DeleteSingleObject fuel k ref options) w) ∧
  Forall (poll_of k ref w) (tail (sent_by (DeleteSingleObject fuel k ref options) w)).
Proof.
  unfold sent_by, DeleteSingleObject, mbind. rewrite sendDelete_run.
  destruct (checkout_at w (clock w)); [|unfold mret; simpl; by trace_done].
  destruct (GetGVRForGVK _ _) as [[gvr ns]|err] eqn:Hres;
    [|unfold mret; simpl; by trace_done].
  cbv zeta. set (req := DeleteReq _ _ _). set (w1 := advance [Sent req] _).
  assert (Hw1 : trace w1 = trace w ++ [Sent req])
    by (subst w1; simpl; by rewrite app_nil_r).
  assert (Hr1 : resources_at w1 = resources_at w) by done.
  assert (Hreq : delete_or_get k ref w (Sent req)).
  { split_and!; [|done|done]. exists (Datatypes.S (clock w)), gvr, ns. by split. }
  clearbody w1.
  assert (H1 : Forall (delete_or_get k ref w) (drop (length (trace w)) (trace w1)) ∧
               Forall (poll_of k ref w) (tail (drop (length (trace w)) (trace w1))))
    by (rewrite Hw1, drop_app_length; split; [by constructor|constructor]).
  assert (Hwait : ∀ (f : option (option error) → M (option (list ApiWarning * option error))),
            (∀ r w', f r w' = ((f r w').1, w')) →
            let l := drop (length (trace w))
                       (trace (mbind (waitForDeletedObject fuel k ref) f w1).2) in
            Forall (delete_or_get k ref w) l ∧ Forall (poll_of k ref w) (tail l)).
  { intros f Hf. unfold mbind.
    destruct (waitForDeletedObject_polls_ref fuel k ref w1) as (l & Hl & _ & Hp).
    destruct (waitForDeletedObject fuel k ref w1) as [r w2]. simpl in Hl.
    rewrite Hf. simpl. rewrite Hl, Hw1, <- app_assoc, drop_app_length. simpl.
    assert (Hp' : Forall (poll_of k ref w) l).
    { eapply Forall_impl; [exact Hp|]. intros e. by apply poll_of_ext. }
    split; [|done]. constructor; [done|].
    eapply Forall_impl; [exact Hp'|]. by intros [[]|]. }
  destruct (reply_err _) as [err|];
    [destruct (IgnoreNotFoundError options && IsNotFound err)|];
    try (unfold mret; simpl; exact H1);
    (destruct (negb _ && negb _); [|unfold mret; simpl; exact H1]);
    (apply Hwait; by intros [[?|]|] ?).
Qed.

Lemma timers_app l1 l2 : timers (l1 ++ l2) = timers l1 + timers l2.
Proof. unfold timers. by rewrite List.filter_app, length_app. Qed.

Lemma GetSingleObject_no_timer k ref w :
  ∃ l, trace (GetSingleObject k ref w).2 = trace w ++ l ∧ timers l = 0.
Proof.
  rewrite GetSingleObject_run.
  destruct (checkout_at w (clock w)).
  - destruct (GetGVRForGVK _ _) as [[gvr ns]|err]; simpl.
    + eexists [_]. by rewrite app_nil_r.
    + exists []. by rewrite app_nil_r.
  - exists []. simpl. by rewrite app_nil_r.
Qed.

Lemma gone_after_timers k ref n w w' :
  gone_after k ref n w w' → ∃ l, trace w' = trace w ++ l ∧ timers l = n.
Proof.
  induction 1 as [w o ws err w' Hget Hnf|n w o ws w' w'' Hget Hwait _ (l & Hl & Hn)].
  - destruct (GetSingleObject_no_timer k ref w) as (l & Hl & Ht).
    rewrite Hget in Hl. by exists l.
  - destruct (GetSingleObject_no_timer k ref w) as (l0 & Hl0 & Ht0).
    rewrite Hget in Hl0. simpl in Hl0, Hl.
    exists (l0 ++ [After pollInterval] ++ l). split.
    + rewrite Hl, Hl0. by rewrite <- !app_assoc.
    + rewrite !timers_app, Ht0, Hn. done.
Qed.

(** X10.  With waiting in effect and the delete request accepted, if the
    object is found by [n] polls, each followed by a full wait, and reported
    gone by the next, then [DeleteSingleObject] returns success, with the
    delete request's warnings, right after that poll and after exactly [n]
    timers. *)
Theorem DeleteSingleObject_returns_when_gone (k : K8sCluster) (ref : ObjectRef)
    (options : DeleteOptions) (w w1 w' : World) (ws : list ApiWarning) (n : nat) :
  DryRun k || del_ForceDryRun options = false →
  NoWait options = false →
  sendDelete k ref options (mkDeleteOpts (Some "Foreground") []) w = ((ws, None, tt), w1) →
  gone_after k ref n w1 w' →
  (∀ fuel, n < fuel →
     DeleteSingleObject fuel k ref options w = (Some (ws, None), w')) ∧
  ∃ l, trace w' = trace w1 ++ l ∧ timers l = n.
Proof.
  intros Hdry Hnowait Hsend Hgone. split; [|by eapply gone_after_timers].
  intros fuel Hlt. unfold DeleteSingleObject, mbind. rewrite Hdry, Hnowait. simpl.
  rewrite Hsend. by rewrite (gone_after_returns _ _ _ _ _ Hgone fuel Hlt).
Qed.

Lemma DeleteSingleObject_returns_when_gone_witness :
  DryRun (ex_cluster false) || del_ForceDryRun wait_options = false ∧
  NoWait wait_options = false ∧
  DeleteSingleObject 3 (ex_cluster false) (ex_ref "web") wait_options world_deleting
  = (Some ([ex_warning], None),
     mkWorld 10
       [Sent (DeleteReq (mkTarget (mkGVR "apps" "v1" "deployments") (Some "default")) "web"
                (mkDeleteOpts (Some "Foreground") []));
        Sent (GetReq (mkTarget (mkGVR "apps" "v1" "deployments") (Some "default")) "web");
        After 500%Z;
        Sent (GetReq (mkTarget (mkGVR "apps" "v1" "deployments") (Some "default")) "web");
        After 500%Z;
        Sent (GetReq (mkTarget (mkGVR "apps" "v1" "deployments") (Some "default")) "web")]
       (checkout_at world_deleting) (reply_at world_deleting) (wait_at world_deleting)
       (resources_at world_deleting)).
Proof.
  split_and!; [reflexivity|reflexivity|].
  refine (proj1 (DeleteSingleObject_returns_when_gone (ex_cluster false) (ex_ref "web")
            wait_options world_deleting _ _ [ex_warning] 2 eq_refl eq_refl eq_refl _) 3 _);
    [|lia].
  eapply gone_later; [reflexivity|reflexivity|].
  eapply gone_later; [reflexivity|reflexivity|].
  eapply gone_now; reflexivity.
Defined.

Lemma found_for_timers k ref n w w' :
  found_for k ref n w w' → ∃ l, trace w' = trace w ++ l ∧ timers l = n.
Proof.
  induction 1 as [w|n w o ws w' w'' Hget Hwait _ (l & Hl & Hn)].
  - exists []. by rewrite app_nil_r.
  - destruct (GetSingleObject_no_timer k ref w) as (l0 & Hl0 & Ht0).
    rewrite Hget in Hl0. simpl in Hl0, Hl.
    exists (l0 ++ [After pollInterval] ++ l). split.
    + rewrite Hl, Hl0. by rewrite <- !app_assoc.
    + rewrite !timers_app, Ht0, Hn. done.
Qed.

(** X11.  With waiting in effect and the delete request accepted, a poll
    that fails with anything but "not found", be it the first or one that
    follows [n] polls that found the object, ends the call with that error,
    as it is, and with the delete request's warnings, not the poll's; [n]
    timers have been taken by then. *)
Theorem DeleteSingleObject_poll_error (k : K8sCluster) (ref : ObjectRef)
    (options : DeleteOptions) (w w1 w2 w3 : World) (ws ws' : list ApiWarning)
    (o : option value) (e : error) (n : nat) :
  DryRun k || del_ForceDryRun options = false →
  NoWait options = false →
  sendDelete k ref options (mkDeleteOpts (Some "Foreground") []) w = ((ws, None, tt), w1) →
  found_for k ref n w1 w2 →
  GetSingleObject k ref w2 = ((o, ws', Some e), w3) →
  IsNotFound e = false →
  (∀ fuel, n < fuel →
     DeleteSingleObject fuel k ref options w = (Some (ws, Some e), w3)) ∧
  ∃ l, trace w3 = trace w1 ++ l ∧ timers l = n.
Proof.
  intros Hdry Hnowait Hsend Hfound Hget Hnf. split.
  - intros fuel Hlt. by eapply DeleteSingleObject_failed_poll.
  - destruct (found_for_timers _ _ _ _ _ Hfound) as (l & Hl & Hn).
    destruct (GetSingleObject_no_timer k ref w2) as (l' & Hl' & Hn').
    rewrite Hget in Hl'. simpl in Hl'.
    exists (l ++ l'). split; [by rewrite Hl', Hl, <- app_assoc|].
    rewrite timers_app. lia.
Qed.

Lemma DeleteSingleObject_poll_error_witness :
  DryRun (ex_cluster false) || del_ForceDryRun wait_options = false ∧
  NoWait wait_options = false ∧
  (DeleteSingleObject 3 (ex_cluster false) (ex_ref "web") wait_options world_poll_refused).1
  = Some ([ex_warning], Some (OtherError "connection refused")).
Proof.
  split_and!; [reflexivity|reflexivity|].
  refine (f_equal fst
            (proj1 (DeleteSingleObject_poll_error (ex_cluster false) (ex_ref "web")
                      wait_options world_poll_refused _ _ _ [ex_warning] [ex_warning] None
                      (OtherError "connection refused") 2
                      eq_refl eq_refl eq_refl _ _ eq_refl) 3 _)); [| |lia].
  - eapply found_more; [reflexivity|reflexivity|].
    eapply found_more; [reflexivity|reflexivity|].
    apply found_none.
  - reflexivity.
Defined.

(** ** Writing, further *)

Section PatchFacts.
Variable GetK8sRef : value → ObjectRef.
Variable WriteYamlBytes : value → string + error.

Lemma PatchObject_run k o options data gvr namespaced w :
  WriteYamlBytes o = inl data →
  checkout_at w (clock w) = ClientReady →
  GetGVRForGVK (resolver k (advance [] w)) (GVK (GetK8sRef o)) = inl (gvr, namespaced) →
  let ref := GetK8sRef o in
  let req := PatchReq (target_for namespaced gvr (Namespace ref)) (Name ref)
               "application/apply-patch+yaml" data
               (mkPatchOpts "kluctl" (directive (DryRun k || patch_ForceDryRun options))
                  (if ForceApply options then Some true else None)) in
  let x := reply_at w (Datatypes.S (clock w)) req in
  PatchObject GetK8sRef WriteYamlBytes k o options w =
  ((match reply_err x with Some _ => None | None => Some (reply_object x) end,
    reply_warnings x,
    match reply_err x with
    | Some e => Some (Errorf "failed to patch %s: %w" (ObjectRef_String ref) e)
    | None => None
    end),
   advance [Sent req] (advance [] w)).
Proof.
  intros Hy Hc Hr. unfold PatchObject, directive, target_for. rewrite Hy.
  unfold withDynamicClientForGVK, withClientFromPool, mbind. rewrite Hc. simpl.
  simpl in Hr. rewrite Hr.
  destruct (namespaced && negb (bool_decide (Namespace (GetK8sRef o) = ""))),
    (ForceApply options) eqn:Hf; unfold roundTrip, mret; simpl;
    destruct (reply_err _); simpl; by rewrite collect_warnings.
Qed.

(** X12.  [PatchObject] gives up before taking a client or sending
    anything when the object has no YAML form.  Once it reaches the server
    it sends one request, an apply patch of that YAML for the ref's name on
    the ref's resource, under the field manager "kluctl", in the mode in
    effect and forced only if the caller asked; it returns what the server
    replied to that request: its warnings, and its object or its error, the
    error wrapped with the ref, which is a not-found error exactly when the
    server's error is.  An error met before the request (no client, no such
    kind) comes back as it is, not wrapped. *)
Theorem PatchObject_outcome (k : K8sCluster) (o : value) (options : PatchOptions) (w : World) :
  let ref := GetK8sRef o in
  let call := PatchObject GetK8sRef WriteYamlBytes k o options in
  (∀ err, WriteYamlBytes o = inr err → call w = ((None, [], Some err), w)) ∧
  (∀ data c,
     WriteYamlBytes o = inl data →
     checkout_at w (clock w) = ClientCtxDone c →
     call w = ((None, [], Some (checkout_timeout c)), advance [] w)) ∧
  (∀ data err,
     WriteYamlBytes o = inl data →
     checkout_at w (clock w) = ClientReady →
     GetGVRForGVK (resolver k (advance [] w)) (GVK ref) = inr err →
     call w = ((None, [], Some err), advance [] w)) ∧
  (∀ data gvr namespaced,
     WriteYamlBytes o = inl data →
     checkout_at w (clock w) = ClientReady →
     GetGVRForGVK (resolver k (advance [] w)) (GVK ref) = inl (gvr, namespaced) →
     let req := PatchReq (target_for namespaced gvr (Namespace ref)) (Name ref)
                  "application/apply-patch+yaml" data
                  (mkPatchOpts "kluctl" (directive (DryRun k || patch_ForceDryRun options))
                     (if ForceApply options then Some true else None)) in
     let x := reply_at w (Datatypes.S (clock w)) req in
     let wrapped e := Errorf "failed to patch %s: %w" (ObjectRef_String ref) e in
     call w =
     ((match reply_err x with Some _ => None | None => Some (reply_object x) end,
       reply_warnings x,
       match reply_err x with Some e => Some (wrapped e) | None => None end),
      advance [Sent req] (advance [] w)) ∧
     sent_by call w = [Sent req] ∧
     ∀ e, IsNotFound (wrapped e) = IsNotFound e).
Proof.
  intros ref call. split_and!.
  - intros err Hy. unfold call, PatchObject. by rewrite Hy.
  - intros data c Hy Hc. unfold call, PatchObject. rewrite Hy.
    unfold withDynamicClientForGVK, withClientFromPool, mbind. by rewrite Hc.
  - intros data err Hy Hc Hr. unfold call, PatchObject. rewrite Hy.
    unfold withDynamicClientForGVK, withClientFromPool, mbind. rewrite Hc. simpl.
    simpl in Hr. fold ref. by rewrite Hr.
  - intros data gvr namespaced Hy Hc Hr req x wrapped.
    pose proof (PatchObject_run k o options data gvr namespaced w Hy Hc Hr) as Hrun.
    cbv zeta in Hrun. split_and!.
    + exact Hrun.
    + unfold sent_by, call. rewrite Hrun. simpl. by trace_done.
    + done.
Qed.

Lemma PatchObject_grows k o options w :
  grows (PatchObject GetK8sRef WriteYamlBytes k o options) w.
Proof.
  assert (∃ l, trace (PatchObject GetK8sRef WriteYamlBytes k o options w).2 = trace w ++ l)
    as [l Hl]; [|by eapply grows_intro].
  unfold PatchObject. destruct (WriteYamlBytes o) as [data|err].
  - run_call; eexists; first [reflexivity | rewrite app_nil_r; reflexivity].
  - exists []. unfold mret. simpl. by rewrite app_nil_r.
Qed.
End PatchFacts.

(** ** Bootstrapping sealed-secrets *)

Lemma GetSingleObject_writes_nothing k ref w :
  write_directives (sent_by (GetSingleObject k ref) w) = [].
Proof.
  destruct (GetSingleObject_trace k ref w) as (l & Hl & Hp).
  rewrite (sent_by_app _ _ _ Hl). by apply poll_events_write_nothing.
Qed.

Lemma one_write_cases k ref w d : one_write k ref w d = [] ∨ one_write k ref w d = [directive d].
Proof.
  unfold one_write. destruct (checkout_at w (clock w)); [|by left].
  destruct (GetGVRForGVK _ _); [by right|by left].
Qed.

Section BootstrapFacts.
Variable GetK8sRef : value → ObjectRef.
Variable WriteYamlBytes : value → string + error.
Variable generated : option error.
Variable secret configMap : value.

Local Abbreviation patch k o :=
  (PatchObject GetK8sRef WriteYamlBytes k o (mkPatchOptions false false)).
Local Abbreviation bootstrap k namespace :=
  (BootstrapSealedSecrets GetK8sRef WriteYamlBytes generated secret configMap k namespace).

Lemma patch_writes k o w :
  write_directives (sent_by (patch k o) w) = [] ∨
  write_directives (sent_by (patch k o) w) = [directive (DryRun k)].
Proof.
  rewrite PatchObject_writes. simpl. rewrite orb_false_r.
  destruct (WriteYamlBytes o); [apply one_write_cases|by left].
Qed.

Lemma writeKey_sent k w :
  grows (writeKey GetK8sRef WriteYamlBytes secret configMap k) w ∧
  sent_by (writeKey GetK8sRef WriteYamlBytes secret configMap k) w =
  sent_by (patch k secret) w ++
  match (patch k secret w).1.2 with
  | Some _ => []
  | None => sent_by (patch k configMap) (patch k secret w).2
  end.
Proof.
  unfold writeKey.
  match goal with |- context [mbind ?m ?f] =>
    destruct (grows_bind m f w (PatchObject_grows _ _ _ _ _ _)) as [Hg ->] end.
  - destruct (patch k secret w) as [[[r ws] err] w1]. cbn [fst snd].
    destruct err as [err|]; [apply grows_ret|].
    apply grows_bind; [apply PatchObject_grows|].
    destruct (patch k configMap w1) as [[[r' ws'] [err'|]] w2]; apply grows_ret.
  - split; [done|]. f_equal.
    destruct (patch k secret w) as [[[r ws] err] w1]. cbn [fst snd].
    destruct err as [err|]; [apply grows_ret|].
    match goal with |- context [mbind ?m ?f] =>
      destruct (grows_bind m f w1 (PatchObject_grows _ _ _ _ _ _)) as [_ ->] end.
    + destruct (patch k configMap w1) as [[[r' ws'] [err'|]] w2]; apply grows_ret.
    + destruct (patch k configMap w1) as [[[r' ws'] [err'|]] w2]; cbn [fst snd];
        rewrite (proj2 (grows_ret _ _)); by rewrite app_nil_r.
Qed.

(** X13.  [BootstrapSealedSecrets] writes nothing and returns nil when the
    sealed-secrets CRD or, failing that, the bootstrap config map is already
    there; the errors of the two lookups are not looked at: a lookup that
    fails counts as "not there", and with both absent a key is generated,
    whose failure is returned before anything is written. *)
Theorem BootstrapSealedSecrets_lookups (k : K8sCluster) (namespace : string) (w : World) :
  let crd := GetSingleObject k sealedSecretsCRD w in
  let cm := GetSingleObject k (bootstrapConfigMap namespace) crd.2 in
  (is_Some crd.1.1.1 → bootstrap k namespace w = (None, crd.2)) ∧
  (crd.1.1.1 = None → is_Some cm.1.1.1 → bootstrap k namespace w = (None, cm.2)) ∧
  (crd.1.1.1 = None → cm.1.1.1 = None → ∀ err, generated = Some err →
     bootstrap k namespace w = (Some err, cm.2)) ∧
  (is_Some crd.1.1.1 ∨ is_Some cm.1.1.1 ∨ is_Some generated →
     write_directives (sent_by (bootstrap k namespace) w) = []).
Proof.
  intros crd cm.
  assert (Hrun : bootstrap k namespace w =
            match crd.1.1.1 with
            | Some _ => (None, crd.2)
            | None =>
                match cm.1.1.1 with
                | Some _ => (None, cm.2)
                | None =>
                    match generated with
                    | Some err => (Some err, cm.2)
                    | None => writeKey GetK8sRef WriteYamlBytes secret configMap k cm.2
                    end
                end
            end).
  { unfold BootstrapSealedSecrets, mbind. subst cm crd.
    destruct (GetSingleObject k sealedSecretsCRD w) as [[[o1 ws1] e1] w1]. cbn [fst snd].
    destruct o1; [done|].
    destruct (GetSingleObject k (bootstrapConfigMap namespace) w1) as [[[o2 ws2] e2] w2].
    cbn [fst snd]. destruct o2; [done|]. by destruct generated. }
  assert (Hcrd : write_directives (drop (length (trace w)) (trace crd.2)) = [])
    by apply GetSingleObject_writes_nothing.
  assert (Hcm : write_directives (drop (length (trace w)) (trace cm.2)) = []).
  { destruct (GetSingleObject_trace k sealedSecretsCRD w) as (l1 & Hl1 & Hp1).
    destruct (GetSingleObject_trace k (bootstrapConfigMap namespace) crd.2) as (l2 & Hl2 & Hp2).
    fold crd in Hl1. fold cm in Hl2. rewrite Hl2, Hl1, <- app_assoc, drop_app_length.
    apply poll_events_write_nothing, Forall_app. by split. }
  split_and!.
  - intros [x Hx]. by rewrite Hrun, Hx.
  - intros H1 [x Hx]. by rewrite Hrun, H1, Hx.
  - intros H1 H2 err Hg. by rewrite Hrun, H1, H2, Hg.
  - intros Hany. unfold sent_by. rewrite Hrun.
    destruct (crd.1.1.1) as [x1|]; [done|].
    destruct (cm.1.1.1) as [x2|]; [done|].
    destruct generated as [err|]; [done|].
    destruct Hany as [[? ?]|[[? ?]|[? ?]]]; done.
Qed.

(** X14.  Whatever [BootstrapSealedSecrets] writes, it writes in the
    handle's mode (with the dry-run directive exactly on a dry-run handle),
    with at most two write requests: the secret first, and the config map
    only if patching the secret returned no error. *)
Theorem BootstrapSealedSecrets_writes (k : K8sCluster) (namespace : string) (w : World) :
  Forall (eq (directive (DryRun k))) (write_directives (sent_by (bootstrap k namespace) w)) ∧
  length (write_directives (sent_by (bootstrap k namespace) w)) ≤ 2 ∧
  (∀ w1 err, (patch k secret w1).1.2 = Some err →
     (writeKey GetK8sRef WriteYamlBytes secret configMap k w1).1 = Some err ∧
     sent_by (writeKey GetK8sRef WriteYamlBytes secret configMap k) w1 =
     sent_by (patch k secret) w1).
Proof.
  assert (Hwk : ∀ w1,
    let l := write_directives (sent_by (writeKey GetK8sRef WriteYamlBytes secret configMap k) w1) in
    Forall (eq (directive (DryRun k))) l ∧ length l ≤ 2).
  { intros w1 l. subst l. rewrite (proj2 (writeKey_sent k w1)).
    unfold write_directives. rewrite omap_app. fold write_directives.
    pose proof (patch_writes k secret w1) as H1.
    fold (write_directives (sent_by (patch k secret) w1)).
    destruct ((patch k secret w1).1.2).
    - simpl. rewrite app_nil_r. destruct H1 as [-> | ->]; split; simpl; try lia;
        by repeat constructor.
    - fold (write_directives (sent_by (patch k configMap) (patch k secret w1).2)).
      pose proof (patch_writes k configMap (patch k secret w1).2) as H2.
      destruct H1 as [-> | ->], H2 as [-> | ->]; split; simpl; try lia;
        by repeat constructor. }
  assert (Hsent : ∃ l0 l1, sent_by (bootstrap k namespace) w = l0 ++ l1 ∧
            write_directives l0 = [] ∧
            Forall (eq (directive (DryRun k))) (write_directives l1) ∧
            length (write_directives l1) ≤ 2).
  { unfold BootstrapSealedSecrets.
    match goal with |- context [mbind ?m ?f] =>
      destruct (grows_bind m f w (GetSingleObject_grows _ _ _)) as [_ ->] end.
    - destruct (GetSingleObject k sealedSecretsCRD w) as [[[o1 ws1] e1] w1]. cbn [fst snd].
      destruct o1; [apply grows_ret|].
      apply grows_bind; [apply GetSingleObject_grows|].
      destruct (GetSingleObject k (bootstrapConfigMap namespace) w1) as [[[o2 ws2] e2] w2].
      cbn [fst snd]. destruct o2; [apply grows_ret|].
      destruct generated; [apply grows_ret|apply writeKey_sent].
    - pose proof (GetSingleObject_writes_nothing k sealedSecretsCRD w) as H1.
      destruct (GetSingleObject k sealedSecretsCRD w) as [[[o1 ws1] e1] w1]. cbn [fst snd].
      destruct o1.
      { eexists _, []. rewrite (proj2 (grows_ret _ _)). split_and!; try done. simpl. lia. }
      match goal with |- context [mbind ?m ?f] =>
        destruct (grows_bind m f w1 (GetSingleObject_grows _ _ _)) as [_ ->] end.
      + destruct (GetSingleObject k (bootstrapConfigMap namespace) w1) as [[[o2 ws2] e2] w2].
        cbn [fst snd]. destruct o2; [apply grows_ret|].
        destruct generated; [apply grows_ret|apply writeKey_sent].
      + pose proof (GetSingleObject_writes_nothing k (bootstrapConfigMap namespace) w1) as H2.
        destruct (GetSingleObject k (bootstrapConfigMap namespace) w1) as [[[o2 ws2] e2] w2].
        cbn [fst snd].
        assert (H12 : write_directives
                  (sent_by (GetSingleObject k sealedSecretsCRD) w ++
                   sent_by (GetSingleObject k (bootstrapConfigMap namespace)) w1) = []).
        { unfold write_directives in *. by rewrite omap_app, H1, H2. }
        destruct o2; [|destruct generated].
        * exists (sent_by (GetSingleObject k sealedSecretsCRD) w ++
                  sent_by (GetSingleObject k (bootstrapConfigMap namespace)) w1), [].
          rewrite (proj2 (grows_ret _ _)), !app_nil_r.
          split_and!; try done. simpl. lia.
        * exists (sent_by (GetSingleObject k sealedSecretsCRD) w ++
                  sent_by (GetSingleObject k (bootstrapConfigMap namespace)) w1), [].
          rewrite (proj2 (grows_ret _ _)), !app_nil_r.
          split_and!; try done. simpl. lia.
        * eexists _, _. rewrite app_assoc. split_and!; [done|exact H12|apply Hwk..]. }
  destruct Hsent as (l0 & l1 & -> & H0 & Hall & Hlen).
  assert (write_directives (l0 ++ l1) = write_directives l1) as ->
    by (unfold write_directives in *; by rewrite omap_app, H0).
  split_and!; [done|done|].
  intros w1 err Herr. rewrite (proj2 (writeKey_sent k w1)), Herr, app_nil_r.
  split; [|done]. unfold writeKey, mbind.
  destruct (patch k secret w1) as [[[r ws] e] w2]. simpl in Herr. by subst e.
Qed.
End BootstrapFacts.

(** ** Fixups, further *)

(** X15.  An object with no container list, no service port list and no
    limit list (a list of maps, each) comes out of [FixObjectForPatch] as it
    went in, whatever the server version and the path library's reading. *)
Theorem FixObjectForPatch_nothing_to_fix (rule : undotted) (S : value → string)
    (k : K8sCluster) (o : value) :
  GetFirstListOfMaps containers_path o = None →
  GetFirstListOfMaps service_ports o = None →
  GetFirstListOfMaps limits_path o = None →
  FixObjectForPatch rule S k o = Some o.
Proof.
  intros Hc Hp Hl. unfold FixObjectForPatch, Clone. rewrite orb_true_r. simpl.
  unfold applyFixups, fixContainers, fixPorts, fixLimits. simpl.
  fold containers_path service_ports limits_path.
  rewrite Hc. simpl. rewrite Hp. simpl. by rewrite Hl.
Qed.

Lemma FixObjectForPatch_nothing_to_fix_witness :
  GetFirstListOfMaps containers_path (ex_object "cm") = None ∧
  GetFirstListOfMaps service_ports (ex_object "cm") = None ∧
  GetFirstListOfMaps limits_path (ex_object "cm") = None ∧
  FixObjectForPatch UndottedIsError ex_Sprintf_v (ex_cluster false) (ex_object "cm")
  = Some (ex_object "cm").
Proof.
  split_and!; [reflexivity..|].
  exact (FixObjectForPatch_nothing_to_fix UndottedIsError ex_Sprintf_v (ex_cluster false)
           (ex_object "cm") eq_refl eq_refl eq_refl).
Defined.

(** X16.  [FixObjectForPatch] only writes under [spec]: whatever is found
    along a path that starts with another key is found unchanged in the
    object it returns. *)
Theorem FixObjectForPatch_outside_spec (S : value → string) (k : K8sCluster) (o : value)
    (a : string) (rest : list step) :
  a ≠ "spec" →
  ∃ o', FixObjectForPatch UndottedIsChild S k o = Some o' ∧
        get_path (Key a :: rest) o' = get_path (Key a :: rest) o.
Proof.
  intros Ha. eexists. split; [apply FixObjectForPatch_eq; by left|].
  unfold applyFixups_at.
  rewrite fixLimits_at_diverge by (intros j; split; paths_diverge).
  rewrite fixPorts_at_diverge by paths_diverge.
  apply fixContainers_at_diverge. intros j. split_and!; paths_diverge.
Qed.

Lemma FixObjectForPatch_outside_spec_witness :
  "metadata" ≠ "spec" ∧
  ∃ o', FixObjectForPatch UndottedIsChild ex_Sprintf_v (ex_cluster false) (ex_object "web")
        = Some o' ∧
        get_path [Key "metadata"; Key "name"] o'
        = get_path [Key "metadata"; Key "name"] (ex_object "web").
Proof.
  split; [discriminate|].
  exact (FixObjectForPatch_outside_spec ex_Sprintf_v (ex_cluster false) (ex_object "web")
           "metadata" [Key "name"] ltac:(discriminate)).
Defined.

(** X17.  The container paths of the type conversion fixup are written
    without the dot before [resources]: were the path library to reject such
    a path, [FixObjectForPatch] would abort, on a server older than 1.1000,
    on every object with at least one container. *)
Theorem FixObjectForPatch_needs_undotted_paths (S : value → string) (k : K8sCluster)
    (o : value) (c : attrs) (containers : list attrs) :
  LessThan (ServerVersion k) v1_1000 = true →
  GetFirstListOfMaps containers_path o = Some (c :: containers) →
  FixObjectForPatch UndottedIsError S k o = None.
Proof.
  intros Hv Hc. unfold FixObjectForPatch, Clone. rewrite orb_true_r, Hv. simpl.
  unfold applyFixups, fixContainers. simpl. fold containers_path. rewrite Hc. simpl.
  unfold fixContainer.
  rewrite (fixPorts_eq UndottedIsError true _ (container_ports 0)) by done. done.
Qed.

Lemma FixObjectForPatch_needs_undotted_paths_witness :
  LessThan (ServerVersion (ex_cluster false)) v1_1000 = true ∧
  FixObjectForPatch UndottedIsError ex_Sprintf_v (ex_cluster false) ex_deployment = None.
Proof.
  split; [reflexivity|].
  eapply (FixObjectForPatch_needs_undotted_paths ex_Sprintf_v (ex_cluster false)
            ex_deployment); reflexivity.
Defined.

(** ** The pool and the resolver, further *)

Lemma new_entry_spec build i :
  match new_entry build i with
  | None => ∀ q, build i q = None
  | Some e => ∃ q, build i q = Some e ∧ ∀ q', part_index q' < part_index q → build i q' = None
  end.
Proof.
  unfold new_entry.
  destruct (build i HttpClient) as [e|] eqn:H0.
  { exists HttpClient. split; [done|]. intros []; simpl; lia. }
  destruct (build i CoreV1Client) as [e|] eqn:H1.
  { exists CoreV1Client. split; [done|]. intros []; simpl; (done || lia). }
  destruct (build i DynamicClient) as [e|] eqn:H2.
  { exists DynamicClient. split; [done|]. intros []; simpl; (done || lia). }
  destruct (build i MetadataClient) as [e|] eqn:H3.
  { exists MetadataClient. split; [done|]. intros []; simpl; (done || lia). }
  by intros [].
Qed.

Lemma drain_pool_spec n : ∀ chan closed,
  match drain_pool n chan closed with
  | None => length chan < n
  | Some l => n ≤ length chan ∧ l = closed ++ take n chan
  end.
Proof.
  induction n as [|n IH]; intros chan closed; simpl.
  - split; [lia|by rewrite take_0, app_nil_r].
  - destruct chan as [|p chan]; simpl; [lia|].
    specialize (IH chan (closed ++ [p])).
    destruct (drain_pool n chan (closed ++ [p])) as [l|]; [|lia].
    destruct IH as [Hlen ->]. split; [lia|by rewrite <- app_assoc].
Qed.

Lemma fill_pool_spec build n : ∀ a chan,
  match fill_pool build (seq a n) chan with
  | (pool, None) => pool = chan ++ seq a n ∧ ∀ i, a ≤ i < a + n → new_entry build i = None
  | (pool, Some e) =>
      ∃ i, a ≤ i < a + n ∧ new_entry build i = Some e ∧
           (∀ j, a ≤ j < i → new_entry build j = None) ∧
           pool = chan ++ seq a (i - a)
  end.
Proof.
  induction n as [|n IH]; intros a chan; simpl.
  - split; [by rewrite app_nil_r|]. intros i ?. lia.
  - destruct (new_entry build a) as [e|] eqn:Ha.
    + exists a. split; [lia|]. split; [done|]. split; [intros j ?; lia|].
      by rewrite Nat.sub_diag, app_nil_r.
    + specialize (IH (Datatypes.S a) (chan ++ [a])).
      destruct (fill_pool build (seq (Datatypes.S a) n) (chan ++ [a])) as [pool [e|]].
      * destruct IH as (i & Hi & He & Hbefore & ->). exists i.
        split; [lia|]. split; [done|]. split.
        -- intros j Hj. destruct (decide (j = a)) as [->|]; [done|]. apply Hbefore. lia.
        -- replace (i - a) with (Datatypes.S (i - Datatypes.S a)) by lia.
           simpl. by rewrite <- app_assoc.
      * destruct IH as [-> Hall]. split; [by rewrite <- app_assoc|].
        intros i Hi. destruct (decide (i = a)) as [->|]; [done|]. apply Hall. lia.
Qed.

(** X18.  [initClientPool] first drains an existing pool: it takes 16
    entries from the old channel, closing the idle connections of each, and
    blocks when the channel does not deliver as many.  It then points the
    handle at a new channel.  It returns nil exactly when that channel holds
    all 16 new entries, in the order built; when a part of entry [i] cannot
    be built it returns that error, the first in building order, and leaves
    the handle with the new channel holding only the [i] entries built
    before: a pool that is short of entries. *)
Theorem initClientPool_outcome (build : nat → client_part → option error)
    (old : option (list nat)) :
  match initClientPool build old with
  | None => ∃ chan, old = Some chan ∧ length chan < parallelClients
  | Some r =>
      match old with
      | None => closed_entries r = []
      | Some chan =>
          parallelClients ≤ length chan ∧ closed_entries r = take parallelClients chan
      end ∧
      match init_err r with
      | None =>
          new_pool r = seq 0 parallelClients ∧
          ∀ i q, i < parallelClients → build i q = None
      | Some e =>
          ∃ i q, i < parallelClients ∧ build i q = Some e ∧
                 (∀ q', part_index q' < part_index q → build i q' = None) ∧
                 (∀ j q', j < i → build j q' = None) ∧
                 new_pool r = seq 0 i ∧ length (new_pool r) < parallelClients
      end
  end.
Proof.
  unfold initClientPool.
  pose proof (fill_pool_spec build parallelClients 0 []) as Hfill.
  destruct (fill_pool build (seq 0 parallelClients) []) as [pool err].
  assert (Hnew :
    match err with
    | None => pool = seq 0 parallelClients ∧ ∀ i q, i < parallelClients → build i q = None
    | Some e =>
        ∃ i q, i < parallelClients ∧ build i q = Some e ∧
               (∀ q', part_index q' < part_index q → build i q' = None) ∧
               (∀ j q', j < i → build j q' = None) ∧
               pool = seq 0 i ∧ length pool < parallelClients
    end).
  { destruct err as [e|].
    - destruct Hfill as (i & Hi & He & Hbefore & ->).
      pose proof (new_entry_spec build i) as Hentry. rewrite He in Hentry.
      destruct Hentry as (q & Hq & Hparts).
      exists i, q. split; [lia|]. split; [done|]. split; [done|]. split.
      + intros j q' Hj. pose proof (new_entry_spec build j) as Hj'.
        rewrite Hbefore in Hj' by lia. apply Hj'.
      + rewrite Nat.sub_0_r. simpl. split; [done|]. rewrite length_seq. lia.
    - destruct Hfill as [-> Hall]. split; [done|].
      intros i q Hi. pose proof (new_entry_spec build i) as Hi'.
      rewrite Hall in Hi' by lia. apply Hi'. }
  destruct old as [chan|].
  - pose proof (drain_pool_spec parallelClients chan []) as Hdrain.
    destruct (drain_pool parallelClients chan []) as [closed|];
      cbn [mbind option_bind closed_entries init_err new_pool].
    + destruct Hdrain as [Hlen ->]. by split.
    + by exists chan.
  - cbn [mbind option_bind closed_entries init_err new_pool]. by split.
Qed.

(** A handle whose third entry has no dynamic client: the call returns the
    error and the handle's pool holds two entries. *)
Example initClientPool_short_pool :
  let build i q :=
    match i, q with
    | 2, DynamicClient => Some (OtherError "no dynamic client")
    | _, _ => None
    end in
  initClientPool build (Some (seq 100 16)) =
  Some (mkPoolInit (seq 100 16) [0; 1] (Some (OtherError "no dynamic client"))).
Proof. reflexivity. Qed.

(** X19.  As long as the resolver is not refreshed between the moment
    [ListAllObjects] picks its kinds and the moment a unit resolves its kind,
    the kind resolves: the unit cannot fail with the resolver's "no matching
    kind". *)
Theorem ListAllObjects_units_resolve (k : K8sCluster) (verbs : list string) (w : World)
    (env : GroupVersionKind → World) (t : GroupVersionKind * World) :
  t ∈ ListAllObjects_units k verbs w env →
  resolver k (advance [] t.2) = resolver k w →
  ∃ gvr namespaced, GetGVRForGVK (resolver k (advance [] t.2)) t.1 = inl (gvr, namespaced).
Proof.
  intros Ht ->. unfold ListAllObjects_units, GetFilteredPreferredGVKs in Ht.
  apply list_elem_of_fmap in Ht as (gvk & -> & Hgvk).
  apply list_elem_of_fmap in Hgvk as (ar & -> & Har).
  apply list_elem_of_In, filter_In in Har as [Hin _]. simpl.
  unfold GetGVRForGVK.
  destruct (List.find _ (discovered (resolver k w))) as [ar'|] eqn:Hfind; [by eexists _, _|].
  exfalso. apply (find_none _ _ Hfind) in Hin. by rewrite bool_decide_true in Hin.
Qed.

Lemma ListAllObjects_units_resolve_witness :
  (ex_gvk, world_listing) ∈
    ListAllObjects_units (ex_cluster false) ["list"] world_listing (fun _ => world_listing) ∧
  resolver (ex_cluster false) (advance [] world_listing) = resolver (ex_cluster false) world_listing ∧
  ∃ gvr namespaced,
    GetGVRForGVK (resolver (ex_cluster false) (advance [] world_listing)) ex_gvk
    = inl (gvr, namespaced).
Proof.
  assert (H : (ex_gvk, world_listing) ∈
    ListAllObjects_units (ex_cluster false) ["list"] world_listing (fun _ => world_listing))
    by (by left).
  split_and!; [exact H|reflexivity|].
  exact (ListAllObjects_units_resolve (ex_cluster false) ["list"] world_listing
           (fun _ => world_listing) (ex_gvk, world_listing) H eq_refl).
Defined.

(** X20.  A list call that fails returns no items, with or without
    metadata only; one that succeeds returns an item for each item of the
    reply. *)
Theorem list_calls_items (k : K8sCluster) (gvk : GroupVersionKind) (namespace : string)
    (labels : list (string * string)) (w : World) :
  let full := (ListObjects k gvk namespace labels w).1 in
  let meta := (ListObjectsMetadata k gvk namespace labels w).1 in
  (is_Some full.2 → full.1.1 = []) ∧
  (is_Some meta.2 → meta.1.1 = []) ∧
  (full.2 = None →
     ∃ t, full.1.1 = reply_items (reply_at w (Datatypes.S (clock w))
                                    (ListReq t (buildLabelSelector labels)))) ∧
  (meta.2 = None →
     ∃ t, length meta.1.1 =
          length (reply_items (reply_at w (Datatypes.S (clock w))
                                 (MetadataListReq t (buildLabelSelector labels))))).
Proof.
  unfold ListObjects, ListObjectsMetadata.
  split_and!; run_call; intros H; try (by destruct H); try done; eexists;
    by rewrite ?length_fmap.
Qed.

(** ** Updating, and calls without a client *)

(** X21.  Once it reaches the server, [UpdateObject] sends one update of
    the object itself under the field manager "kluctl", in the mode in
    effect, and returns the server's object or the server's error as it is. *)
Theorem UpdateObject_outcome (GetK8sRef : value → ObjectRef) (k : K8sCluster) (o : value)
    (options : UpdateOptions) (w : World) (gvr : GroupVersionResource) (namespaced : bool) :
  checkout_at w (clock w) = ClientReady →
  GetGVRForGVK (resolver k (advance [] w)) (GVK (GetK8sRef o)) = inl (gvr, namespaced) →
  let req := UpdateReq (target_for namespaced gvr (Namespace (GetK8sRef o))) o
               (mkUpdateOpts "kluctl" (directive (DryRun k || update_ForceDryRun options))) in
  let x := reply_at w (Datatypes.S (clock w)) req in
  UpdateObject GetK8sRef k o options w =
  ((match reply_err x with Some _ => None | None => Some (reply_object x) end,
    reply_warnings x, reply_err x),
   advance [Sent req] (advance [] w)).
Proof.
  intros Hc Hr. unfold UpdateObject, directive, target_for.
  unfold withDynamicClientForGVK, withClientFromPool, mbind. rewrite Hc. simpl.
  simpl in Hr. rewrite Hr.
  destruct (namespaced && negb (bool_decide (Namespace (GetK8sRef o) = "")));
    unfold roundTrip, mret; simpl; destruct (reply_err _); simpl;
    by rewrite collect_warnings.
Qed.

Lemma UpdateObject_outcome_witness :
  let w := ex_world ex_resources (fun _ _ => reply_found "web") in
  checkout_at w (clock w) = ClientReady ∧
  GetGVRForGVK (resolver (ex_cluster true) (advance [] w)) (GVK (ex_ref "web"))
    = inl (mkGVR "apps" "v1" "deployments", true) ∧
  (UpdateObject (fun _ => ex_ref "web") (ex_cluster true) (ex_object "web")
     (mkUpdateOptions false) w).1
  = (Some (ex_object "web"), [], None).
Proof.
  intros w. split_and!; [reflexivity|reflexivity|].
  by rewrite (UpdateObject_outcome (fun _ => ex_ref "web") (ex_cluster true) (ex_object "web")
                (mkUpdateOptions false) w (mkGVR "apps" "v1" "deployments") true
                eq_refl eq_refl).
Defined.

(** X22.  A lookup that finds the handle's context done while it waits for
    a client sends nothing, and its error is neither "not found" nor "no
    matching kind": in [GetObjectsByRefs] it fails the whole call rather than
    being skipped. *)
Theorem GetObjectsByRefs_context_done (k : K8sCluster) (refs : list (ObjectRef * World))
    (t : ObjectRef * World) (c : ctx_err) :
  t ∈ refs → checkout_at t.2 (clock t.2) = ClientCtxDone c →
  sent_by (GetSingleObject k t.1) t.2 = [] ∧
  ∀ res, GetObjectsByRefs k refs res → res.1.1 = [] ∧ is_Some res.2.
Proof.
  intros Ht Hc.
  assert (Hrun : GetSingleObject k t.1 t.2 =
            ((None, [], Some (Errorf "failed waiting for free client: %w" "" (ctx_Err c))),
             advance [] t.2)) by (by rewrite GetSingleObject_run, Hc).
  split.
  - unfold sent_by. rewrite Hrun. simpl. by trace_done.
  - intros res Hres.
    assert (Hfail : is_Some (lookup_failure k t)).
    { unfold lookup_failure, lookup_result. rewrite Hrun. simpl. by destruct c. }
    destruct (GetObjectsByRefs_failure k refs res t Ht Hfail Hres)
      as (dn & e' & t' & _ & _ & _ & ->).
    by split.
Qed.

Lemma GetObjectsByRefs_context_done_witness :
  let w := mkWorld 0 [] (fun _ => ClientCtxDone Canceled) (fun _ _ => reply_found "web")
             (fun _ => TimerFired) (fun _ _ => ex_resources) in
  (ex_ref "web", w) ∈ [(ex_ref "web", w)] ∧
  checkout_at w (clock w) = ClientCtxDone Canceled ∧
  sent_by (GetSingleObject (ex_cluster false) (ex_ref "web")) w = [] ∧
  ∀ res, GetObjectsByRefs (ex_cluster false) [(ex_ref "web", w)] res →
         res.1.1 = [] ∧ is_Some res.2.
Proof.
  intros w.
  assert (H : (ex_ref "web", w) ∈ [(ex_ref "web", w)]) by (by left).
  split_and!; [exact H|reflexivity|..];
    apply (GetObjectsByRefs_context_done (ex_cluster false) [(ex_ref "web", w)]
             (ex_ref "web", w) Canceled H eq_refl).
Defined.

(** ** The further properties, run *)

Lemma ListAllObjects_hard_error_witness :
  let k := ex_cluster false in
  let env := fun _ : GroupVersionKind => world_kind_removed in
  (ex_gvk, world_kind_removed) ∈ ListAllObjects_units k ["list"] world_listing env ∧
  (list_result k "" [] false (ex_gvk, world_kind_removed)).2 = Some (NoKindMatch "Deployment") ∧
  IsNotFound (NoKindMatch "Deployment") = false ∧
  (ListAllObjects k ["list"] "" [] false world_listing env
     (ListAllObjects_in_order k ["list"] "" [] false world_listing env) ∧
   ∀ res, ListAllObjects k ["list"] "" [] false world_listing env res →
     res.1.1 = [] ∧
     ∃ e' t', res.2 = Some e' ∧ t' ∈ ListAllObjects_units k ["list"] world_listing env ∧
              (list_result k "" [] false t').2 = Some e' ∧ IsNotFound e' = false).
Proof.
  intros k env.
  assert (H : (ex_gvk, world_kind_removed) ∈ ListAllObjects_units k ["list"] world_listing env)
    by (by left).
  split; [exact H|]. split; [reflexivity|]. split; [reflexivity|].
  exact (ListAllObjects_hard_error k ["list"] "" [] false world_listing env
           (ex_gvk, world_kind_removed) (NoKindMatch "Deployment") H eq_refl eq_refl).
Defined.

Lemma GetObjectsByRefs_skips_absent_witness :
  let k := ex_cluster false in
  let refs := [(ex_ref "web", world_not_found); (ex_ref "db", world_found "db")] in
  Forall (fun t => ∀ e, (lookup_result k t).2 = Some e →
                        IsNotFound e = true ∨ IsNoMatchError e = true) refs ∧
  (GetObjectsByRefs k refs (GetObjectsByRefs_in_order k refs) ∧
   ∀ res, GetObjectsByRefs k refs res →
     res.2 = None ∧
     res.1.1 ≡ₚ (fun t => (lookup_result k t).1.1)
                  <$> List.filter (fun t => bool_decide ((lookup_result k t).2 = None)) refs).
Proof.
  intros k refs.
  assert (H : Forall (fun t => ∀ e, (lookup_result k t).2 = Some e →
                        IsNotFound e = true ∨ IsNoMatchError e = true) refs).
  { apply List.Forall_cons; [|apply List.Forall_cons; [|apply List.Forall_nil]].
    - intros e [= <-]. by left.
    - intros e [=]. }
  split; [exact H|]. exact (GetObjectsByRefs_skips_absent k refs H).
Defined.

Lemma DeleteSingleObject_without_wait_witness :
  let k := ex_cluster true in
  (DryRun k || del_ForceDryRun wait_options = true ∨ NoWait wait_options = true) ∧
  let o := mkDeleteOpts (Some "Foreground") (directive (DryRun k || del_ForceDryRun wait_options)) in
  let sent := sendDelete k (ex_ref "web") wait_options o world_deleting in
  DeleteSingleObject 5 k (ex_ref "web") wait_options world_deleting
  = (Some (sent.1.1.1, sent.1.1.2), sent.2).
Proof.
  intros k.
  assert (H : DryRun k || del_ForceDryRun wait_options = true ∨ NoWait wait_options = true)
    by (by left).
  split; [exact H|].
  exact (DeleteSingleObject_without_wait 5 k (ex_ref "web") wait_options world_deleting H).
Defined.

Lemma DeleteSingleObject_not_found_witness :
  let k := ex_cluster false in
  let w := world_not_found in
  let gvr := mkGVR "apps" "v1" "deployments" in
  let e := StatusNotFound "deployments not found" in
  let o := mkDeleteOpts (Some "Foreground") (directive (DryRun k || del_ForceDryRun wait_options)) in
  let req := DeleteReq (target_for true gvr (Namespace (ex_ref "web"))) (Name (ex_ref "web")) o in
  let x := reply_at w (Datatypes.S (clock w)) req in
  checkout_at w (clock w) = ClientReady ∧
  GetGVRForGVK (resolver k (advance [] w)) (GVK (ex_ref "web")) = inl (gvr, true) ∧
  reply_err x = Some e ∧ IsNotFound e = true ∧
  (IgnoreNotFoundError wait_options = false →
     DeleteSingleObject 5 k (ex_ref "web") wait_options w =
     (Some (reply_warnings x, Some e), advance [Sent req] (advance [] w))) ∧
  (IgnoreNotFoundError wait_options = true →
     sendDelete k (ex_ref "web") wait_options o w =
     ((reply_warnings x, None, tt), advance [Sent req] (advance [] w))).
Proof.
  intros k w gvr e o req x.
  split; [reflexivity|]. split; [reflexivity|]. split; [reflexivity|]. split; [reflexivity|].
  exact (DeleteSingleObject_not_found 5 k (ex_ref "web") wait_options w gvr true e
           eq_refl eq_refl eq_refl eq_refl).
Defined.
